(** * TraceAtlas tik: region analysis, kernel construction and kernel hashing

    A shallow embedding of the parts of [tik/Kernel.cpp] and
    [Utilities/KernelHasher.cpp] that the specification speaks about.

    LLVM objects ([BasicBlock *], [Function *], [Value *]) are addresses, and
    the LLVM queries the code makes ([successors], [getTerminator],
    [users], [getParent], ...) are the fields of a facade record.  A
    [std::set<T *>] is a [gset ptr] that is iterated in ascending address
    order, a [std::map] is a [gmap]; a thrown [TikException] is the [Throw]
    branch of [result]. *)

From stdpp Require Import base gmap sets list strings sorting pretty.
From Stdlib Require Import ZArith Lia.

#[local] Set Warnings "-clear-no-such-hyp".

Open Scope Z_scope.

(** ** Addresses, ordered containers, exceptions *)

Abbreviation ptr := Z.

(** [for (auto x : s)] over a [std::set<T *>]: ascending addresses. *)
Definition set_iter (s : gset ptr) : list ptr := merge_sort Z.le (elements s).

(** [for (auto pair : m)] over a [std::map<K, V>]: ascending keys. *)
Definition map_iter {V} (m : gmap Z V) : list (Z * V) :=
  omap (fun k => (fun v => (k, v)) <$> m !! k) (merge_sort Z.le (elements (dom m))).

Inductive TikException := TikError (what : string).

Inductive result (A : Type) :=
| Ok (a : A)
| Throw (e : TikException).
Arguments Ok {A} a.
Arguments Throw {A} e.

#[export] Instance result_ret : MRet result := fun A a => Ok a.
#[export] Instance result_bind : MBind result := fun A B k r =>
  match r with
  | Ok a => k a
  | Throw e => Throw e
  end.

Definition is_ok {A} (r : result A) : bool :=
  match r with Ok _ => true | Throw _ => false end.

(** A [for] loop whose body can throw, or run out of fuel. *)
Fixpoint foldM {M : Type → Type} `{MBind M, MRet M} {A B}
    (f : A → B → M A) (l : list B) (a : A) : M A :=
  match l with
  | [] => mret a
  | b :: l => a' ← f a b; foldM f l a'
  end.

(** ** The control-flow facade used by the region analyser *)

Record CFG := {
  (** [successors(b)], in terminator operand order *)
  successors : ptr -> list ptr;
  (** [dyn_cast<ReturnInst>(b->getTerminator())] is not null *)
  is_return : ptr -> bool;
  (** [b->getParent()] *)
  block_parent : ptr -> ptr;
  (** for each user of function [f], the block the using instruction is in *)
  user_blocks : ptr -> list ptr;
}.

(** ** The members of [Kernel] written by the region analyser *)

Record Region := {
  Entrances : gset ptr;
  ExitMap : gmap ptr Z;
  ExitTarget : gmap Z ptr;
  Conditional : gset ptr;
  Body : gset ptr;
  Termination : gset ptr;
}.

Definition empty_region : Region :=
  {| Entrances := ∅; ExitMap := ∅; ExitTarget := ∅;
     Conditional := ∅; Body := ∅; Termination := ∅ |}.

(** ** [Kernel::GetExits] *)

Module Exits.

Record state := {
  exitId : Z;
  coveredExits : gset ptr;
  target : gmap Z ptr;     (* ExitTarget *)
  emap : gmap ptr Z;       (* ExitMap *)
}.

(** The body shared by both inner loops: [t] is [suc] in the first and
    [v->getParent()] in the second. *)
Definition visit (blocks : gset ptr) (block : ptr) (st : state) (t : ptr) : state :=
  if decide (t ∈ blocks) then st
  else if decide (t ∈ coveredExits st) then st
  else {| exitId := exitId st + 1;
          coveredExits := {[t]} ∪ coveredExits st;
          target := <[exitId st := t]> (target st);
          emap := <[block := exitId st]> (emap st) |}.

Definition visit_block (g : CFG) (blocks : gset ptr) (st : state) (block : ptr) : state :=
  let st1 := fold_left (visit blocks block) (successors g block) st in
  if is_return g block
  then fold_left (visit blocks block) (user_blocks g (block_parent g block)) st1
  else st1.

Definition GetExits (g : CFG) (blocks : gset ptr) (k : Region) : result Region :=
  let st0 := {| exitId := 0; coveredExits := ∅;
                target := ExitTarget k; emap := ExitMap k |} in
  let st := fold_left (visit_block g blocks) (set_iter blocks) st0 in
  if decide (exitId st = 0)
  then Throw (TikError "Tik Error: tik found no kernel exits")
  else Ok {| Entrances := Entrances k; ExitMap := emap st; ExitTarget := target st;
             Conditional := Conditional k; Body := Body k;
             Termination := Termination k |}.

(** Everything block [b] can leave the region through. *)
Definition exit_targets (g : CFG) (b : ptr) : list ptr :=
  successors g b ++ (if is_return g b then user_blocks g (block_parent g b) else []).

(** The (block, target) pairs in the order the loops meet them. *)
Definition pairs (g : CFG) (l : list ptr) : list (ptr * ptr) :=
  l ≫= (fun b => pair b <$> exit_targets g b).

Definition visitp (blocks : gset ptr) (st : state) (p : ptr * ptr) : state :=
  visit blocks p.1 st p.2.

(** A pair claims a fresh exit id when its target is outside the region and
    was not met before. *)
Definition claims (blocks c0 : gset ptr) (L : list (ptr * ptr)) (b : ptr) : Prop :=
  ∃ l1 t l2, L = l1 ++ (b, t) :: l2 ∧ (t ∉ blocks) ∧ (t ∉ c0) ∧ (t ∉ l1.*2).

(** [b] is the first block, in iteration order [l], to reach some target
    outside the region. *)
Definition first_claimer (g : CFG) (blocks : gset ptr) (l : list ptr) (b : ptr) : Prop :=
  ∃ pre post s, l = pre ++ b :: post ∧ s ∈ exit_targets g b ∧ (s ∉ blocks) ∧
    ∀ b', b' ∈ pre → s ∉ exit_targets g b'.

(** Some block of the region has a way out. *)
Definition has_exit (g : CFG) (blocks : gset ptr) : Prop :=
  ∃ b s, b ∈ blocks ∧ s ∈ exit_targets g b ∧ (s ∉ blocks).

(** The totality the specification asks of [ExitMap]: every block of the
    region with a target outside it has an entry. *)
Definition ExitMap_total (g : CFG) (blocks : gset ptr) : Prop :=
  ∀ k', GetExits g blocks empty_region = Ok k' →
    ∀ b s, b ∈ blocks → s ∈ exit_targets g b → (s ∉ blocks) →
      is_Some (ExitMap k' !! b).

End Exits.

(** ** [Kernel::GetConditional]

    The two [while (!queue.empty())] loops are written with a fuel argument;
    [None] means the fuel ran out before the queue was empty. *)

Module Cond.

(** *** Classification of one successor of a candidate *)

Record scan := {
  toProcess : list ptr;      (* the queue, front first *)
  checked : gset ptr;
  recurses : bool;
  exit : bool;
}.

(** The body of [for (auto succ : successors(processing))]. *)
Definition scan_succ (blocks : gset ptr) (cond : ptr) (st : scan) (succ : ptr) : scan :=
  let r := if decide (succ = cond) then true else recurses st in
  let e := if decide (succ ∈ blocks) then exit st else true in
  if decide ((succ ∉ checked st) ∧ succ ∈ blocks)
  then {| toProcess := toProcess st ++ [succ]; checked := {[succ]} ∪ checked st;
          recurses := r; exit := e |}
  else {| toProcess := toProcess st; checked := checked st; recurses := r; exit := e |}.

(** One turn of the [while] loop, [processing] being the popped front. *)
Definition scan_block (g : CFG) (blocks : gset ptr) (cond : ptr)
    (processing : ptr) (st : scan) : scan :=
  let st1 := {| toProcess := toProcess st; checked := checked st; recurses := recurses st;
                exit := if decide (length (successors g processing) = 0%nat)
                        then true else exit st |} in
  fold_left (scan_succ blocks cond) (successors g processing) st1.

Fixpoint scan_loop (fuel : nat) (g : CFG) (blocks : gset ptr) (cond : ptr) (st : scan)
    : option scan :=
  match toProcess st with
  | [] => Some st
  | processing :: rest =>
    match fuel with
    | O => None
    | S fuel =>
      scan_loop fuel g blocks cond
        (scan_block g blocks cond processing
           {| toProcess := rest; checked := checked st;
              recurses := recurses st; exit := exit st |})
    end
  end.

(** The flags [(recurses, exit)] the search from successor [suc] of [cond] ends with. *)
Definition branch_flags (fuel : nat) (g : CFG) (blocks : gset ptr) (cond suc : ptr)
    : option (bool * bool) :=
  st ← scan_loop fuel g blocks cond
         {| toProcess := [suc]; checked := {[cond]} ∪ ({[suc]} ∪ ∅);
            recurses := false; exit := false |};
  Some (recurses st, exit st).

(** *** Classification of a candidate *)

Record verdict := {
  exRecurses : bool;
  exExit : bool;
  recursePaths : gset ptr;
  exitPaths : gset ptr;
}.

(** The body of [for (auto suc : successors(cond))]. *)
Definition judge_succ (fuel : nat) (g : CFG) (blocks : gset ptr) (cond : ptr)
    (v : verdict) (suc : ptr) : option verdict :=
  f ← branch_flags fuel g blocks cond suc;
  let '(r, e) := f in
  if r && e then Some v
  else
    let v1 := if r then {| exRecurses := true; exExit := exExit v;
                           recursePaths := {[suc]} ∪ recursePaths v;
                           exitPaths := exitPaths v |} else v in
    let v2 := if e then {| exRecurses := exRecurses v1; exExit := true;
                           recursePaths := recursePaths v1;
                           exitPaths := {[suc]} ∪ exitPaths v1 |} else v1 in
    Some v2.

Definition judge (fuel : nat) (g : CFG) (blocks : gset ptr) (cond : ptr) : option verdict :=
  foldM (judge_succ fuel g blocks cond) (successors g cond)
    {| exRecurses := false; exExit := false; recursePaths := ∅; exitPaths := ∅ |}.

Record classes := {
  validConditions : gset ptr;
  exitDict : gmap ptr (gset ptr);
  recurseDict : gmap ptr (gset ptr);
}.

(** The body of [for (auto cond : conditions)]. *)
Definition classify_cond (fuel : nat) (g : CFG) (blocks : gset ptr)
    (c : classes) (cond : ptr) : option classes :=
  v ← judge fuel g blocks cond;
  if exExit v && exRecurses v
  then Some {| validConditions := {[cond]} ∪ validConditions c;
               recurseDict := <[cond := recursePaths v]> (recurseDict c);
               exitDict := <[cond := exitPaths v]> (exitDict c) |}
  else Some c.

(** The blocks whose terminator has more than one successor. *)
Definition conditions (g : CFG) (blocks : gset ptr) : list ptr :=
  filter (fun block => (1 < length (successors g block))%nat) (set_iter blocks).

Definition classify (fuel : nat) (g : CFG) (blocks : gset ptr) : option classes :=
  foldM (classify_cond fuel g blocks) (conditions g blocks)
    {| validConditions := ∅; exitDict := ∅; recurseDict := ∅ |}.

(** *** The body walk *)

Record walk := {
  processing : list ptr;     (* the queue, front first *)
  visited : gset ptr;
  wBody : gset ptr;          (* the member [Body] *)
}.

(** The body of [for (auto suc : successors(a))]. *)
Definition walk_succ (valid visited : gset ptr) (q : list ptr) (suc : ptr) : list ptr :=
  if decide (suc ∈ valid) then q
  else if decide (suc ∈ visited) then q
  else q ++ [suc].

(** One turn of the [while] loop, [a] being the popped front. *)
Definition walk_block (g : CFG) (blocks valid : gset ptr) (a : ptr) (st : walk) : walk :=
  let vis := {[a]} ∪ visited st in
  let body := if decide (a ∈ wBody st) then wBody st
              else if decide (a ∈ blocks) then {[a]} ∪ wBody st else wBody st in
  {| processing := fold_left (walk_succ valid vis) (successors g a) (processing st);
     visited := vis; wBody := body |}.

Fixpoint walk_loop (fuel : nat) (g : CFG) (blocks valid : gset ptr) (st : walk)
    : option walk :=
  match processing st with
  | [] => Some st
  | a :: rest =>
    match fuel with
    | O => None
    | S fuel =>
      walk_loop fuel g blocks valid
        (walk_block g blocks valid a
           {| processing := rest; visited := visited st; wBody := wBody st |})
    end
  end.

(** The body of [for (auto b : validConditions)]: [cb] is the pair of the
    members [Conditional] and [Body]. *)
Definition walk_from (fuel : nat) (g : CFG) (blocks : gset ptr) (c : classes)
    (cb : gset ptr * gset ptr) (b : ptr) : option (gset ptr * gset ptr) :=
  let recPaths := default ∅ (recurseDict c !! b) in
  st ← walk_loop fuel g blocks (validConditions c)
         {| processing := set_iter recPaths;
            visited := validConditions c ∪ recPaths;
            wBody := cb.2 |};
  Some ({[b]} ∪ cb.1, wBody st).

Definition GetConditional (fuel : nat) (g : CFG) (blocks : gset ptr) (k : Region)
    : option Region :=
  c ← classify fuel g blocks;
  cb ← foldM (walk_from fuel g blocks c) (set_iter (validConditions c))
         (Conditional k, Body k);
  let term := fold_left (fun t block => if decide (block ∈ cb.2) then t else {[block]} ∪ t)
                (set_iter blocks) (Termination k) in
  Some {| Entrances := Entrances k; ExitMap := ExitMap k; ExitTarget := ExitTarget k;
          Conditional := cb.1; Body := cb.2; Termination := term |}.

(** *** Notions the analysis of the two searches is stated with *)

(** A computation with fuel settles on [a]: from some amount of fuel on, it
    returns [a]. *)
Definition settles {A} (F : nat → option A) (a : A) : Prop :=
  ∃ n, ∀ fuel, (n ≤ fuel)%nat → F fuel = Some a.

Definition settles_with {A} (F : nat → option A) (Post : A → Prop) : Prop :=
  ∃ a, settles F a ∧ Post a.

(** [t] is reached from the seed [r] along edges whose destination lies in
    the region and is not a valid conditional. *)
Inductive confined_reach (g : CFG) (blocks valid : gset ptr) (r : ptr) : ptr → Prop :=
| reach_seed : confined_reach g blocks valid r r
| reach_step x y :
    confined_reach g blocks valid r x → y ∈ successors g x → y ∈ blocks → (y ∉ valid) →
    confined_reach g blocks valid r y.

(** Every successor of a block of [P] lies in the region, and is [cond] or
    again in [P]. *)
Definition closed (g : CFG) (blocks : gset ptr) (cond : ptr) (P : gset ptr) : Prop :=
  ∀ x y, x ∈ P → y ∈ successors g x → y ∈ blocks ∧ (y = cond ∨ y ∈ P).

(** What is left to do for a search of a successor. *)
Definition scan_measure (blocks : gset ptr) (st : scan) : nat :=
  (size (blocks ∖ checked st) + length (toProcess st))%nat.

(** The search from [suc] with the blocks of [P] already processed. *)
Definition scan_inv (g : CFG) (blocks : gset ptr) (cond suc : ptr) (P : gset ptr)
    (st : scan) : Prop :=
  (∀ y, y ∈ checked st → y = cond ∨ y ∈ P ∨ y ∈ toProcess st) ∧
  (suc ∈ P ∨ suc ∈ toProcess st) ∧
  (exit st = false →
   ∀ x y, x ∈ P → y ∈ successors g x → y ∈ blocks ∧ y ∈ checked st).

(** [r] is a successor of [cond] whose search sets the recurses flag and not
    the exit flag. *)
Definition pure_recursing (g : CFG) (blocks : gset ptr) (cond r : ptr) : Prop :=
  r ∈ successors g cond ∧
  settles (fun fuel => branch_flags fuel g blocks cond r) (true, false).

(** The recurse seeds of a candidate are pure-recursing successors of it and
    lie in a closed set. *)
Definition seeds_closed (g : CFG) (blocks : gset ptr) (cond : ptr) (seeds : gset ptr) : Prop :=
  (∀ r, r ∈ seeds → pure_recursing g blocks cond r) ∧
  ∃ Q, seeds ⊆ Q ∧ closed g blocks cond Q.

(** [t] is reached by the body walk of some valid conditional: from one of
    its pure-recursing successors, along edges that stay in the region and
    avoid the valid conditionals. *)
Definition walked (g : CFG) (blocks valid : gset ptr) (t : ptr) : Prop :=
  ∃ c r, c ∈ valid ∧ pure_recursing g blocks c r ∧ confined_reach g blocks valid r t.

(** Every entry of [recurseDict] belongs to a valid conditional and has its
    seeds in a closed set. *)
Definition classes_inv (g : CFG) (blocks : gset ptr) (c : classes) : Prop :=
  ∀ cond seeds, recurseDict c !! cond = Some seeds →
    cond ∈ validConditions c ∧ seeds_closed g blocks cond seeds.

(** The weight of a queue entry of the body walk when [u] blocks of the
    universe are unvisited, [d] bounding the number of successors. *)
Fixpoint weight (d : nat) (u : nat) : nat :=
  match u with
  | O => O
  | S u => (S d * weight d u + 1)%nat
  end.

Definition entry_weight (d : nat) (U visited : gset ptr) (e : ptr) : nat :=
  weight d (size (U ∖ visited) + (if decide (e ∈ visited) then 1 else 0)).

Definition potential (d : nat) (U visited : gset ptr) (q : list ptr) : nat :=
  sum_list_with (entry_weight d U visited) q.

End Cond.

(** ** The intermediate representation

    Values are told apart by what they are (the [dyn_cast] the code makes)
    and identified by their address; a formal argument is the [i]-th element of
    its function's argument array. *)

Inductive Ty :=
| IntTy (bits : N)
| PointerTy (pointee : Ty)
| VoidTy
| OtherTy (tag : N).

Inductive Value :=
| Inst (p : ptr)
| Arg (f : ptr) (i : nat)
| Global (p : ptr)
| Func (p : ptr)
| Block (p : ptr)
| ConstantInt (bits : N) (v : Z)
| ConstantPointerNull (t : Ty).

Inductive Instr :=
| PHI (t : Ty) (incoming : list (Value * ptr))
| Call (callee : ptr) (args : list Value) (KernelCall : bool)
| Load (pointer : Value)
| Store (value pointer : Value)
| PtrToInt (v : Value)
| IntToPtr (v : Value) (t : Ty)
| ICmpEQ (a b : Value)
| Select (c a b : Value)
| Br (dest : ptr)
| CondBr (c : Value) (ifTrue ifFalse : ptr)
| Switch (v : Value) (default : ptr) (cases : list (Value * ptr))
| Ret (v : option Value)
| Other (operands : list Value).

(** A block: the function it is in, and its instructions with their addresses. *)
Record BasicBlock := {
  parent : ptr;
  insts : list (ptr * Instr);
}.

#[export] Instance Ty_eq_dec : EqDecision Ty.
Proof. solve_decision. Defined.

#[export] Instance Value_eq_dec : EqDecision Value.
Proof. solve_decision. Defined.

Fixpoint Ty_encode (t : Ty) : list N :=
  match t with
  | IntTy b => [0%N; b]
  | PointerTy t => 1%N :: Ty_encode t
  | VoidTy => [2%N]
  | OtherTy n => [3%N; n]
  end.

Fixpoint Ty_decode (l : list N) : option Ty :=
  match l with
  | [0%N; b] => Some (IntTy b)
  | 1%N :: l => PointerTy <$> Ty_decode l
  | [2%N] => Some VoidTy
  | [3%N; n] => Some (OtherTy n)
  | _ => None
  end.

Definition Value_encode (v : Value) : Z + (Z * nat) + Z + Z + Z + (N * Z) + list N :=
  match v with
  | Inst p => inl (inl (inl (inl (inl (inl p)))))
  | Arg f i => inl (inl (inl (inl (inl (inr (f, i))))))
  | Global p => inl (inl (inl (inl (inr p))))
  | Func p => inl (inl (inl (inr p)))
  | Block p => inl (inl (inr p))
  | ConstantInt b v => inl (inr (b, v))
  | ConstantPointerNull t => inr (Ty_encode t)
  end.

Definition Value_decode (e : Z + (Z * nat) + Z + Z + Z + (N * Z) + list N) : option Value :=
  match e with
  | inl (inl (inl (inl (inl (inl p))))) => Some (Inst p)
  | inl (inl (inl (inl (inl (inr (f, i)))))) => Some (Arg f i)
  | inl (inl (inl (inl (inr p)))) => Some (Global p)
  | inl (inl (inl (inr p))) => Some (Func p)
  | inl (inl (inr p)) => Some (Block p)
  | inl (inr (b, v)) => Some (ConstantInt b v)
  | inr l => ConstantPointerNull <$> Ty_decode l
  end.

#[export] Instance Value_countable : Countable Value :=
  inj_countable Value_encode Value_decode
    ltac:(assert (HT : ∀ t, Ty_decode (Ty_encode t) = Some t)
            by (induction t as [b|t IH| |n]; simpl; try reflexivity; by rewrite IH);
          intros [p|f i|p|p|p|b v|t]; simpl; try reflexivity; by rewrite HT).

(** ** [Kernel::BuildKernel] *)

Module Build.

(** What the parent reads of an already built kernel. *)
Record NestedKernel := {
  nEntrances : gset ptr;
  nKernelFunction : ptr;
  nArgs : nat;                       (* number of formal arguments *)
  nExitTarget : gmap Z ptr;
  nExitMap : gmap ptr Z;
}.

(** What does not change while the kernel is built. *)
Record context := {
  GetBlockID : ptr → Z;
  KernelMap : gmap Z NestedKernel;
  KernelFunction : ptr;
  Init : ptr;
  Exit : ptr;
  Exception : ptr;
}.

Record build := {
  next : ptr;                        (* the next address the allocator hands out *)
  heap : gmap ptr BasicBlock;
  kfBlocks : list ptr;               (* the blocks of KernelFunction, in order *)
  VMap : gmap Value Value;
  Body : gset ptr;
  Termination : gset ptr;
  Conditional : gset ptr;
  ExitMap : gmap ptr Z;
  handeledExits : gset ptr;
}.

(** [BasicBlock::Create(ctx, name, KernelFunction)] followed by the
    instructions an [IRBuilder] appends to it. *)
Definition create_block (cx : context) (code : list Instr) (st : build) : ptr * build :=
  let b := next st in
  let addrs := (fun i : nat => b + 1 + Z.of_nat i) <$> seq 0 (length code) in
  (b, {| next := b + 1 + Z.of_nat (length code);
         heap := <[b := {| parent := KernelFunction cx; insts := zip addrs code |}]> (heap st);
         kfBlocks := kfBlocks st ++ [b];
         VMap := VMap st; Body := Body st; Termination := Termination st;
         Conditional := Conditional st; ExitMap := ExitMap st;
         handeledExits := handeledExits st |}).

(** The arguments of the call to the nested kernel for entrance number [i]. *)
Definition inargs (nested : NestedKernel) (i : Z) : list Value :=
  (fun ai : nat => if decide (ai = 0%nat) then ConstantInt 8 i
                   else Arg (nKernelFunction nested) ai) <$> seq 0 (nArgs nested).

(** The blocks of the nested kernel whose exit id is [id]. *)
Definition nExits (nested : NestedKernel) (id : Z) : gset ptr :=
  list_to_set (omap (fun k : ptr * Z => if decide (k.2 = id) then Some k.1 else None)
                 (map_iter (nExitMap nested))).

(** The body of [for (auto pair : nestedKernel->ExitTarget)]; [cases] are the
    cases added to the switch so far. *)
Definition exit_case (cx : context) (blocks : gset ptr) (nested : NestedKernel)
    (acc : list (Value * ptr) * build) (pair : Z * ptr)
    : result (list (Value * ptr) * build) :=
  let '(cases, st) := acc in
  if decide (pair.2 ∈ blocks) then Ok (cases ++ [(ConstantInt 8 pair.1, pair.2)], st)
  else if decide (pair.2 ∈ handeledExits st) then Ok (cases, st)
  else
    let ex := nExits nested pair.1 in
    if decide (size ex = 1%nat) then
      let tar := default 0 (head (set_iter ex)) in
      let '(newBlock, st1) := create_block cx [Br (Exit cx)] st in
      let index := default 0 (ExitMap st1 !! tar) in
      Ok (cases ++ [(ConstantInt 8 pair.1, newBlock)],
          {| next := next st1; heap := heap st1; kfBlocks := kfBlocks st1;
             VMap := VMap st1; Body := Body st1; Termination := Termination st1;
             Conditional := Conditional st1;
             ExitMap := <[newBlock := index]> (delete tar (ExitMap st1));
             handeledExits := {[pair.2]} ∪ handeledExits st1 |})
    else Throw (TikError "Expected exactly one exit fron nested kernel").

(** The body of [for (auto ent : nestedKernel->Entrances)], entrance number [i]. *)
Definition nested_entrance (cx : context) (blocks : gset ptr) (nested : NestedKernel)
    (block : ptr) (acc : Z * build) (ent : ptr) : result (Z * build) :=
  let '(i, st) := acc in
  (* the intermediate block is created first, its instructions are filled in
     as the switch cases become known *)
  let '(intermediateBlock, st0) := create_block cx [] st in
  let cc := intermediateBlock + 1 in
  r ← foldM (exit_case cx blocks nested) (map_iter (nExitTarget nested))
        ([], {| next := next st0 + 2; heap := heap st0; kfBlocks := kfBlocks st0;
                VMap := VMap st0; Body := Body st0; Termination := Termination st0;
                Conditional := Conditional st0; ExitMap := ExitMap st0;
                handeledExits := handeledExits st0 |});
  let '(cases, st1) := r in
  let code := [(cc, Call (nKernelFunction nested) (inargs nested i) true);
               (cc + 1, Switch (Inst cc) (Exception cx) cases)] in
  let heap2 := <[intermediateBlock := {| parent := KernelFunction cx; insts := code |}]>
                 (heap st1) in
  let vmap2 := <[Block block := Block intermediateBlock]> (VMap st1) in
  if decide (block ∈ Body st1) then
    Ok (i + 1,
        {| next := next st1; heap := heap2; kfBlocks := kfBlocks st1; VMap := vmap2;
           Body := ({[intermediateBlock]} ∪ Body st1) ∖ {[intermediateBlock]};
           Termination := Termination st1; Conditional := Conditional st1;
           ExitMap := ExitMap st1; handeledExits := handeledExits st1 |})
  else if decide (block ∈ Termination st1) then
    Ok (i + 1,
        {| next := next st1; heap := heap2; kfBlocks := kfBlocks st1; VMap := vmap2;
           Body := Body st1;
           Termination := ({[intermediateBlock]} ∪ Termination st1) ∖ {[intermediateBlock]};
           Conditional := Conditional st1;
           ExitMap := ExitMap st1; handeledExits := handeledExits st1 |})
  else Throw (TikError "Tik Error: Block not assigned to Body or Terminus").

(** [CloneBasicBlock(block, VMap, name, KernelFunction)]: the copy holds a
    copy of every instruction, operands untouched, and [VMap] takes each
    original instruction to its copy. *)
Definition CloneBasicBlock (cx : context) (block : ptr) (st : build) : ptr * build :=
  let old := default [] (insts <$> heap st !! block) in
  let '(cb, st1) := create_block cx (snd <$> old) st in
  let copies := default [] (insts <$> heap st1 !! cb) in
  (cb, {| next := next st1; heap := heap st1; kfBlocks := kfBlocks st1;
          VMap := fold_left (fun (m : gmap Value Value) (oc : (ptr * Instr) * (ptr * Instr)) =>
                               <[Inst (oc.1).1 := Inst (oc.2).1]> m)
                    (zip old copies) (VMap st1);
          Body := Body st1; Termination := Termination st1;
          Conditional := Conditional st1; ExitMap := ExitMap st1;
          handeledExits := handeledExits st1 |}).

(** The phi fix-up: in the leading phis of the clone every incoming block
    outside the region becomes [Init]. *)
Fixpoint fix_phis (cx : context) (blocks : gset ptr) (code : list (ptr * Instr))
    : list (ptr * Instr) :=
  match code with
  | (a, PHI t incoming) :: code =>
    (a, PHI t ((fun vp : Value * ptr =>
                  if decide (vp.2 ∈ blocks) then vp else (vp.1, Init cx)) <$> incoming))
      :: fix_phis cx blocks code
  | code => code
  end.

(** The last branch of the loop: [block] belongs to no nested kernel. *)
Definition clone_block (cx : context) (blocks : gset ptr) (block : ptr) (st : build)
    : result build :=
  let '(cb, st1) := CloneBasicBlock cx block st in
  let vmap := <[Block block := Block cb]> (VMap st1) in
  let cond := if decide (block ∈ Conditional st1)
              then {[cb]} ∪ (Conditional st1 ∖ {[block]}) else Conditional st1 in
  let heap2 := alter (fun b => {| parent := parent b;
                                  insts := fix_phis cx blocks (insts b) |}) cb (heap st1) in
  if decide (block ∈ Body st1) then
    Ok {| next := next st1; heap := heap2; kfBlocks := kfBlocks st1; VMap := vmap;
          Body := {[cb]} ∪ (Body st1 ∖ {[block]}); Termination := Termination st1;
          Conditional := cond; ExitMap := ExitMap st1;
          handeledExits := handeledExits st1 |}
  else if decide (block ∈ Termination st1) then
    Ok {| next := next st1; heap := heap2; kfBlocks := kfBlocks st1; VMap := vmap;
          Body := Body st1; Termination := {[cb]} ∪ (Termination st1 ∖ {[block]});
          Conditional := cond; ExitMap := ExitMap st1;
          handeledExits := handeledExits st1 |}
  else Throw (TikError "Tik Error: block not in Body or Termination").

(** The body of [for (auto block : blocks)]. *)
Definition build_block (cx : context) (blocks : gset ptr) (st : build) (block : ptr)
    : result build :=
  match KernelMap cx !! GetBlockID cx block with
  | Some nestedKernel =>
    if decide (block ∈ nEntrances nestedKernel) then
      r ← foldM (nested_entrance cx blocks nestedKernel block)
            (set_iter (nEntrances nestedKernel)) (0, st);
      Ok r.2
    else Ok st
  | None => clone_block cx blocks block st
  end.

Definition BuildKernel (cx : context) (blocks : gset ptr) (st : build) : result build :=
  foldM (build_block cx blocks) (set_iter blocks)
    {| next := next st; heap := heap st; kfBlocks := kfBlocks st; VMap := VMap st;
       Body := Body st; Termination := Termination st; Conditional := Conditional st;
       ExitMap := ExitMap st; handeledExits := ∅ |}.

(** The block [VMap] takes [b] to. *)
Definition image (st : build) (b : ptr) : option ptr :=
  match VMap st !! Block b with
  | Some (Block c) => Some c
  | _ => None
  end.

(** The placement the specification asks of the intermediate block of
    entrance [b]: it sits where [b] sat before the build. *)
Definition placed_like (before after : build) (b : ptr) : Prop :=
  ∃ ib, image after b = Some ib ∧
    (b ∈ Body before → ib ∈ Body after) ∧
    (b ∈ Termination before → ib ∈ Termination after).

End Build.

(** ** [Kernel::InlineFunctions]: the entrance block of a callee *)

Module Inline.

(** A user of a function, as the [dyn_cast]s of the loop over
    [calledFunc->users()] tell them apart. *)
Inductive User :=
| CallUse (callUse : ptr)
| StoreUse
| OtherUse.

(** What the inliner asks of the instructions and functions it meets. *)
Record facade := {
  users : ptr → list User;               (* [f->users()], in use-list order *)
  inTikModule : ptr → bool;              (* [i->getModule() == TikModule] *)
  getParent : ptr → ptr;                 (* the block of an instruction *)
  getOperand : ptr → nat → Value;        (* [i->getOperand(n)] *)
  formals : ptr → list Ty;               (* the types of [f]'s formal arguments *)
  entry : ptr → ptr;                     (* [f->begin()] *)
}.

(** Modelled from the spec: [tik/InlineStruct.h] is not among the sources; the
    branch phi is indexed by call site, so a fresh record counts from 0. *)
Record InlineStruct := {
  CalledFunction : option ptr;
  entranceBlock : ptr;
  branchPhi : ptr;
  phiIndex : Z;
  ArgNodes : list ptr;
}.

(** The body of [for (auto user : calledFunc->users())]; the accumulator is
    [(funcUses, callUses)]. *)
Definition collect_use (ir : facade) (acc : list ptr * list ptr) (user : User)
    : result (list ptr * list ptr) :=
  match user with
  | CallUse callUse =>
    if inTikModule ir callUse
    then Ok (acc.1 ++ [getParent ir callUse], acc.2 ++ [callUse])
    else Ok acc
  | StoreUse => Ok acc
  | OtherUse => Throw (TikError "Tik Error: Only expected callInst")
  end.

(** The incoming list of the phi of formal argument number [argIndex], while
    the call [ci] is being inlined. *)
Definition arg_incoming (ir : facade) (ci : ptr) (funcUses : list ptr) (argIndex : nat)
    : list (Value * ptr) :=
  (fun pre => (getOperand ir ci argIndex, pre)) <$> funcUses.

Record entrance := {
  code : list (ptr * Instr);             (* the entrance block, top to bottom *)
  info : InlineStruct;
  VMap : gmap Value Value;
  Body : gset ptr;
  funcUses : list ptr;
  callUses : list ptr;
}.

(** The first half of the branch taken when [calledFunc] was not inlined
    before: the entrance block, allocated at [fresh], with the branch phi, one
    phi per formal argument and the jump into the callee. *)
Definition entrance_block (ir : facade) (fresh : ptr) (ci calledFunc : ptr)
    (vmap : gmap Value Value) (body : gset ptr) : result entrance :=
  uses ← foldM (collect_use ir) (users ir calledFunc) ([], []);
  let '(fUses, cUses) := uses in
  let phi := fresh + 1 in
  let branch := PHI (IntTy 8)
                  (imap (fun (n : nat) pre => (ConstantInt 8 (0 + Z.of_nat n), pre)) fUses) in
  let argPhis := imap (fun (argIndex : nat) (t : Ty) =>
                         (phi + 1 + Z.of_nat argIndex,
                          PHI t (arg_incoming ir ci fUses argIndex)))
                   (formals ir calledFunc) in
  let nargs := length (formals ir calledFunc) in
  Ok {| code := (phi, branch) :: argPhis
                  ++ [(phi + 1 + Z.of_nat nargs, Br (entry ir calledFunc))];
        info := {| CalledFunction := Some calledFunc; entranceBlock := fresh;
                   branchPhi := phi; phiIndex := 0 + Z.of_nat (length fUses);
                   ArgNodes := fst <$> argPhis |};
        VMap := fold_left (fun (m : gmap Value Value) (ap : nat * (ptr * Instr)) =>
                             <[Arg calledFunc ap.1 := Inst (ap.2).1]> m)
                  (zip (seq 0 nargs) argPhis) vmap;
        Body := {[fresh]} ∪ body;
        funcUses := fUses; callUses := cUses |}.

(** The phi the entrance block holds for formal argument [argIndex]. *)
Definition arg_phi (e : entrance) (argIndex : nat) : option Instr :=
  snd <$> (code e !! S argIndex).

(** What the specification asks of that phi: for each call site, in order,
    the value that call site passes, paired with the call site's block. *)
Definition own_actuals (ir : facade) (e : entrance) (argIndex : nat) : list (Value * ptr) :=
  (fun callUse => (getOperand ir callUse argIndex, getParent ir callUse)) <$> callUses e.

End Inline.

(** ** [Kernel::GetExternalValues] and the signature of [KernelFunction] *)

Module Sig.

(** [i->getOperand(0 .. getNumOperands() - 1)]. *)
Definition operands (i : Instr) : list Value :=
  match i with
  | PHI _ incoming => fst <$> incoming
  | Call callee args _ => args ++ [Func callee]
  | Load p => [p]
  | Store v p => [v; p]
  | PtrToInt v => [v]
  | IntToPtr v _ => [v]
  | ICmpEQ a b => [a; b]
  | Select c a b => [c; a; b]
  | Br dest => [Block dest]
  | CondBr c t f => [c; Block f; Block t]
  | Switch v d cases => v :: Block d :: (cases ≫= fun c => [c.1; Block c.2])
  | Ret v => option_list v
  | Other ops => ops
  end.

Record facade := {
  blockInsts : ptr → list Instr;         (* the instructions of a block, in order *)
  instParent : ptr → ptr;                (* the block of an instruction *)
  KfMap : gmap ptr (list Value);         (* kernel function ↦ ExternalValues of its kernel *)
  getType : Value → Ty;
}.

(** [if (find(begin, end, v) == end) push_back(v)] *)
Definition push_new (l : list Value) (v : Value) : list Value :=
  if decide (v ∈ l) then l else l ++ [v].

(** The body of the loop over the operands of [inst]; [vmap] is read with
    [VMap[sExtVal]], a missing key reading as null. *)
Definition external_operand (ir : facade) (blocks : gset ptr) (vmap : gmap Value Value)
    (inst : Instr) (ev : list Value) (op : Value) : list Value :=
  match op with
  | Inst operand =>
    if decide (instParent ir operand ∈ blocks) then ev else push_new ev op
  | Arg _ _ =>
    match inst with
    | Call callee _ _ =>
      match KfMap ir !! callee with
      | Some subExternalValues =>
        fold_left (fun ev sExtVal =>
                     match vmap !! sExtVal with
                     | Some _ => ev
                     | None => push_new ev sExtVal
                     end) subExternalValues ev
      | None => ev
      end
    | _ => push_new ev op
    end
  | _ => ev
  end.

Definition GetExternalValues (ir : facade) (blocks : gset ptr) (vmap : gmap Value Value)
    (ExternalValues : list Value) : list Value :=
  fold_left (fun ev bb =>
               fold_left (fun ev inst =>
                            fold_left (external_operand ir blocks vmap inst) (operands inst) ev)
                 (blockInsts ir bb) ev)
    (set_iter blocks) ExternalValues.

Record FunctionType := {
  returnType : Ty;
  paramTypes : list Ty;
}.

Record kernel := {
  ExternalValues : list Value;
  KernelFunction : ptr;
  funcType : FunctionType;               (* the type [KernelFunction] was created with *)
  VMap : gmap Value Value;
  ArgumentMap : gmap Value Value;
}.

(** [inputArgs], as the first loop fills it. *)
Definition inputArgs (ir : facade) (ev : list Value) : list Ty :=
  fold_left (fun args inst => args ++ [getType ir inst]) ev [IntTy 8].

(** The body of [for (int i = 0; i < ExternalValues.size(); i++)]. *)
Definition bind_argument (kf : ptr) (ev : list Value)
    (maps : gmap Value Value * gmap Value Value) (i : nat)
    : gmap Value Value * gmap Value Value :=
  match ev !! i with
  | Some e =>
    let a := Arg kf (1 + i) in
    (<[e := a]> maps.1, <[a := e]> maps.2)
  | None => maps
  end.

(** The constructor between [GetExternalValues(blocks)] and the creation of
    the artificial blocks; [kf] is the address [Function::Create] returns. *)
Definition create_kernel_function (ir : facade) (blocks : gset ptr) (kf : ptr)
    (vmap amap : gmap Value Value) : kernel :=
  let ev := GetExternalValues ir blocks vmap [] in
  let maps := fold_left (bind_argument kf ev) (seq 0 (length ev)) (vmap, amap) in
  {| ExternalValues := ev; KernelFunction := kf;
     funcType := {| returnType := IntTy 8; paramTypes := inputArgs ir ev |};
     VMap := maps.1; ArgumentMap := maps.2 |}.

Section built.

(** What the phases that follow the creation of [KernelFunction], from
    [BuildKernel] to [ApplyMetadata], leave in [VMap], or the exception they
    throw.  These phases assign [VMap] ([BuildKernel], [InlineFunctions],
    [CopyGlobals], [GetMemoryFunctions]); none of them assigns
    [ExternalValues] or an entry of [ArgumentMap] that is there, and the type
    of a function is fixed when it is created. *)
Variable later : kernel → result (gmap Value Value).

(** The constructor from [GetExternalValues] to [Valid = true]. *)
Definition build (ir : facade) (blocks : gset ptr) (kf : ptr)
    (vmap amap : gmap Value Value) : result kernel :=
  let K := create_kernel_function ir blocks kf vmap amap in
  vm ← later K;
  Ok {| ExternalValues := ExternalValues K; KernelFunction := KernelFunction K;
        funcType := funcType K; VMap := vm; ArgumentMap := ArgumentMap K |}.


End built.

End Sig.

(** ** [Kernel::GetMemoryFunctions]: the two selector functions

    The part of the function up to the two [CreateRet]s; the rewriting of the
    kernel's loads and stores that follows it is not modelled. *)

Module Mem.

(** A [std::set<Value *>] is iterated by address; [addr] gives the address of
    a value. *)
Definition addr_le (addr : Value → Z) (a b : Value) : Prop := addr a ≤ addr b.

#[export] Instance addr_le_dec addr a b : Decision (addr_le addr a b).
Proof. unfold addr_le. apply _. Defined.

Definition value_iter (addr : Value → Z) (s : gset Value) : list Value :=
  merge_sort (addr_le addr) (elements s).

(** The pointer operands of the loads and of the stores of the kernel
    function, whose blocks are given with their instructions. *)
Definition loadValues (kf : list (list (ptr * Instr))) : gset Value :=
  list_to_set (omap (fun ai : ptr * Instr =>
                       match ai.2 with Load p => Some p | _ => None end) (concat kf)).

Definition storeValues (kf : list (list (ptr * Instr))) : gset Value :=
  list_to_set (omap (fun ai : ptr * Instr =>
                       match ai.2 with
                       | Load _ => None
                       | Store _ p => Some p
                       | _ => None
                       end) (concat kf)).

(** The members the function writes, the allocator and the log. *)
Record kernel := {
  next : ptr;
  GlobalMap : gmap Value ptr;
  VMap : gmap Value Value;
  LoadMap : gmap Z ptr;
  StoreMap : gmap Z ptr;
  log : list string;
}.

(** The state of one of the two loops: the counter [i], the entry block built
    so far, [priorValue] and the local [loadMap] or [storeMap]. *)
Record chain := {
  i : Z;
  code : list (ptr * Instr);
  priorValue : option Value;
  indexMap : gmap Value Value;
  k : kernel;
}.

(** [if (GlobalMap.find(v) == GlobalMap.end()) GlobalMap[v] = new GlobalVariable(...)] *)
Definition promote (v : Value) (st : kernel) : kernel :=
  match GlobalMap st !! v with
  | Some _ => st
  | None => {| next := next st + 1; GlobalMap := <[v := next st]> (GlobalMap st);
               VMap := VMap st; LoadMap := LoadMap st; StoreMap := StoreMap st;
               log := log st |}
  end.

(** The instructions one pointer adds to the entry block of helper [fn]:
    load of the global, conversion, and from the second pointer on the
    comparison with the index and the select.  [a] is the first free address. *)
Definition select_link (fn : ptr) (g : ptr) (index : Z) (prior : option Value) (a : ptr)
    : list (ptr * Instr) * Value :=
  let b := (a, Load (Global g)) in
  let converted := (a + 1, PtrToInt (Inst a)) in
  match prior with
  | None => ([b; converted], Inst (a + 1))
  | Some p =>
    let cmpInst := (a + 2, ICmpEQ (Arg fn 0) (ConstantInt 64 index)) in
    let sInst := (a + 3, Select (Inst (a + 2)) (Inst (a + 1)) p) in
    ([b; converted; cmpInst; sInst], Inst (a + 3))
  end.

(** The body of [for (Value *lVal : loadValues)]. *)
Definition read_link (MemoryRead : ptr) (st : chain) (lVal : Value) : chain :=
  let k1 := promote lVal (k st) in
  let g := default 0 (GlobalMap k1 !! lVal) in
  let '(new, prior) := select_link MemoryRead g (i st) (priorValue st) (next k1) in
  {| i := i st + 1; code := code st ++ new; priorValue := Some prior;
     indexMap := <[lVal := ConstantInt 64 (i st)]> (indexMap st);
     k := {| next := next k1 + Z.of_nat (length new); GlobalMap := GlobalMap k1;
             VMap := <[lVal := Global g]> (VMap k1);
             LoadMap := <[i st := g]> (LoadMap k1); StoreMap := StoreMap k1;
             log := log k1 |} |}.

(** The body of [for (Value *sVal : storeValues)]. *)
Definition write_link (MemoryWrite : ptr) (st : chain) (sVal : Value) : chain :=
  let k1 := promote sVal (k st) in
  match GlobalMap k1 !! sVal with
  | None => st
  | Some g =>
    let '(new, prior) := select_link MemoryWrite g (i st) (priorValue st) (next k1) in
    {| i := i st + 1; code := code st ++ new; priorValue := Some prior;
       indexMap := <[sVal := ConstantInt 64 (i st)]> (indexMap st);
       k := {| next := next k1 + Z.of_nat (length new); GlobalMap := GlobalMap k1;
               VMap := VMap k1;
               LoadMap := LoadMap k1; StoreMap := <[i st := g]> (StoreMap k1);
               log := log k1 |} |}
  end.

(** The [CreateRet] that closes the entry block, with the warning when the
    chain is empty. *)
Definition close (warning : string) (st : chain) : chain :=
  match priorValue st with
  | None =>
    {| i := i st; code := code st ++ [(next (k st), Ret (Some (ConstantInt 64 0)))];
       priorValue := None; indexMap := indexMap st;
       k := {| next := next (k st) + 1; GlobalMap := GlobalMap (k st); VMap := VMap (k st);
               LoadMap := LoadMap (k st); StoreMap := StoreMap (k st);
               log := log (k st) ++ [warning] |} |}
  | Some p =>
    {| i := i st; code := code st ++ [(next (k st), Ret (Some p))];
       priorValue := Some p; indexMap := indexMap st;
       k := {| next := next (k st) + 1; GlobalMap := GlobalMap (k st); VMap := VMap (k st);
               LoadMap := LoadMap (k st); StoreMap := StoreMap (k st);
               log := log (k st) |} |}
  end.

(** A synthesized helper: its blocks, each with its instructions. *)
Record helper := {
  fn : ptr;
  blocks : list (list (ptr * Instr));
}.

Record helpers := {
  MemoryRead : helper;
  MemoryWrite : helper;
  loadMap : gmap Value Value;
  storeMap : gmap Value Value;
  after : kernel;
}.

Definition GetMemoryFunctions (addr : Value → Z) (kf : list (list (ptr * Instr)))
    (st : kernel) : helpers :=
  let read := next st in
  let write := next st + 1 in
  let st0 := {| next := next st + 2; GlobalMap := GlobalMap st; VMap := VMap st;
                LoadMap := LoadMap st; StoreMap := StoreMap st; log := log st |} in
  let r := close "Empty kernel read encountered"
             (fold_left (read_link read) (value_iter addr (loadValues kf))
                {| i := 0; code := []; priorValue := None; indexMap := ∅; k := st0 |}) in
  let w := close "Empty kernel write encountered"
             (fold_left (write_link write) (value_iter addr (storeValues kf))
                {| i := 0; code := []; priorValue := None; indexMap := ∅; k := k r |}) in
  {| MemoryRead := {| fn := read; blocks := [code r] |};
     MemoryWrite := {| fn := write; blocks := [code w] |};
     loadMap := indexMap r; storeMap := indexMap w; after := k w |}.

(** *** Running a helper

    [mem g] is the address the global [g] holds, [arg] the helper's argument;
    values of type [i64] are integers below [2^64]. *)

Definition i64 (z : Z) : Z := z mod 2 ^ 64.

Definition value_of (f : ptr) (arg : Z) (env : gmap ptr Z) (v : Value) : option Z :=
  match v with
  | Inst a => env !! a
  | Arg f' O => if decide (f' = f) then Some arg else None
  | ConstantInt bits c => Some (c mod 2 ^ Z.of_N bits)
  | _ => None
  end.

Fixpoint run (f : ptr) (mem : ptr → Z) (arg : Z) (env : gmap ptr Z)
    (code : list (ptr * Instr)) : option Z :=
  match code with
  | [] => None
  | (a, inst) :: code =>
    match inst with
    | Ret (Some v) => value_of f arg env v
    | Load (Global g) => run f mem arg (<[a := mem g]> env) code
    | PtrToInt v =>
      x ← value_of f arg env v; run f mem arg (<[a := i64 x]> env) code
    | ICmpEQ x y =>
      x ← value_of f arg env x; y ← value_of f arg env y;
      run f mem arg (<[a := if decide (x = y) then 1 else 0]> env) code
    | Select c x y =>
      c ← value_of f arg env c; x ← value_of f arg env x; y ← value_of f arg env y;
      run f mem arg (<[a := if decide (c = 0) then y else x]> env) code
    | _ => None
    end
  end.

(** A call of the helper with [arg]: it has one block. *)
Definition call (h : helper) (mem : ptr → Z) (arg : Z) : option Z :=
  match blocks h with
  | [entry] => run (fn h) mem arg ∅ entry
  | _ => None
  end.

(** No instruction of the kernel function is a load, respectively a store. *)
Definition no_loads (kf : list (list (ptr * Instr))) : Prop :=
  ∀ ai p, ai ∈ concat kf → ai.2 ≠ Load p.

Definition no_stores (kf : list (list (ptr * Instr))) : Prop :=
  ∀ ai v p, ai ∈ concat kf → ai.2 ≠ Store v p.

(** The helper is one block that returns the [i64] constant 0. *)
Definition returns_zero (h : helper) : Prop :=
  ∃ a, blocks h = [[(a, Ret (Some (ConstantInt 64 0)))]].

(** [arg] is none of the index constants 1 .. n-1 the chain compares it with. *)
Definition unassigned (n : nat) (arg : Z) : Prop :=
  ∀ j, 1 ≤ j < Z.of_nat n → arg ≠ i64 j.

(** What holds of a chain under construction when [arg] is unassigned:
    running the entry block so far leaves the environment [env], and
    [priorValue] holds the converted pointer of index 0 of [table]. *)
Definition chain_inv (f : ptr) (mem : ptr → Z) (arg : Z) (table : kernel → gmap Z ptr)
    (st : chain) : Prop :=
  ∃ env,
    (∀ rest, run f mem arg ∅ (code st ++ rest) = run f mem arg env rest) ∧
    (∀ b, is_Some (env !! b) → b < next (k st)) ∧
    0 ≤ i st ∧
    match priorValue st with
    | None => i st = 0
    | Some pv => 0 < i st ∧ ∃ p g0, pv = Inst p ∧ table (k st) !! 0 = Some g0 ∧
                                    env !! p = Some (i64 (mem g0))
    end.

End Mem.

(** ** The constructor [Kernel::Kernel] *)

Module Ctor.

Inductive entry :=
| error (what : string)
| warn (what : string).

(** The state of the run the constructor works on: the two file-level
    variables, what is attached to [TikModule], and the log. *)
Record run := {
  KernelUID : Z;
  reservedNames : gset string;
  TikModule : gset ptr;
  log : list entry;
}.

(** The members [Cleanup] reads. *)
Record members := {
  KernelFunction : option ptr;
  MemoryRead : option ptr;
  MemoryWrite : option ptr;
  GlobalMap : gmap Value ptr;
}.

(** Modelled from the spec: [tik/Kernel.h] is not among the sources; [Valid]
    is false and [KernelFunction] null until the constructor sets them. *)
Record Kernel := {
  Valid : bool;
  built : members;
}.

Definition fresh_members : members :=
  {| KernelFunction := None; MemoryRead := None; MemoryWrite := None; GlobalMap := ∅ |}.

(** How a call of the constructor ends: with the object constructed, or with
    an exception leaving the constructor. *)
Inductive outcome :=
| Constructed (k : Kernel) (r : run)
| Escaped (e : TikException) (r : run).

Definition is_digit (c : Ascii.ascii) : bool :=
  (48 <=? Ascii.nat_of_ascii c)%nat && (Ascii.nat_of_ascii c <=? 57)%nat.

(** The local [Name] and the counter after it was chosen. *)
Definition choose_name (name : string) (uid : Z) : string * Z :=
  match name with
  | EmptyString => ("Kernel_" +:+ pretty uid, uid + 1)
  | String front _ => if is_digit front then ("K" +:+ name, uid) else (name, uid)
  end.

(** [f->removeFromParent()] for a member that is not null. *)
Definition detach (f : option ptr) (m : gset ptr) : gset ptr :=
  match f with
  | Some p => m ∖ {[p]}
  | None => m
  end.

Definition Cleanup (k : members) (r : run) : run :=
  let m1 := detach (KernelFunction k) (TikModule r) in
  let m2 := detach (MemoryRead k) m1 in
  let m3 := detach (MemoryWrite k) m2 in
  let m4 := fold_left (fun m g => m ∖ {[g.2]}) (map_to_list (GlobalMap k)) m3 in
  {| KernelUID := KernelUID r; reservedNames := reservedNames r;
     TikModule := m4; log := log r |}.

(** The local [Name], and the run as it is when the [try] block is entered
    (provided the name was free). *)
Definition entering (name : string) (r : run) : string * run :=
  let '(Name, uid) := choose_name name (KernelUID r) in
  (Name, {| KernelUID := uid; reservedNames := {[Name]} ∪ reservedNames r;
            TikModule := TikModule r; log := log r |}).

Section constructor.

(** The statements of the first [try] block before [Valid = true]: from the
    recursion check to [ApplyMetadata], run on the fresh members.  They end
    normally or throw, and in both cases leave members and run as they were
    at that point. *)
Variable phases : string → members → run → members * run * option TikException.

Definition construct (name : string) (r : run) : outcome :=
  let '(Name, uid) := choose_name name (KernelUID r) in
  let r0 := {| KernelUID := uid; reservedNames := reservedNames r;
               TikModule := TikModule r; log := log r |} in
  if decide (Name ∈ reservedNames r0)
  then Escaped (TikError "Kernel Error: Kernel names must be unique!") r0
  else
    let r1 := {| KernelUID := uid; reservedNames := {[Name]} ∪ reservedNames r0;
                 TikModule := TikModule r0; log := log r0 |} in
    match phases Name fresh_members r1 with
    | (m, r2, None) => Constructed {| Valid := true; built := m |} r2
    | (m, r2, Some (TikError what)) =>
      let r3 := {| KernelUID := KernelUID r2; reservedNames := reservedNames r2;
                   TikModule := TikModule r2; log := log r2 ++ [error what] |} in
      Constructed {| Valid := false; built := m |} (Cleanup m r3)
    end.

(** What the specification says a failed construction looks like from
    outside: the constructor returns, the kernel is invalid, the reason is
    in the log. *)
Definition caught (name : string) (r : run) : Prop :=
  ∃ k r' what, construct name r = Constructed k r' ∧ Valid k = false ∧ error what ∈ log r'.

End constructor.

End Ctor.

(** ** [KernelHasher]'s [main], and the block selection of [Kernel::Kernel] *)

Module Hasher.

(** A module: its functions, each the list of the addresses of its blocks. *)
Definition blocks_of (M : list (list ptr)) : list ptr := concat M.

(** The two nested loops that fill [blockMap], [uid] being the static [UID]. *)
Definition index_blocks (M : list (list ptr)) (uid : Z) : gmap Z ptr * Z :=
  fold_left (fun acc F =>
               fold_left (fun (acc : gmap Z ptr * Z) b => (<[acc.2 := b]> acc.1, acc.2 + 1))
                 F acc)
    M (∅, uid).

(** [std::sort(first, last)] on the range of positions [first .. last - 1]. *)
Definition sort_range {A} (le : A → A → Prop) `{∀ x y, Decision (le x y)}
    (first last : nat) (l : list A) : list A :=
  take first l ++ merge_sort le (take (last - first) (drop first l)) ++ drop last l.

Definition string_le (a b : string) : Prop := String.leb a b = true.

Definition newline : string := String (Ascii.ascii_of_nat 10) EmptyString.

#[export] Instance string_le_dec a b : Decision (string_le a b).
Proof. unfold string_le. apply _. Defined.

(** The blocks the ids name, in the order the loop meets them; [None] when an
    id has no block ([blockMap[block]] is then null and is dereferenced). *)
Definition resolve (blockMap : gmap Z ptr) (ids : list Z) : option (list ptr) :=
  mapM (fun block => blockMap !! block) (merge_sort Z.le ids).

Section main.

(** The text lines 69 to 97 make of a block, with its trailing blank line;
    and [std::hash<std::string>]. *)
Variable blockStr : ptr → string.
Variable hasher : string → Z.

Definition join (blockStrings : list string) : string :=
  fold_left (fun toHash str => toHash +:+ (str +:+ newline)) blockStrings "".

(** The body of [for (auto &[key, value] : j.items())]. *)
Definition hash_kernel (blockMap : gmap Z ptr) (value : list Z) : option Z :=
  bs ← resolve blockMap value;
  let blockStrings := blockStr <$> bs in
  Some (hasher (join (sort_range string_le 0 0 blockStrings))).

Definition main (M : list (list ptr)) (j : list (string * list Z))
    : option (list (string * Z)) :=
  let blockMap := (index_blocks M 0).1 in
  mapM (fun kv : string * list Z =>
          h ← hash_kernel blockMap kv.2; Some (kv.1, h)) j.

End main.




End Hasher.

(** A facade for a module given by its adjacency lists; no block returns. *)
Definition cfg_of (succ : list (ptr * list ptr)) : CFG :=
  {| successors := fun b => default [] ((list_to_map succ : gmap ptr (list ptr)) !! b);
     is_return := fun _ => false;
     block_parent := fun _ => 0;
     user_blocks := fun _ => [] |}.

(** Blocks 1 and 2 form the region; both leave it through block 9. *)
Definition shared_exit_cfg : CFG := cfg_of [(1, [2; 9]); (2, [9])].
Definition shared_exit_blocks : gset ptr := {[1; 2]}.

(** Block 1 ends in a three-way switch: to block 2, which can both come back
    to 1 and leave the region; to block 3, which only comes back; and to block
    9 outside the region, which returns. *)
Definition switch_cfg : CFG := cfg_of [(1, [2; 3; 9]); (2, [1; 8]); (3, [1]); (8, []); (9, [])].
Definition switch_blocks : gset ptr := {[1; 2; 3]}.

(** The parent region holds blocks 10 and 20.  Block 10 is the one block, and
    the entrance, of an already built kernel whose function is at address 50
    and takes the selector alone; that kernel leaves through block 20.  The
    region analyser put 10 into [Body] and 20 into [Termination]. *)
Definition child_kernel : Build.NestedKernel :=
  {| Build.nEntrances := {[10]}; Build.nKernelFunction := 50; Build.nArgs := 1;
     Build.nExitTarget := {[0 := 20]}; Build.nExitMap := {[10 := 0]} |}.

Definition parent_context : Build.context :=
  {| Build.GetBlockID := fun b => b; Build.KernelMap := {[10 := child_kernel]};
     Build.KernelFunction := 100; Build.Init := 101; Build.Exit := 102;
     Build.Exception := 103 |}.

Definition parent_blocks : gset ptr := {[10; 20]}.

Definition parent_before (body termination : gset ptr) : Build.build :=
  {| Build.next := 200;
     Build.heap := {[10 := {| parent := 1; insts := [(11, Br 20)] |};
                     20 := {| parent := 1; insts := [(21, Ret None)] |}]};
     Build.kfBlocks := [101; 102; 103]; Build.VMap := ∅;
     Build.Body := body; Build.Termination := termination; Build.Conditional := ∅;
     Build.ExitMap := {[20 := 0]}; Build.handeledExits := ∅ |}.

(** The function at address 7 takes one [i32] and is called twice from the
    kernel function: by the call at 31 in block 30 with the constant 1, and by
    the call at 41 in block 40 with the constant 2. *)
Definition two_calls : Inline.facade :=
  {| Inline.users := fun f => if decide (f = 7) then [Inline.CallUse 31; Inline.CallUse 41] else [];
     Inline.inTikModule := fun _ => true;
     Inline.getParent := fun i => if decide (i = 31) then 30 else 40;
     Inline.getOperand := fun i n =>
       match n with
       | O => if decide (i = 31) then ConstantInt 32 1 else ConstantInt 32 2
       | _ => Func 7
       end;
     Inline.formals := fun f => if decide (f = 7) then [IntTy 32] else [];
     Inline.entry := fun _ => 70 |}.

(** A kernel function of one block that loads through the values at 61 and
    62 and stores through the value at 63. *)
Definition memory_kernel : list (list (ptr * Instr)) :=
  [[(64, Load (Inst 62)); (65, Load (Inst 61)); (66, Store (Inst 64) (Inst 63));
    (67, Load (Inst 62)); (68, Ret None)]].

Definition address (v : Value) : Z :=
  match v with
  | Inst p | Global p | Func p | Block p => p
  | Arg f n => f + 1 + Z.of_nat n
  | _ => 0
  end.

Definition fresh_kernel : Mem.kernel :=
  {| Mem.next := 500; Mem.GlobalMap := ∅; Mem.VMap := ∅; Mem.LoadMap := ∅;
     Mem.StoreMap := ∅; Mem.log := [] |}.

(** A kernel function that touches no memory. *)
Definition pure_kernel : list (list (ptr * Instr)) :=
  [[(68, Other [Arg 1 0; ConstantInt 32 1]); (69, Ret None)]].

(** A run in which the name [k0] is taken, and phases that create the kernel
    function at 900 and then fail for want of an exit. *)
Definition run_k0 : Ctor.run :=
  {| Ctor.KernelUID := 0; Ctor.reservedNames := {["k0"]}; Ctor.TikModule := ∅;
     Ctor.log := [] |}.

Definition failing_phases (Name : string) (m : Ctor.members) (r : Ctor.run)
    : Ctor.members * Ctor.run * option TikException :=
  ({| Ctor.KernelFunction := Some 900; Ctor.MemoryRead := Ctor.MemoryRead m;
      Ctor.MemoryWrite := Ctor.MemoryWrite m; Ctor.GlobalMap := Ctor.GlobalMap m |},
   {| Ctor.KernelUID := Ctor.KernelUID r; Ctor.reservedNames := Ctor.reservedNames r;
      Ctor.TikModule := {[900]} ∪ Ctor.TikModule r; Ctor.log := Ctor.log r |},
   Some (TikError "Tik Error: tik found no kernel exits")).

(** Block 1 branches to block 5, outside the region {1, 4}, which comes back
    to 1 directly and through block 4; and to block 9, which returns. *)
Definition outside_seed_cfg : CFG := cfg_of [(1, [5; 9]); (5, [1; 4]); (4, [1]); (9, [])].
Definition outside_seed_blocks : gset ptr := {[1; 4]}.

(** A region of one block, whose one instruction (at 40) uses the instruction
    at 50, which sits in block 9 outside the region, and the first argument of
    the function at 2. *)
Definition one_block : Sig.facade :=
  {| Sig.blockInsts := fun b => if decide (b = 1) then [Other [Inst 50; Arg 2 0]] else [];
     Sig.instParent := fun i => if decide (i = 50) then 9 else 1;
     Sig.KfMap := ∅;
     Sig.getType := fun v => match v with
                             | Inst _ => IntTy 32
                             | _ => PointerTy (IntTy 8)
                             end |}.





(** A module of two functions, with blocks 11 and 12, and 13; and [BlockID]s
    that follow the iteration order. *)
Definition small_module : list (list ptr) := [[11; 12]; [13]].

(** ** Notions for the further analysis of [Kernel::GetExits] *)

Module ExitIds.

(** [t] is a target outside the region of some block of the region. *)
Definition outside_target (g : CFG) (blocks : gset ptr) (t : ptr) : Prop :=
  (t ∉ blocks) ∧ ∃ b, b ∈ blocks ∧ t ∈ Exits.exit_targets g b.

(** The state of the exit loops is coherent: ids below [exitId] are the keys
    of [ExitTarget], which is injective, maps into the covered targets outside
    the region, and holds the target of every entry of [ExitMap]. *)
Definition coherent (rel : ptr → ptr → Prop) (blocks : gset ptr) (st : Exits.state) : Prop :=
  0 ≤ Exits.exitId st ∧
  (∀ id, is_Some (Exits.target st !! id) ↔ 0 ≤ id < Exits.exitId st) ∧
  (∀ t, t ∈ Exits.coveredExits st ↔ ∃ id, Exits.target st !! id = Some t) ∧
  (∀ id id' t, Exits.target st !! id = Some t → Exits.target st !! id' = Some t → id = id') ∧
  (∀ id t, Exits.target st !! id = Some t → t ∉ blocks) ∧
  (∀ b id, Exits.emap st !! b = Some id → ∃ t, Exits.target st !! id = Some t ∧ rel b t).

(** What exit analysis makes of the region of [shared_exit_cfg]. *)
Definition shared_exit_result : Region :=
  match Exits.GetExits shared_exit_cfg shared_exit_blocks empty_region with
  | Ok k => k
  | Throw _ => empty_region
  end.

End ExitIds.

(** ** Notions for the further analysis of [Kernel::GetConditional] *)

Module Walks.

(** The body walk with the blocks of [popped] already taken from the queue:
    they are marked when they lie in the region, their successors outside
    the valid conditionals are popped or queued, and so are the seeds and
    everything visited. *)
Definition walk_inv (g : CFG) (blocks valid seeds popped : gset ptr) (st : Cond.walk) : Prop :=
  (∀ x, x ∈ popped → x ∈ blocks → x ∈ Cond.wBody st) ∧
  (∀ x y, x ∈ popped → y ∈ successors g x → (y ∉ valid) →
          y ∈ popped ∨ y ∈ Cond.processing st) ∧
  (∀ r, r ∈ seeds → r ∈ popped ∨ r ∈ Cond.processing st) ∧
  (∀ y, y ∈ Cond.visited st → y ∈ valid ∨ y ∈ popped ∨ y ∈ Cond.processing st).

(** The verdict on a candidate lists every pure-recursing successor. *)
Definition verdict_complete (g : CFG) (blocks : gset ptr) (cond : ptr) (v : Cond.verdict)
    : Prop :=
  ∀ r, Cond.pure_recursing g blocks cond r → r ∈ Cond.recursePaths v.

(** The valid conditionals are the candidates met so far whose verdict has
    both flags, and [recurseDict] holds the recurse paths of their verdicts. *)
Definition classes_exact (g : CFG) (blocks : gset ptr) (done : list ptr) (c : Cond.classes)
    : Prop :=
  (∀ cond, cond ∈ Cond.validConditions c ↔
     cond ∈ done ∧
     ∃ v, Cond.settles (fun fuel => Cond.judge fuel g blocks cond) v ∧
          Cond.exExit v = true ∧ Cond.exRecurses v = true) ∧
  (∀ cond, cond ∈ Cond.validConditions c →
     ∃ v, Cond.settles (fun fuel => Cond.judge fuel g blocks cond) v ∧
          Cond.recurseDict c !! cond = Some (Cond.recursePaths v)).

(** The flags the search from successor [suc] of [cond] settles on. *)
Definition flags (g : CFG) (blocks : gset ptr) (cond suc : ptr) (f : bool * bool) : Prop :=
  Cond.settles (fun fuel => Cond.branch_flags fuel g blocks cond suc) f.

(** What [judge_succ] makes of the verdict once the flags of [suc] are known. *)
Definition judged (v : Cond.verdict) (suc : ptr) (f : bool * bool) : Cond.verdict :=
  if f.1 && f.2 then v
  else
    let v1 := if f.1 then {| Cond.exRecurses := true; Cond.exExit := Cond.exExit v;
                             Cond.recursePaths := {[suc]} ∪ Cond.recursePaths v;
                             Cond.exitPaths := Cond.exitPaths v |} else v in
    if f.2 then {| Cond.exRecurses := Cond.exRecurses v1; Cond.exExit := true;
                   Cond.recursePaths := Cond.recursePaths v1;
                   Cond.exitPaths := {[suc]} ∪ Cond.exitPaths v1 |} else v1.

Definition judged_all (v : Cond.verdict) (sfs : list (ptr * (bool * bool))) : Cond.verdict :=
  fold_left (fun v sf => judged v sf.1 sf.2) sfs v.

Definition no_verdict : Cond.verdict :=
  {| Cond.exRecurses := false; Cond.exExit := false;
     Cond.recursePaths := ∅; Cond.exitPaths := ∅ |}.

(** A successor of [cond] whose search finds a way out of the region and no
    way back to [cond]. *)
Definition pure_exiting (g : CFG) (blocks : gset ptr) (cond e : ptr) : Prop :=
  e ∈ successors g cond ∧
  Cond.settles (fun fuel => Cond.branch_flags fuel g blocks cond e) (false, true).

(** [cond] was classified a valid conditional. *)
Definition valid_conditional (g : CFG) (blocks : gset ptr) (cond : ptr) : Prop :=
  ∃ cl, Cond.settles (fun fuel => Cond.classify fuel g blocks) cl ∧
        cond ∈ Cond.validConditions cl.

(** A loop head with one way round, through block 2, and one way out. *)
Definition loop_cfg : CFG := cfg_of [(1, [2; 9]); (2, [1]); (9, [])].
Definition loop_blocks : gset ptr := {[1; 2]}.

End Walks.

(** ** [Kernel::GetEntrances] *)

Module Entr.

(** The queries [GetEntrances] makes beside those of [CFG]. *)
Record facade := {
  (** [predecessors(b)] *)
  predecessors : ptr → list ptr;
  (** [&f->getEntryBlock()] *)
  getEntryBlock : ptr → ptr;
  GetBlockID : ptr → Z;
  (** the ids [KernelMap] has a kernel for *)
  KernelMap : gset Z;
}.

(** The loop over [parent->users()], left at the first user outside the region. *)
Fixpoint extUse (blocks : gset ptr) (users : list ptr) : bool :=
  match users with
  | [] => false
  | parentBlock :: users => if decide (parentBlock ∈ blocks) then extUse blocks users else true
  end.

(** The body of [for (BasicBlock *block : blocks)]. *)
Definition entrance_block (ir : facade) (g : CFG) (blocks : gset ptr)
    (E : gset ptr) (block : ptr) : gset ptr :=
  if decide (GetBlockID ir block ∈ KernelMap ir) then E
  else
    let E1 := fold_left (fun (E : gset ptr) pred =>
                           if decide (pred ∈ blocks) then E else {[block]} ∪ E)
                (predecessors ir block) E in
    let parent := block_parent g block in
    if decide (block = getEntryBlock ir parent) then
      if extUse blocks (user_blocks g parent) then {[block]} ∪ E1 else E1
    else E1.

Definition GetEntrances (ir : facade) (g : CFG) (blocks : gset ptr) (k : Region)
    : result Region :=
  let E := fold_left (entrance_block ir g blocks) (set_iter blocks) (Entrances k) in
  if decide (size E = 0%nat)
  then Throw (TikError "Kernel Exception: tik requires a body entrance")
  else Ok {| Entrances := E; ExitMap := ExitMap k; ExitTarget := ExitTarget k;
             Conditional := Conditional k; Body := Body k;
             Termination := Termination k |}.

(** [b] can be entered from outside the region: it is no block of a nested
    kernel, and a predecessor lies outside, or it is the entry block of a
    function that has a user outside. *)
Definition enters (ir : facade) (g : CFG) (blocks : gset ptr) (b : ptr) : Prop :=
  (GetBlockID ir b ∉ KernelMap ir) ∧
  ((∃ p, p ∈ predecessors ir b ∧ p ∉ blocks) ∨
   (b = getEntryBlock ir (block_parent g b) ∧
    ∃ u, u ∈ user_blocks g (block_parent g b) ∧ u ∉ blocks)).

(** A function of two blocks, 1 and 2, called from block 7; the predecessor
    lists are those of [loop_cfg]. *)
Definition loop_facade : facade :=
  {| predecessors := fun b => if decide (b = 1) then [2] else if decide (b = 2) then [1]
                              else if decide (b = 9) then [1] else [];
     getEntryBlock := fun _ => 1;
     GetBlockID := fun b => b;
     KernelMap := ∅ |}.

Definition called_loop_cfg : CFG :=
  {| successors := successors Walks.loop_cfg; is_return := is_return Walks.loop_cfg;
     block_parent := fun _ => 0; user_blocks := fun _ => [7] |}.

(** What [GetEntrances] makes of that region. *)
Definition loop_entrances : Region :=
  match GetEntrances loop_facade called_loop_cfg Walks.loop_blocks empty_region with
  | Ok k => k
  | Throw _ => empty_region
  end.

End Entr.

(** ** The phases that close the kernel function: [Remap], [Repipe],
    [BuildInit] and [BuildExit] *)

Module Finish.
Import Build.

Definition with_heap (st : build) (h : gmap ptr BasicBlock) : build :=
  {| next := next st; heap := h; kfBlocks := kfBlocks st; VMap := VMap st;
     Body := Body st; Termination := Termination st; Conditional := Conditional st;
     ExitMap := ExitMap st; handeledExits := handeledExits st |}.

Definition isTerminator (i : Instr) : bool :=
  match i with
  | Br _ | CondBr _ _ _ | Switch _ _ _ | Ret _ => true
  | _ => false
  end.

(** [b->getTerminator()]: the last instruction when it is a terminator, null
    otherwise. *)
Definition getTerminator (code : list (ptr * Instr)) : option (ptr * Instr) :=
  match last code with
  | Some (a, i) => if isTerminator i then Some (a, i) else None
  | None => None
  end.

(** [getSuccessor(0)], ..., [getSuccessor(getNumSuccessors() - 1)]. *)
Definition term_successors (i : Instr) : list ptr :=
  match i with
  | Br dest => [dest]
  | CondBr _ ifTrue ifFalse => [ifTrue; ifFalse]
  | Switch _ default cases => default :: cases.*2
  | _ => []
  end.

(** [setSuccessor(i, f (getSuccessor(i)))] for every [i]. *)
Definition map_successors (f : ptr → ptr) (i : Instr) : Instr :=
  match i with
  | Br dest => Br (f dest)
  | CondBr c ifTrue ifFalse => CondBr c (f ifTrue) (f ifFalse)
  | Switch v default cases => Switch v (f default) ((fun c : Value * ptr => (c.1, f c.2)) <$> cases)
  | i => i
  end.

(** [b->getParent()] *)
Definition getParent (st : build) (b : ptr) : option ptr := parent <$> heap st !! b.

(** [MapValue(v, VMap, RF_None)] as [RemapInstruction] uses it in a build
    without assertions: an operand [VMap] has no entry for is left as it is. *)
Definition map_value (vm : gmap Value Value) (v : Value) : Value := default v (vm !! v).

Definition map_block (vm : gmap Value Value) (b : ptr) : ptr :=
  match vm !! Block b with
  | Some (Block c) => c
  | _ => b
  end.

Definition map_func (vm : gmap Value Value) (f : ptr) : ptr :=
  match vm !! Func f with
  | Some (Func c) => c
  | _ => f
  end.

(** [RemapInstruction(inst, VMap, RF_None)]: every operand, and every incoming
    block of a phi, is looked up in [VMap]. *)
Definition RemapInstruction (vm : gmap Value Value) (i : Instr) : Instr :=
  match i with
  | PHI t incoming =>
    PHI t ((fun vp : Value * ptr => (map_value vm vp.1, map_block vm vp.2)) <$> incoming)
  | Call callee args KernelCall => Call (map_func vm callee) (map_value vm <$> args) KernelCall
  | Load pointer => Load (map_value vm pointer)
  | Store value pointer => Store (map_value vm value) (map_value vm pointer)
  | PtrToInt v => PtrToInt (map_value vm v)
  | IntToPtr v t => IntToPtr (map_value vm v) t
  | ICmpEQ a b => ICmpEQ (map_value vm a) (map_value vm b)
  | Select c a b => Select (map_value vm c) (map_value vm a) (map_value vm b)
  | Br dest => Br (map_block vm dest)
  | CondBr c ifTrue ifFalse => CondBr (map_value vm c) (map_block vm ifTrue) (map_block vm ifFalse)
  | Switch v default cases =>
    Switch (map_value vm v) (map_block vm default)
      ((fun c : Value * ptr => (map_value vm c.1, map_block vm c.2)) <$> cases)
  | Ret v => Ret (map_value vm <$> v)
  | Other operands => Other (map_value vm <$> operands)
  end.

(** The body of the loop of [Remap] over the blocks of [KernelFunction]. *)
Definition remap_block (st : build) (c : ptr) : build :=
  with_heap st
    (alter (fun bb => {| parent := parent bb;
                         insts := (fun ai : ptr * Instr =>
                                     (ai.1, RemapInstruction (VMap st) ai.2)) <$> insts bb |})
       c (heap st)).

Definition Remap (st : build) : build := fold_left remap_block (kfBlocks st) st.

(** The body of the loop of [Repipe] over the blocks of [KernelFunction]. *)
Definition repipe_block (cx : context) (st : build) (c : ptr) : build :=
  match heap st !! c with
  | Some bb =>
    match getTerminator (insts bb) with
    | Some (a, cTerm) =>
      let redirect := fun suc => if decide (getParent st suc = Some (KernelFunction cx))
                                 then suc else Exit cx in
      with_heap st
        (<[c := {| parent := parent bb;
                   insts := removelast (insts bb) ++ [(a, map_successors redirect cTerm)] |}]>
           (heap st))
    | None => st
    end
  | None => st
  end.

Definition Repipe (cx : context) (st : build) : build :=
  fold_left (repipe_block cx) (kfBlocks st) st.

(** Every successor of the terminator of [c] is a block of [KernelFunction]. *)
Definition stays_inside (cx : context) (st : build) (c : ptr) : Prop :=
  ∀ bb a cTerm suc,
    heap st !! c = Some bb → getTerminator (insts bb) = Some (a, cTerm) →
    suc ∈ term_successors cTerm → getParent st suc = Some (KernelFunction cx).

(** The terminator of block [b] is [t]. *)
Definition terminator (st : build) (b : ptr) (t : Instr) : Prop :=
  ∃ bb a, heap st !! b = Some bb ∧ getTerminator (insts bb) = Some (a, t).

(** What [BuildKernel] is given when the region holds no block of a nested
    kernel: the allocator hands out addresses above every block there is, the
    blocks of the region and the blocks they branch to exist and are not in
    [KernelFunction], and [VMap] knows no block. *)
Record ready (cx : context) (blocks : gset ptr) (st : build) : Prop := {
  ready_fresh : ∀ p bb, heap st !! p = Some bb → p < next st;
  ready_blocks : ∀ b, b ∈ blocks → is_Some (heap st !! b);
  ready_no_nested : ∀ b, b ∈ blocks → KernelMap cx !! GetBlockID cx b = None;
  ready_vmap : ∀ b, VMap st !! Block b = None;
  ready_kf : NoDup (kfBlocks st) ∧ ∀ c, c ∈ kfBlocks st → c < next st;
  ready_exit : getParent st (Exit cx) = Some (KernelFunction cx);
  ready_succ : ∀ b t s, b ∈ blocks → terminator st b t → s ∈ term_successors t →
               s ∉ blocks → ∃ f, getParent st s = Some f ∧ f ≠ KernelFunction cx;
}.

(** The region analyser left [b] out of both [Body] and [Termination]. *)
Definition unassigned (st : build) (b : ptr) : Prop :=
  (b ∉ Body st) ∧ (b ∉ Termination st).

(** The state the loop of [BuildKernel] starts from. *)
Definition start (st : build) : build :=
  {| next := next st; heap := heap st; kfBlocks := kfBlocks st;
     VMap := VMap st; Body := Body st; Termination := Termination st;
     Conditional := Conditional st; ExitMap := ExitMap st; handeledExits := ∅ |}.


(** What [Repipe] makes of a successor. *)
Definition redirect (cx : context) (st : build) (suc : ptr) : ptr :=
  if decide (getParent st suc = Some (KernelFunction cx)) then suc else Exit cx.

(** Block [b] of the region has its clone: [VMap] takes it to a new block of
    [KernelFunction] with the same terminator, placed where [b] was. *)
Definition cloned (cx : context) (st0 st : build) (b : ptr) : Prop :=
  ∃ cb bb0 code,
    heap st0 !! b = Some bb0 ∧ VMap st !! Block b = Some (Block cb) ∧
    next st0 ≤ cb ∧ cb ∈ kfBlocks st ∧
    heap st !! cb = Some {| parent := KernelFunction cx; insts := code |} ∧
    (∀ a t, getTerminator (insts bb0) = Some (a, t) →
            ∃ a', getTerminator code = Some (a', t)) ∧
    (b ∈ Body st0 → cb ∈ Body st) ∧
    (b ∉ Body st0 → b ∈ Termination st0 → cb ∈ Termination st).

(** What holds while [BuildKernel] clones the region, [done] being the blocks
    met so far. *)
Definition clone_inv (cx : context) (st0 : build) (done : gset ptr) (st : build) : Prop :=
  next st0 ≤ next st ∧
  (∀ p, p < next st0 → heap st !! p = heap st0 !! p) ∧
  (∀ p bb, heap st !! p = Some bb → p < next st) ∧
  (∀ b, b ∉ done → VMap st !! Block b = None) ∧
  (∀ b, b ∈ done → cloned cx st0 st b) ∧
  (NoDup (kfBlocks st) ∧ ∀ c, c ∈ kfBlocks st → c < next st) ∧
  (∀ x, x < next st0 → x ∉ done →
        (x ∈ Body st ↔ x ∈ Body st0) ∧ (x ∈ Termination st ↔ x ∈ Termination st0)) ∧
  ExitMap st = ExitMap st0 ∧
  (∀ x y c, x ∈ done → y ∈ done → VMap st !! Block x = Some (Block c) →
            VMap st !! Block y = Some (Block c) → x = y).

(** Where the kernel function goes for the successor [s] of a region block:
    to the clone of [s] when [s] is in the region, to [Exit] otherwise. *)
Definition mirrors (cx : context) (blocks : gset ptr) (st : build) (s s' : ptr) : Prop :=
  if decide (s ∈ blocks) then image st s = Some s' else s' = Exit cx.

(** An [IRBuilder] positioned at the end of block [b] appends [code]. *)
Definition append (b : ptr) (code : list Instr) (st : build) : build :=
  let addrs := (fun i : nat => next st + Z.of_nat i) <$> seq 0 (length code) in
  {| next := next st + Z.of_nat (length code);
     heap := alter (fun bb => {| parent := parent bb; insts := insts bb ++ zip addrs code |})
               b (heap st);
     kfBlocks := kfBlocks st; VMap := VMap st;
     Body := Body st; Termination := Termination st; Conditional := Conditional st;
     ExitMap := ExitMap st; handeledExits := handeledExits st |}.

(** [ConstantInt::get(Type::getInt8Ty(ctx), z)]: the low eight bits of [z]. *)
Definition i8 (z : Z) : Value := ConstantInt 8 (z mod 256).

(** The cases [BuildInit] adds: number [i] for the [i]-th entrance. *)
Definition init_cases (targets : list ptr) : list (Value * ptr) :=
  imap (fun i t => (i8 (Z.of_nat i), t)) targets.

(** [cast<BasicBlock>(VMap[ent])] fails when [VMap] has no block for [ent]. *)
Definition BuildInit (cx : context) (Entrances : gset ptr) (st : build) : option build :=
  targets ← mapM (image st) (set_iter Entrances);
  Some (append (Init cx)
          [Switch (Arg (KernelFunction cx) 0) (Exception cx) (init_cases targets)] st).

(** Where a switch on an [i8] whose value is [x] goes. *)
Definition switch_dest (x : Z) (default : ptr) (cases : list (Value * ptr)) : ptr :=
  match list_find (fun c : Value * ptr => c.1 = ConstantInt 8 x) cases with
  | Some (_, c) => c.2
  | None => default
  end.

(** [pair.first->getModule() == TikModule], the functions of [TikModule]
    being [tik]. *)
Definition in_TikModule (tik : gset ptr) (st : build) (b : ptr) : bool :=
  match getParent st b with
  | Some f => bool_decide (f ∈ tik)
  | None => false
  end.

(** The block the phi of [Exit] names for the key [b] of [ExitMap]. *)
Definition exit_block (tik : gset ptr) (st : build) (b : ptr) : option ptr :=
  if in_TikModule tik st b then Some b else image st b.

Definition exit_incoming (tik : gset ptr) (st : build) (pair : ptr * Z)
    : option (Value * ptr) :=
  v ← exit_block tik st pair.1;
  Some (i8 pair.2, v).

Definition BuildExit (cx : context) (tik : gset ptr) (st : build) : option build :=
  incoming ← mapM (exit_incoming tik st) (map_iter (ExitMap st));
  let phi := next st in
  let st1 := append (Exit cx) [PHI (IntTy 8) incoming; Ret (Some (Inst phi))] st in
  Some (append (Exception cx) [Ret (Some (i8 (-2)))] st1).

(** The value of a phi when control arrives from [pred]. *)
Definition phi_value (incoming : list (Value * ptr)) (pred : ptr) : option Value :=
  fst <$> (snd <$> list_find (fun vp : Value * ptr => vp.2 = pred) incoming).

(** What a block made of a phi and the return of it returns when entered
    from [pred]; what a block that returns a constant returns. *)
Definition returned (code : list (ptr * Instr)) (pred : ptr) : option Value :=
  match code with
  | [(phi, PHI _ incoming); (_, Ret (Some (Inst r)))] =>
    if decide (r = phi) then phi_value incoming pred else None
  | [(_, Ret (Some (ConstantInt bits v)))] => Some (ConstantInt bits v)
  | _ => None
  end.

(** The region of [loop_cfg] before [BuildKernel]: block 1 is the
    conditional, block 2 the body, block 9 lies outside; the kernel function
    at 100 holds its three artificial blocks. *)
Definition loop_context : context :=
  {| GetBlockID := fun b => b; KernelMap := ∅;
     KernelFunction := 100; Init := 101; Exit := 102; Exception := 103 |}.

Definition loop_before : build :=
  {| next := 200;
     heap := {[1 := {| parent := 0; insts := [(10, Other []); (11, CondBr (Inst 10) 2 9)] |};
               2 := {| parent := 0; insts := [(21, Br 1)] |};
               9 := {| parent := 0; insts := [(91, Ret None)] |};
               101 := {| parent := 100; insts := [] |};
               102 := {| parent := 100; insts := [] |};
               103 := {| parent := 100; insts := [] |}]};
     kfBlocks := [101; 102; 103]; VMap := ∅;
     Body := {[2]}; Termination := {[1]}; Conditional := {[1]};
     ExitMap := {[1 := 0]}; handeledExits := ∅ |}.

Definition loop_built : build :=
  match BuildKernel loop_context Walks.loop_blocks loop_before with
  | Ok st => st
  | Throw _ => loop_before
  end.

(** The kernel after [Remap] and [Repipe], and after [BuildInit] with block 1
    as the entrance, or [BuildExit] with the kernel function alone in the
    module. *)
Definition loop_piped : build := Repipe loop_context (Remap loop_built).

Definition loop_init : build :=
  default loop_piped (BuildInit loop_context {[1]} loop_piped).

Definition loop_exit : build :=
  default loop_piped (BuildExit loop_context {[100]} loop_piped).

End Finish.

(** The region of [shared_exit_cfg] before [BuildKernel]: blocks 1 and 2 both
    branch to block 9, outside the region, and [ExitMap] is what exit analysis
    made of it; no block loops, so both blocks went to [Termination]. *)
Definition shared_exit_before : Build.build :=
  {| Build.next := 200;
     Build.heap := {[1 := {| parent := 0;
                             insts := [(10, Other []); (11, CondBr (Inst 10) 2 9)] |};
                     2 := {| parent := 0; insts := [(21, Br 9)] |};
                     9 := {| parent := 0; insts := [(91, Ret None)] |};
                     101 := {| parent := 100; insts := [] |};
                     102 := {| parent := 100; insts := [] |};
                     103 := {| parent := 100; insts := [] |}]};
     Build.kfBlocks := [101; 102; 103]; Build.VMap := ∅;
     Build.Body := ∅; Build.Termination := {[1; 2]}; Build.Conditional := ∅;
     Build.ExitMap := ExitMap ExitIds.shared_exit_result; Build.handeledExits := ∅ |}.

(** ** The selector functions on the indices they were built for *)

Module Sel.
Import Mem.

(** The index the chain of selects settles on for the argument [arg] once
    [n] pointers are chained: [arg] itself when it is one of 1 .. n-1, and 0
    otherwise. *)
Definition pick (arg n : Z) : Z := if decide (1 ≤ arg < n) then arg else 0.

(** What holds of a chain under construction: running the entry block so far
    leaves the environment [env], and [priorValue] holds the converted pointer
    of the global [table] has for the picked index. *)
Definition sel_inv (f : ptr) (mem : ptr → Z) (arg : Z) (table : kernel → gmap Z ptr)
    (st : chain) : Prop :=
  ∃ env,
    (∀ rest, run f mem arg ∅ (code st ++ rest) = run f mem arg env rest) ∧
    (∀ b, is_Some (env !! b) → b < next (k st)) ∧
    0 ≤ i st ∧
    match priorValue st with
    | None => i st = 0
    | Some pv => 0 < i st ∧ ∃ p g, pv = Inst p ∧ table (k st) !! pick arg (i st) = Some g ∧
                                   env !! p = Some (i64 (mem g))
    end.

(** The local index map, the index table and [GlobalMap] agree: the index
    constant of a pointer is the index under which the table has the global
    [GlobalMap] gives the pointer. *)
Definition index_inv (table : kernel → gmap Z ptr) (st : chain) : Prop :=
  ∀ v c, indexMap st !! v = Some c →
    ∃ j g, c = ConstantInt 64 j ∧ 0 ≤ j < i st ∧
           table (k st) !! j = Some g ∧ GlobalMap (k st) !! v = Some g.

End Sel.

(** ** Names across calls of the constructor *)

Module Names.
Import Ctor.

(** The run a call of the constructor leaves behind. *)
Definition run_after (o : outcome) : run :=
  match o with
  | Constructed _ r => r
  | Escaped _ r => r
  end.

(** The phases never take a name out of [reservedNames]. *)
Definition keep_names
    (phases : string → members → run → members * run * option TikException) : Prop :=
  ∀ Name m r, reservedNames r ⊆ reservedNames (phases Name m r).1.2.

(** A run in which the name of the first unnamed kernel was given to a
    kernel by hand. *)
Definition run_Kernel_0 : run :=
  {| KernelUID := 0; reservedNames := {["Kernel_0"]}; TikModule := ∅; log := [] |}.

End Names.

(** ** What [GetExternalValues] collects *)

Module Ext.
Import Sig.

(** The operand [op] of [inst] makes [v] an external value: [op] is an
    instruction of a block outside the region, and [v] is [op]; or [op] is a
    formal argument, and [v] is [op] when [inst] is no call, and when [inst]
    calls the function of a kernel, [v] is an external value of that kernel
    for which [VMap] has nothing. *)
Definition contributes (ir : facade) (blocks : gset ptr) (vmap : gmap Value Value)
    (inst : Instr) (op v : Value) : Prop :=
  match op with
  | Inst operand => (instParent ir operand ∉ blocks) ∧ v = op
  | Arg _ _ =>
    match inst with
    | Call callee _ _ =>
      ∃ subExternalValues, KfMap ir !! callee = Some subExternalValues ∧
                           v ∈ subExternalValues ∧ vmap !! v = None
    | _ => v = op
    end
  | _ => False
  end.

Definition external (ir : facade) (blocks : gset ptr) (vmap : gmap Value Value)
    (v : Value) : Prop :=
  ∃ bb inst op, bb ∈ blocks ∧ inst ∈ blockInsts ir bb ∧ op ∈ operands inst ∧
                contributes ir blocks vmap inst op v.

End Ext.

(** ** [Kernel::InlineFunctions]: the way back from an inlined callee *)

Module Ret.
Import Inline.

(** [brInst->getSuccessor(0)] of a terminator that is a branch. *)
Definition branch_successor (term : option Instr) : option ptr :=
  match term with
  | Some (Br dest) => Some dest
  | Some (CondBr _ ifTrue _) => Some ifTrue
  | _ => None
  end.

(** The body of the last [for (auto pre : funcUses)]; the accumulator holds
    the cases added so far and [currentIndex]. *)
Definition return_case (getTerminator : ptr → option Instr)
    (acc : list (Value * ptr) * Z) (pre : ptr) : result (list (Value * ptr) * Z) :=
  match branch_successor (getTerminator pre) with
  | Some suc => Ok (acc.1 ++ [(Finish.i8 acc.2, suc)], acc.2 + 1)
  | None => Throw (TikError "Unimplemented terminator")
  end.

(** [SwitchInstruction] once its cases are added.  [InlineStruct] is declared
    in a header that is not among the sources; [currentIndex] is taken to
    count from 0 in a fresh [InlineStruct], as [phiIndex] is. *)
Definition return_switch (getTerminator : ptr → option Instr) (Exception : ptr)
    (e : entrance) : result Instr :=
  r ← foldM (return_case getTerminator) (funcUses e) ([], 0);
  Ok (Switch (Inst (branchPhi (info e))) Exception r.1).

(** The terminators of the two calling blocks of [two_calls]: block 30 goes
    on to block 35, block 40 to block 45. *)
Definition two_calls_terminators (b : ptr) : option Instr :=
  if decide (b = 30) then Some (Br 35)
  else if decide (b = 40) then Some (Br 45) else None.

Definition two_calls_entrance : entrance :=
  match entrance_block two_calls 300 31 7 ∅ ∅ with
  | Ok e => e
  | Throw _ =>
    {| code := []; info := {| CalledFunction := None; entranceBlock := 0; branchPhi := 0;
                              phiIndex := 0; ArgNodes := [] |};
       VMap := ∅; Body := ∅; funcUses := []; callUses := [] |}
  end.

Definition two_calls_switch : Instr :=
  match return_switch two_calls_terminators 103 two_calls_entrance with
  | Ok sw => sw
  | Throw _ => Ret None
  end.

End Ret.

(** * Theorems *)

(** ** Iteration order of the ordered containers *)

Lemma set_iter_perm (s : gset ptr) : set_iter s ≡ₚ elements s.
Proof. apply merge_sort_Permutation. Qed.

Lemma elem_of_set_iter (s : gset ptr) (x : ptr) : x ∈ set_iter s ↔ x ∈ s.
Proof. rewrite set_iter_perm. apply elem_of_elements. Qed.

Lemma NoDup_set_iter (s : gset ptr) : NoDup (set_iter s).
Proof. rewrite set_iter_perm. apply NoDup_elements. Qed.

Lemma set_iter_sorted (s : gset ptr) : Sorted Z.le (set_iter s).
Proof. apply (Sorted_merge_sort Z.le). Qed.

(** A loop keeps what each turn keeps. *)
Lemma fold_left_preserves {A B} (P : A → Prop) (f : A → B → A) l a :
  (∀ a b, P a → P (f a b)) → P a → P (fold_left f l a).
Proof. intros Hf. revert a. induction l; simpl; auto. Qed.

(** ** Exit analysis *)

Module ExitsFacts.
Import Exits.

Section loop.
Variable g : CFG.
Variable blocks : gset ptr.

Lemma visit_block_targets st b :
  visit_block g blocks st b = fold_left (visit blocks b) (exit_targets g b) st.
Proof.
  unfold visit_block, exit_targets. rewrite fold_left_app.
  destruct (is_return g b); reflexivity.
Qed.

Lemma fold_visit_pairs l st :
  fold_left (visit_block g blocks) l st = fold_left (visitp blocks) (pairs g l) st.
Proof.
  revert st. induction l as [|b l IH]; intros st; [reflexivity|].
  unfold pairs. rewrite bind_cons, fold_left_app. fold (pairs g l).
  rewrite <- IH. simpl. f_equal. rewrite visit_block_targets.
  generalize (exit_targets g b). intros ts. revert st.
  induction ts as [|t ts IHt]; intros st; simpl; [reflexivity|apply IHt].
Qed.

Lemma claims_nil c0 b : ¬ claims blocks c0 [] b.
Proof. intros (l1 & t & l2 & HL & _). by destruct l1. Qed.

Lemma claims_cons_skip c0 p L b :
  (p.2 ∈ blocks ∨ p.2 ∈ c0) →
  claims blocks c0 (p :: L) b ↔ claims blocks c0 L b.
Proof.
  intros Hp. split.
  - intros (l1 & t & l2 & HL & ? & ? & Hl1).
    destruct l1 as [|q l1]; simplify_eq/=; [tauto|].
    exists l1, t, l2. rewrite not_elem_of_cons in Hl1. tauto.
  - intros (l1 & t & l2 & -> & ? & ? & ?).
    exists (p :: l1), t, l2. split_and!; try done.
    rewrite fmap_cons, not_elem_of_cons. split; [|done]. intros ->. tauto.
Qed.

Lemma claims_cons_take c0 b0 t0 L b :
  t0 ∉ blocks → t0 ∉ c0 →
  claims blocks c0 ((b0, t0) :: L) b ↔ b = b0 ∨ claims blocks ({[t0]} ∪ c0) L b.
Proof.
  intros Hb Hc. split.
  - intros (l1 & t & l2 & HL & ? & ? & Hl1).
    destruct l1 as [|q l1]; simplify_eq/=; [tauto|].
    right. exists l1, t, l2. rewrite not_elem_of_cons in Hl1.
    rewrite not_elem_of_union, elem_of_singleton. tauto.
  - intros [->|(l1 & t & l2 & -> & ? & Hn & ?)].
    + exists [], t0, L. split_and!; try done. apply not_elem_of_nil.
    + exists ((b0, t0) :: l1), t, l2.
      rewrite not_elem_of_union, elem_of_singleton in Hn.
      split_and!; try done; [tauto|].
      rewrite fmap_cons, not_elem_of_cons. simpl. tauto.
Qed.

Lemma visit_cases st b t :
  (visit blocks b st t = st ∧ (t ∈ blocks ∨ t ∈ coveredExits st)) ∨
  ((t ∉ blocks) ∧ (t ∉ coveredExits st) ∧
   visit blocks b st t =
     {| exitId := exitId st + 1; coveredExits := {[t]} ∪ coveredExits st;
        target := <[exitId st := t]> (target st);
        emap := <[b := exitId st]> (emap st) |}).
Proof. unfold visit. repeat case_decide; tauto. Qed.

Lemma fold_visitp_spec L st :
  let st' := fold_left (visitp blocks) L st in
  (∀ b, is_Some (emap st' !! b) ↔
        is_Some (emap st !! b) ∨ claims blocks (coveredExits st) L b) ∧
  exitId st ≤ exitId st' ∧
  ((∃ b, claims blocks (coveredExits st) L b) → exitId st < exitId st').
Proof.
  revert st. induction L as [|[b t] L IH]; intros st; simpl.
  - split_and!; [|lia|].
    + intros b. pose proof (claims_nil (coveredExits st) b). tauto.
    + intros [b Hb]. by apply claims_nil in Hb.
  - specialize (IH (visitp blocks st (b, t))). simpl in IH.
    change (visitp blocks st (b, t)) with (visit blocks b st t) in *.
    destruct (visit_cases st b t) as [[Heq Hc]|(Hin & Hcov & Heq)];
      rewrite Heq in *; clear Heq; destruct IH as (Hm & Hle & Hlt); simpl in *.
    + split_and!; [|done|].
      * intros b'. rewrite Hm, (claims_cons_skip _ (b, t)); [tauto|simpl; tauto].
      * intros [b' Hb']. apply Hlt. exists b'.
        rewrite (claims_cons_skip _ (b, t)) in Hb' by (simpl; tauto). done.
    + split_and!; [|lia|intros _; lia].
      intros b'. rewrite Hm, lookup_insert_is_Some, claims_cons_take by done.
      destruct (decide (b = b')) as [->|]; intuition congruence.
Qed.

Lemma pairs_split l l1 b t l2 :
  pairs g l = l1 ++ (b, t) :: l2 →
  ∃ pre post t1 t2, l = pre ++ b :: post ∧
    l1 = pairs g pre ++ (pair b <$> t1) ∧ exit_targets g b = t1 ++ t :: t2.
Proof.
  revert l1. induction l as [|a l IH]; intros l1 HL.
  - by destruct l1.
  - unfold pairs in HL. rewrite bind_cons in HL. fold (pairs g l) in HL.
    assert (Hcase : (∃ t1 t2, a = b ∧ exit_targets g a = t1 ++ t :: t2 ∧
                       l1 = pair a <$> t1) ∨
                    (∃ l1', l1 = (pair a <$> exit_targets g a) ++ l1' ∧
                       pairs g l = l1' ++ (b, t) :: l2)).
    { revert l1 HL. generalize (exit_targets g a). intros ts.
      induction ts as [|x ts IHt]; intros l1 HL; simpl in HL.
      - right. by exists l1.
      - destruct l1 as [|p l1]; simplify_eq/=.
        + left. by exists [], ts.
        + destruct (IHt _ H0) as [(t1 & t2 & -> & -> & ->)|(l1' & -> & ?)].
          * left. by exists (x :: t1), t2.
          * right. by exists l1'. }
    destruct Hcase as [(t1 & t2 & -> & Ht & ->)|(l1' & -> & Hp)].
    + by exists [], l, t1, t2.
    + destruct (IH _ Hp) as (pre & post & t1 & t2 & -> & -> & Ht).
      exists (a :: pre), post, t1, t2. split_and!; try done.
      unfold pairs. rewrite bind_cons. fold (pairs g pre). by rewrite app_assoc.
Qed.

Lemma elem_of_pairs_snd l t :
  t ∈ (pairs g l).*2 ↔ ∃ b, b ∈ l ∧ t ∈ exit_targets g b.
Proof.
  unfold pairs. rewrite list_elem_of_fmap. split.
  - intros ([b' t'] & -> & Hin). apply list_elem_of_bind in Hin as (b & Hin & Hb).
    apply list_elem_of_fmap in Hin as (t'' & ? & ?). simplify_eq/=. eauto.
  - intros (b & Hb & Ht). exists (b, t). split; [done|].
    apply list_elem_of_bind. exists b. split; [|done].
    apply list_elem_of_fmap. eauto.
Qed.

Lemma claims_first_claimer l b :
  claims blocks ∅ (pairs g l) b ↔ first_claimer g blocks l b.
Proof.
  split.
  - intros (l1 & t & l2 & HL & Hnb & _ & Hl1).
    destruct (pairs_split _ _ _ _ _ HL) as (pre & post & t1 & t2 & -> & -> & Ht).
    exists pre, post, t. split_and!; try done.
    + rewrite Ht. set_solver.
    + intros b' Hb' Hin. apply Hl1. rewrite fmap_app, elem_of_app. left.
      apply elem_of_pairs_snd. eauto.
  - intros (pre & post & s & -> & Hs & Hnb & Hpre).
    apply list_elem_of_split_l in Hs as (t1 & t2 & Ht & Ht1).
    exists (pairs g pre ++ (pair b <$> t1)), s, ((pair b <$> t2) ++ pairs g post).
    split_and!; try done.
    + unfold pairs. rewrite bind_app, bind_cons, Ht, fmap_app, fmap_cons.
      by rewrite <- !app_assoc.
    + rewrite fmap_app, elem_of_app. intros [Hin|Hin].
      * apply elem_of_pairs_snd in Hin as (b' & ? & ?). by eapply Hpre.
      * rewrite <- list_fmap_compose in Hin.
        apply list_elem_of_fmap in Hin as (? & ? & ?). by simplify_eq/=.
Qed.

(** Some block with a way out is the first to reach its target. *)
Lemma has_exit_first_claimer :
  has_exit g blocks → ∃ b, first_claimer g blocks (set_iter blocks) b.
Proof.
  intros (b & s & Hb & Hs & Hns).
  assert (Hex : Exists (fun b' => s ∈ exit_targets g b') (set_iter blocks)).
  { apply Exists_exists. exists b. by rewrite elem_of_set_iter. }
  clear b Hb Hs. revert Hex. generalize (set_iter blocks). intros l.
  induction l as [|a l IH]; intros Hex; [by apply Exists_nil in Hex|].
  destruct (decide (s ∈ exit_targets g a)) as [Ha|Ha].
  - exists a, [], l, s. split_and!; try done. intros b' Hb'. by apply elem_of_nil in Hb'.
  - apply Exists_cons in Hex as [?|Hex]; [done|].
    destruct (IH Hex) as (b & pre & post & s' & -> & ? & ? & Hpre).
    destruct (decide (s' ∈ exit_targets g a)) as [Ha'|Ha'].
    + exists a, [], (pre ++ b :: post), s'. split_and!; try done.
      intros b' Hb'. by apply elem_of_nil in Hb'.
    + exists b, (a :: pre), post, s'. split_and!; try done.
      intros b' [->|Hb']%elem_of_cons; auto.
Qed.
End loop.

(** Which blocks get an entry: when some block of the region has a way out,
    exit analysis succeeds, and [ExitMap] then has an entry for exactly the
    blocks that are the first, in iteration order, to reach some target
    outside the region (an outside successor or, for a returning block, an
    outside call site of its function).  A block whose outside targets were
    all claimed by earlier blocks has no entry. *)
Theorem GetExits_first_claimers (g : CFG) (blocks : gset ptr) (k : Region) :
  ExitMap k = ∅ → has_exit g blocks →
  ∃ k', GetExits g blocks k = Ok k' ∧
    ∀ b, is_Some (ExitMap k' !! b) ↔ first_claimer g blocks (set_iter blocks) b.
Proof.
  intros Hk Hex. unfold GetExits. rewrite fold_visit_pairs.
  match goal with |- context [fold_left _ ?L ?s] =>
    destruct (fold_visitp_spec blocks L s) as (Hm & _ & Hlt) end.
  simpl in *. rewrite Hk in *.
  case_decide as H0.
  - destruct (has_exit_first_claimer g blocks Hex) as [b Hb].
    apply claims_first_claimer in Hb. specialize (Hlt (ex_intro _ b Hb)). lia.
  - eexists. split; [reflexivity|]. simpl. intros b. rewrite Hm.
    rewrite lookup_empty, claims_first_claimer.
    split; [intros [[? ?]|?]; done|tauto].
Qed.

Lemma GetExits_first_claimers_witness :
  ∃ k', GetExits shared_exit_cfg shared_exit_blocks empty_region = Ok k' ∧
    ∀ b, is_Some (ExitMap k' !! b) ↔
         first_claimer shared_exit_cfg shared_exit_blocks (set_iter shared_exit_blocks) b.
Proof.
  apply (GetExits_first_claimers shared_exit_cfg shared_exit_blocks empty_region).
  - reflexivity.
  - exists 1, 9. split_and!; compute_done.
Defined.

(** C2 fails of the code: [ExitMap] is not total over the blocks that leave
    the region.  Blocks 1 and 2 both have block 9, outside the region, as a
    successor; the write of [ExitMap] sits inside the test on [coveredExits],
    so block 1 claims block 9 and block 2, which comes after it, gets no
    entry. *)
Lemma ExitMap_not_total : ¬ ExitMap_total shared_exit_cfg shared_exit_blocks.
Proof.
  intros H.
  assert (Hk : ∃ k', GetExits shared_exit_cfg shared_exit_blocks empty_region = Ok k' ∧
                     ExitMap k' !! 2 = None)
    by (eexists; split; [reflexivity|compute_done]).
  destruct Hk as (k' & Hk & Hnone).
  destruct (H k' Hk 2 9) as [x Hx]; [compute_done..|].
  assert (Heq : Some x = None) by (rewrite <- Hx; exact Hnone). discriminate.
Qed.

End ExitsFacts.

(** ** Conditional classification *)

Module CondFacts.
Import Cond.

(** C3 at a three-way switch: the search from successor 2 of block 1 sets both
    flags, yet block 1 is classified valid and ends up in [Conditional],
    because successor 3 only recurses and successor 9 only exits. *)
Theorem ambiguous_successor_does_not_disqualify :
  branch_flags 10 switch_cfg switch_blocks 1 2 = Some (true, true) ∧
  branch_flags 10 switch_cfg switch_blocks 1 3 = Some (true, false) ∧
  branch_flags 10 switch_cfg switch_blocks 1 9 = Some (false, true) ∧
  ∃ k', GetConditional 10 switch_cfg switch_blocks empty_region = Some k' ∧
        1 ∈ Conditional k'.
Proof.
  split_and!; try reflexivity.
  eexists. split; [reflexivity|]. compute_done.
Qed.

Lemma size_remove_one (X : gset ptr) y : y ∈ X → size X = S (size (X ∖ {[y]})).
Proof.
  intros Hy. rewrite (union_difference_singleton_L y X) at 1 by done.
  rewrite size_union by set_solver. by rewrite size_singleton.
Qed.

(** *** Computations with fuel *)

Lemma settles_ret {A} (a : A) : settles (fun _ => Some a) a.
Proof. by exists 0%nat. Qed.

Lemma settles_bind {A B} (F : nat → option A) (G : A → nat → option B) a b :
  settles F a → settles (G a) b → settles (fun fuel => x ← F fuel; G x fuel) b.
Proof.
  intros [n Hn] [m Hm]. exists (n `max` m)%nat. intros fuel Hf.
  rewrite Hn by lia. simpl. apply Hm. lia.
Qed.

Lemma settles_with_bind {A B} (F : nat → option A) (G : A → nat → option B)
    (P : A → Prop) (Q : B → Prop) :
  settles_with F P → (∀ a, P a → settles_with (G a) Q) →
  settles_with (fun fuel => x ← F fuel; G x fuel) Q.
Proof.
  intros (a & Ha & HP) HG. destruct (HG a HP) as (b & Hb & HQ).
  exists b. split; [by eapply settles_bind|done].
Qed.

Lemma settles_with_foldM {A B} (step : nat → A → B → option A) (I : A → Prop) l a :
  I a → (∀ a b, b ∈ l → I a → settles_with (fun fuel => step fuel a b) I) →
  settles_with (fun fuel => foldM (step fuel) l a) I.
Proof.
  revert a. induction l as [|b l IH]; intros a Ha Hstep; simpl.
  - exists a. split; [apply settles_ret|done].
  - apply (settles_with_bind (fun fuel => step fuel a b)
             (fun a' fuel => foldM (step fuel) l a') I I).
    + apply Hstep; [apply list_elem_of_here|done].
    + intros a' Ha'. apply IH; [done|]. intros a'' b' Hb'. apply Hstep.
      by apply list_elem_of_further.
Qed.

Lemma settles_with_impl {A} (F : nat → option A) (P Q : A → Prop) :
  settles_with F P → (∀ a, P a → Q a) → settles_with F Q.
Proof. intros (a & Ha & HP) HPQ. exists a. auto. Qed.

(** *** The search from one successor *)

Section scan.
Variable g : CFG.
Variable blocks : gset ptr.
Variable cond : ptr.

Lemma scan_succ_spec st y :
  let st' := scan_succ blocks cond st y in
  (∀ x, x ∈ toProcess st → x ∈ toProcess st') ∧
  (∀ x, x ∈ checked st → x ∈ checked st') ∧
  (∀ x, x ∈ checked st' → x ∈ checked st ∨ x ∈ toProcess st') ∧
  (exit st' = false → exit st = false ∧ y ∈ blocks ∧ y ∈ checked st') ∧
  scan_measure blocks st' = scan_measure blocks st.
Proof.
  unfold scan_succ, scan_measure. simpl.
  destruct (decide ((y ∉ checked st) ∧ y ∈ blocks)) as [[Hnc Hb]|Hn]; simpl.
  - rewrite decide_True by done. split_and!.
    + intros x Hx. apply elem_of_app. by left.
    + set_solver.
    + intros x [->%elem_of_singleton|Hx]%elem_of_union; [right|by left].
      apply elem_of_app. right. by apply list_elem_of_singleton.
    + intros He. split_and!; [done..|set_solver].
    + rewrite length_app. simpl.
      rewrite (size_remove_one (blocks ∖ checked st) y) by set_solver.
      replace (blocks ∖ ({[y]} ∪ checked st)) with ((blocks ∖ checked st) ∖ {[y]})
        by set_solver.
      lia.
  - split_and!; try done; [by left|].
    destruct (decide (y ∈ blocks)) as [Hb|Hb]; [|done].
    intros He. split_and!; [done..|].
    destruct (decide (y ∈ checked st)); [done|]. destruct Hn. by split.
Qed.

Lemma fold_scan_succ_spec l st :
  let st' := fold_left (scan_succ blocks cond) l st in
  (∀ x, x ∈ toProcess st → x ∈ toProcess st') ∧
  (∀ x, x ∈ checked st → x ∈ checked st') ∧
  (∀ x, x ∈ checked st' → x ∈ checked st ∨ x ∈ toProcess st') ∧
  (exit st' = false → exit st = false ∧ ∀ y, y ∈ l → y ∈ blocks ∧ y ∈ checked st') ∧
  scan_measure blocks st' = scan_measure blocks st.
Proof.
  revert st. induction l as [|y l IH]; intros st; simpl.
  - split_and!; try done; [by left|]. intros ?. split; [done|].
    intros y Hy. by apply elem_of_nil in Hy.
  - destruct (scan_succ_spec st y) as (Hq & Hc & Hc' & He & Hm).
    destruct (IH (scan_succ blocks cond st y)) as (Hq2 & Hc2 & Hc2' & He2 & Hm2).
    simpl in *. split_and!.
    + auto.
    + auto.
    + intros x Hx. destruct (Hc2' x Hx) as [Hx'|?]; [|by right].
      destruct (Hc' x Hx') as [?|?]; [by left|right; auto].
    + intros Hex. destruct (He2 Hex) as [Hex' Hl]. destruct (He Hex') as (? & ? & ?).
      split; [done|]. intros z [->|Hz]%elem_of_cons; [split; auto|auto].
    + congruence.
Qed.

Lemma scan_loop_spec suc n : ∀ st P,
  (scan_measure blocks st ≤ n)%nat → scan_inv g blocks cond suc P st →
  settles_with (fun fuel => scan_loop fuel g blocks cond st)
    (fun r => exit r = false → ∃ Q, suc ∈ Q ∧ closed g blocks cond Q).
Proof.
  induction n as [|n IH]; intros st P Hm (H1 & H2 & H3).
  - assert (Hq : toProcess st = []).
    { unfold scan_measure in Hm. apply length_zero_iff_nil. lia. }
    exists st. split.
    + exists 0%nat. intros fuel _. destruct fuel; simpl; by rewrite Hq.
    + intros He. exists P. rewrite Hq in *. split.
      * destruct H2 as [?|H2]; [done|by apply elem_of_nil in H2].
      * intros x y Hx Hy. destruct (H3 He x y Hx Hy) as [Hb Hc]. split; [done|].
        destruct (H1 y Hc) as [?|[?|Hn]]; auto. by apply elem_of_nil in Hn.
  - destruct (toProcess st) as [|x rest] eqn:Hq.
    + exists st. split.
      * exists 0%nat. intros fuel _. destruct fuel; simpl; by rewrite Hq.
      * intros He. exists P. split.
        -- destruct H2 as [?|H2]; [done|by apply elem_of_nil in H2].
        -- intros x y Hx Hy. destruct (H3 He x y Hx Hy) as [Hb Hc]. split; [done|].
           destruct (H1 y Hc) as [?|[?|Hn]]; auto. by apply elem_of_nil in Hn.
    + set (st0 := {| toProcess := rest; checked := checked st;
                     recurses := recurses st; exit := exit st |}).
      set (st1 := {| toProcess := toProcess st0; checked := checked st0;
                     recurses := recurses st0;
                     exit := if decide (length (successors g x) = 0%nat)
                             then true else exit st0 |}).
      destruct (fold_scan_succ_spec (successors g x) st1) as (Fq & Fc & Fc' & Fe & Fm).
      change (fold_left (scan_succ blocks cond) (successors g x) st1)
        with (scan_block g blocks cond x st0) in Fq, Fc, Fc', Fe, Fm.
      destruct (IH (scan_block g blocks cond x st0) ({[x]} ∪ P)) as (r & [m Hr] & Hpost).
      * rewrite Fm. unfold scan_measure in *. rewrite Hq in Hm. simpl in *. lia.
      * split_and!.
        -- intros y Hy. destruct (Fc' y Hy) as [Hy'|?]; [|auto].
           simpl in Hy'. destruct (H1 y Hy') as [?|[?|Hin]]; [auto|set_solver|].
           apply elem_of_cons in Hin as [->|Hin]; [set_solver|].
           right. right. apply Fq. done.
        -- destruct H2 as [?|Hin]; [set_solver|].
           apply elem_of_cons in Hin as [->|Hin]; [set_solver|].
           right. apply Fq. done.
        -- intros He x' y [->%elem_of_singleton|Hx']%elem_of_union Hy.
           ++ destruct (Fe He) as [_ Hl]. auto.
           ++ destruct (Fe He) as [He1 _]. simpl in He1.
              destruct (decide (length (successors g x) = 0%nat)); [done|].
              destruct (H3 He1 x' y Hx' Hy) as [? ?]. split; [done|]. apply Fc. done.
      * exists r. split; [|done]. exists (S m). intros fuel Hf.
        destruct fuel as [|fuel]; [lia|]. simpl. rewrite Hq. apply Hr. lia.
Qed.

(** The search from a successor ends; when it ends without the exit flag,
    the successor lies in a closed set. *)
Lemma branch_flags_spec suc :
  settles_with (fun fuel => branch_flags fuel g blocks cond suc)
    (fun f => f.2 = false → ∃ Q, suc ∈ Q ∧ closed g blocks cond Q).
Proof.
  unfold branch_flags.
  apply (settles_with_bind _ (fun st _ => Some (recurses st, exit st))
           (fun r => exit r = false → ∃ Q, suc ∈ Q ∧ closed g blocks cond Q)).
  - eapply (scan_loop_spec suc _ _ ∅); [done|]. split_and!; simpl.
    + intros y. rewrite elem_of_union, elem_of_singleton. intros [?|Hy]; [by left|].
      right. right. apply list_elem_of_singleton. set_solver.
    + right. by apply list_elem_of_singleton.
    + intros _ x y Hx. set_solver.
  - intros st Hst. exists (recurses st, exit st). split; [apply settles_ret|done].
Qed.

End scan.

(** *** Classification *)

Section classify.
Variable g : CFG.
Variable blocks : gset ptr.

Lemma closed_union cond Q Q' :
  closed g blocks cond Q → closed g blocks cond Q' → closed g blocks cond (Q ∪ Q').
Proof.
  intros H H' x y [Hx|Hx]%elem_of_union Hy.
  - destruct (H x y Hx Hy) as [? [?|?]]; set_solver.
  - destruct (H' x y Hx Hy) as [? [?|?]]; set_solver.
Qed.

Lemma settles_with_self {A} (F : nat → option A) (P : A → Prop) :
  settles_with F P → settles_with F (fun a => settles F a ∧ P a).
Proof. intros (a & Ha & HP). by exists a. Qed.

Lemma judge_succ_spec cond v suc :
  suc ∈ successors g cond →
  seeds_closed g blocks cond (recursePaths v) →
  settles_with (fun fuel => judge_succ fuel g blocks cond v suc)
    (fun v' => seeds_closed g blocks cond (recursePaths v')).
Proof.
  intros Hsuc (Hpure & Q & HQ & Hcl). unfold judge_succ.
  eapply settles_with_bind; [apply settles_with_self, branch_flags_spec|].
  intros [r e] [Hset Hre]. simpl in Hre.
  destruct r, e; simpl; (eexists; split; [apply settles_ret|]); simpl;
    try (split; [done|by exists Q]).
  destruct (Hre eq_refl) as (Q' & Hsuc' & Hcl'). split.
  - intros r [->%elem_of_singleton|Hr]%elem_of_union; [by split|auto].
  - exists (Q ∪ Q'). split; [set_solver|by apply closed_union].
Qed.

Lemma judge_spec cond :
  settles_with (fun fuel => judge fuel g blocks cond)
    (fun v => seeds_closed g blocks cond (recursePaths v)).
Proof.
  unfold judge.
  apply (settles_with_foldM (fun fuel => judge_succ fuel g blocks cond)
           (fun v => seeds_closed g blocks cond (recursePaths v))).
  - split; [set_solver|]. exists ∅. split; [done|]. intros x y Hx. set_solver.
  - intros v suc Hsuc Hv. by apply judge_succ_spec.
Qed.

Lemma classify_cond_spec c cond :
  classes_inv g blocks c →
  settles_with (fun fuel => classify_cond fuel g blocks c cond) (classes_inv g blocks).
Proof.
  intros Hc. unfold classify_cond.
  eapply settles_with_bind; [apply judge_spec|].
  intros v Hv. simpl.
  destruct (exExit v && exRecurses v); (eexists; split; [apply settles_ret|]); [|done].
  intros cond' seeds. simpl. rewrite lookup_insert.
  case_decide as Heq.
  - intros [= <-]. subst cond'. split; [set_solver|done].
  - intros Hl. destruct (Hc _ _ Hl) as [? ?]. split; [set_solver|done].
Qed.

Lemma classify_spec :
  settles_with (fun fuel => classify fuel g blocks) (classes_inv g blocks).
Proof.
  unfold classify.
  apply (settles_with_foldM (fun fuel => classify_cond fuel g blocks) (classes_inv g blocks)).
  - intros cond seeds. simpl. by rewrite lookup_empty.
  - intros c cond _ Hc. by apply classify_cond_spec.
Qed.

End classify.

(** *** The body walk *)

Lemma sum_list_with_le {A} (f h : A → nat) l :
  (∀ e, e ∈ l → (f e ≤ h e)%nat) → (sum_list_with f l ≤ sum_list_with h l)%nat.
Proof.
  induction l as [|e l IH]; intros H; simpl; [lia|].
  pose proof (H e (list_elem_of_here _ _)).
  assert (sum_list_with f l ≤ sum_list_with h l)%nat; [|lia].
  apply IH. intros e' He'. apply H. by apply list_elem_of_further.
Qed.

Lemma sum_list_with_bound {A} (f : A → nat) l c :
  (∀ e, e ∈ l → (f e ≤ c)%nat) → (sum_list_with f l ≤ length l * c)%nat.
Proof.
  induction l as [|e l IH]; intros H; simpl; [lia|].
  pose proof (H e (list_elem_of_here _ _)).
  assert (sum_list_with f l ≤ length l * c)%nat; [|lia].
  apply IH. intros e' He'. apply H. by apply list_elem_of_further.
Qed.

Lemma weight_mono d u u' : (u ≤ u')%nat → (weight d u ≤ weight d u')%nat.
Proof.
  induction 1 as [|u' _ IH]; [done|]. simpl. lia.
Qed.

Section walk.
Variable g : CFG.
Variables blocks valid U : gset ptr.
Variable d : nat.
Variable R : ptr → Prop.
Hypothesis HU : ∀ x y, x ∈ U → y ∈ successors g x → (y ∉ valid) → y ∈ U ∧ y ∈ blocks.
Hypothesis Hd : ∀ x, x ∈ U → (length (successors g x) ≤ d)%nat.
Hypothesis HR : ∀ x y, R x → y ∈ successors g x → y ∈ blocks → (y ∉ valid) → R y.

Lemma walk_pushes vis l q :
  fold_left (walk_succ valid vis) l q
  = q ++ filter (fun y => (y ∉ valid) ∧ (y ∉ vis)) l.
Proof.
  revert q. induction l as [|y l IH]; intros q; simpl.
  - by rewrite app_nil_r.
  - rewrite IH. unfold walk_succ. rewrite filter_cons.
    destruct (decide (y ∈ valid)) as [Hv|Hv].
    + rewrite decide_False by tauto. done.
    + destruct (decide (y ∈ vis)) as [Hs|Hs].
      * rewrite decide_False by tauto. done.
      * rewrite decide_True by tauto. by rewrite <- app_assoc.
Qed.

Lemma potential_step a rest vis :
  a ∈ U →
  (potential d U ({[a]} ∪ vis)
     (rest ++ filter (fun y => (y ∉ valid) ∧ (y ∉ {[a]} ∪ vis)) (successors g a))
   < potential d U vis (a :: rest))%nat.
Proof.
  intros Ha. unfold potential. rewrite sum_list_with_app. simpl.
  set (u' := size (U ∖ ({[a]} ∪ vis))).
  assert (Hpop : (S d * weight d u' + 1 ≤ entry_weight d U vis a)%nat).
  { unfold entry_weight. destruct (decide (a ∈ vis)) as [Hin|Hin].
    - replace (U ∖ vis) with (U ∖ ({[a]} ∪ vis)) by (f_equal; set_solver).
      fold u'. replace (u' + 1)%nat with (S u') by lia. done.
    - rewrite (size_remove_one (U ∖ vis) a) by set_solver.
      replace ((U ∖ vis) ∖ {[a]}) with (U ∖ ({[a]} ∪ vis)) by set_solver.
      fold u'. rewrite Nat.add_0_r. done. }
  assert (Hrest : (sum_list_with (entry_weight d U ({[a]} ∪ vis)) rest
                   ≤ sum_list_with (entry_weight d U vis) rest)%nat).
  { apply sum_list_with_le. intros e _. unfold entry_weight. apply weight_mono.
    fold u'. destruct (decide (a ∈ vis)) as [Hin|Hin].
    - replace (U ∖ vis) with (U ∖ ({[a]} ∪ vis)) by (f_equal; set_solver).
      fold u'. destruct (decide (e ∈ {[a]} ∪ vis)), (decide (e ∈ vis)); set_solver by lia.
    - rewrite (size_remove_one (U ∖ vis) a) by set_solver.
      replace ((U ∖ vis) ∖ {[a]}) with (U ∖ ({[a]} ∪ vis)) by set_solver.
      fold u'. destruct (decide (e ∈ {[a]} ∪ vis)), (decide (e ∈ vis)); lia. }
  assert (Hnew : (sum_list_with (entry_weight d U ({[a]} ∪ vis))
                    (filter (fun y => (y ∉ valid) ∧ (y ∉ {[a]} ∪ vis)) (successors g a))
                  ≤ d * weight d u')%nat).
  { etrans; [apply (sum_list_with_bound _ _ (weight d u'))|].
    - intros e [[_ He] _]%list_elem_of_filter. unfold entry_weight. fold u'.
      rewrite decide_False by done. by rewrite Nat.add_0_r.
    - apply Nat.mul_le_mono_r. etrans; [apply length_filter|by apply Hd]. }
  lia.
Qed.

Lemma walk_loop_spec n : ∀ st,
  (potential d U (visited st) (processing st) ≤ n)%nat →
  (∀ x, x ∈ processing st → x ∈ U ∧ R x) →
  settles_with (fun fuel => walk_loop fuel g blocks valid st)
    (fun r => ∀ t, t ∈ wBody r → t ∈ wBody st ∨ (t ∈ blocks ∧ R t)).
Proof.
  induction n as [|n IH]; intros st Hn Hq.
  - destruct (processing st) as [|a rest] eqn:Hp.
    + exists st. split; [|by left].
      exists 0%nat. intros fuel _. destruct fuel; simpl; by rewrite Hp.
    + destruct (Hq a (list_elem_of_here _ _)) as [Ha _].
      pose proof (potential_step a rest (visited st) Ha). lia.
  - destruct (processing st) as [|a rest] eqn:Hp.
    + exists st. split; [|by left].
      exists 0%nat. intros fuel _. destruct fuel; simpl; by rewrite Hp.
    + destruct (Hq a (list_elem_of_here _ _)) as [Ha HRa].
      set (st0 := {| processing := rest; visited := visited st; wBody := wBody st |}).
      destruct (IH (walk_block g blocks valid a st0)) as (r & [m Hr] & Hpost).
      * unfold walk_block. simpl. rewrite walk_pushes.
        pose proof (potential_step a rest (visited st) Ha). lia.
      * unfold walk_block. simpl. rewrite walk_pushes.
        intros x [Hx|Hx]%elem_of_app.
        -- apply Hq. by apply list_elem_of_further.
        -- apply list_elem_of_filter in Hx as [[Hv _] Hx].
           destruct (HU a x Ha Hx Hv). split; [done|]. by eapply HR.
      * exists r. split.
        -- exists (S m). intros fuel Hf. destruct fuel as [|fuel]; [lia|].
           simpl. rewrite Hp. apply Hr. lia.
        -- intros t Ht. destruct (Hpost t Ht) as [Hb|?]; [|by right].
           unfold walk_block in Hb. simpl in Hb.
           destruct (decide (a ∈ wBody st)); [by left|].
           destruct (decide (a ∈ blocks)); [|by left].
           apply elem_of_union in Hb as [->%elem_of_singleton|?]; [by right|by left].
Qed.

End walk.

(** *** The whole of [GetConditional] *)

Section whole.
Variable g : CFG.
Variable blocks : gset ptr.

Lemma degree_bound (Q : gset ptr) :
  ∃ d, ∀ x, x ∈ Q → (length (successors g x) ≤ d)%nat.
Proof.
  exists (max_list ((fun x => length (successors g x)) <$> elements Q)).
  intros x Hx. apply max_list_elem_of_le, list_elem_of_fmap.
  exists x. split; [done|]. by apply elem_of_elements.
Qed.

Lemma walk_from_spec cl cb b :
  classes_inv g blocks cl →
  settles_with (fun fuel => walk_from fuel g blocks cl cb b)
    (fun cb' => cb'.1 = {[b]} ∪ cb.1 ∧
                ∀ t, t ∈ cb'.2 →
                     t ∈ cb.2 ∨ (t ∈ blocks ∧ walked g blocks (validConditions cl) t)).
Proof.
  intros Hcl. unfold walk_from.
  set (seeds := default ∅ (recurseDict cl !! b)).
  set (st := {| processing := set_iter seeds; visited := validConditions cl ∪ seeds;
                wBody := cb.2 |}).
  assert (HQ : b ∈ validConditions cl ∧ seeds_closed g blocks b seeds ∨ seeds = ∅).
  { subst seeds. destruct (recurseDict cl !! b) as [s|] eqn:E; [left|by right].
    by apply Hcl. }
  assert (Hwalk : settles_with (fun fuel => walk_loop fuel g blocks (validConditions cl) st)
            (fun r => ∀ t, t ∈ wBody r →
                           t ∈ cb.2 ∨ (t ∈ blocks ∧ walked g blocks (validConditions cl) t))).
  { destruct HQ as [[Hb (Hpure & Q & Hsub & Hclosed)]|Hempty].
    - destruct (degree_bound Q) as [d Hd].
      apply (walk_loop_spec g blocks (validConditions cl) Q d
               (fun t => ∃ r, r ∈ seeds ∧ confined_reach g blocks (validConditions cl) r t)
               ) with (n := potential d Q (visited st) (processing st)) (st := st) in Hd.
      + eapply settles_with_impl; [exact Hd|]. simpl.
        intros r Hr t Ht. destruct (Hr t Ht) as [?|[? (s & Hs & Hreach)]]; [by left|right].
        split; [done|]. exists b, s. auto.
      + intros x y Hx Hy Hv. destruct (Hclosed x y Hx Hy) as [? [->|?]]; done.
      + intros x y (r & Hr & Hreach) Hy Hyb Hv. exists r. split; [done|].
        by eapply reach_step.
      + done.
      + simpl. intros x Hx%elem_of_set_iter. split; [set_solver|].
        exists x. split; [done|constructor].
    - exists st. split; [|by left]. exists 0%nat. intros fuel _.
      assert (Hp : set_iter seeds = []).
      { rewrite Hempty. apply length_zero_iff_nil.
        rewrite set_iter_perm. by rewrite elements_empty. }
      destruct fuel; simpl; by rewrite Hp. }
  eapply settles_with_bind; [exact Hwalk|].
  intros r Hr. eexists. split; [apply settles_ret|]. by split.
Qed.

Lemma walks_spec cl l cb :
  classes_inv g blocks cl →
  settles_with (fun fuel => foldM (walk_from fuel g blocks cl) l cb)
    (fun cb' => cb'.1 = list_to_set l ∪ cb.1 ∧
                ∀ t, t ∈ cb'.2 →
                     t ∈ cb.2 ∨ (t ∈ blocks ∧ walked g blocks (validConditions cl) t)).
Proof.
  intros Hcl. revert cb. induction l as [|b l IH]; intros cb; simpl.
  - exists cb. split; [apply settles_ret|]. split; [set_solver|by left].
  - apply (settles_with_bind (fun fuel => walk_from fuel g blocks cl cb b)
             (fun cb' fuel => foldM (walk_from fuel g blocks cl) l cb')
             (fun cb' => cb'.1 = {[b]} ∪ cb.1 ∧
                ∀ t, t ∈ cb'.2 →
                     t ∈ cb.2 ∨ (t ∈ blocks ∧ walked g blocks (validConditions cl) t))).
    + by apply walk_from_spec.
    + intros cb1 [H1 H2]. eapply settles_with_impl; [apply IH|]. simpl.
      intros cb2 [H3 H4]. split; [rewrite H3, H1; set_solver|].
      intros t Ht. destruct (H4 t Ht) as [?|?]; auto.
Qed.

Lemma termination_spec (body : gset ptr) l (t0 : gset ptr) x :
  x ∈ fold_left (fun t block => if decide (block ∈ body) then t else {[block]} ∪ t) l t0
  ↔ x ∈ t0 ∨ (x ∈ l ∧ (x ∉ body)).
Proof.
  revert t0. induction l as [|b l IH]; intros t0; simpl.
  - rewrite elem_of_nil. tauto.
  - rewrite IH, elem_of_cons. destruct (decide (b ∈ body)) as [Hb|Hb].
    + split; [tauto|]. intros [?|[[->|?] ?]]; tauto.
    + rewrite elem_of_union, elem_of_singleton. split; [|tauto].
      intros [[->|?]|?]; tauto.
Qed.

(** C6: [GetConditional] ends, and a block is marked [Body] only when it lies
    in the region and is reached from a pure-recursing successor of a valid
    conditional along edges whose destination lies in the region and is not a
    valid conditional; every other block of the region lands in
    [Termination]. *)
Theorem body_walk_confined (k : Region) :
  ∃ cl k',
    settles (fun fuel => classify fuel g blocks) cl ∧
    settles (fun fuel => GetConditional fuel g blocks k) k' ∧
    Conditional k' = validConditions cl ∪ Conditional k ∧
    (∀ t, t ∈ Body k' →
          t ∈ Body k ∨ (t ∈ blocks ∧ walked g blocks (validConditions cl) t)) ∧
    (∀ t, t ∈ Termination k' ↔ t ∈ Termination k ∨ (t ∈ blocks ∧ (t ∉ Body k'))).
Proof.
  destruct (classify_spec g blocks) as (cl & Hcl & Hinv).
  destruct (walks_spec cl (set_iter (validConditions cl)) (Conditional k, Body k) Hinv)
    as (cb & Hcb & Hc1 & Hc2).
  exists cl. eexists. split; [done|]. split_and!.
  - unfold GetConditional.
    eapply settles_bind; [exact Hcl|]. eapply settles_bind; [exact Hcb|].
    apply settles_ret.
  - simpl. rewrite Hc1. simpl. f_equal. apply set_eq. intros x.
    by rewrite elem_of_list_to_set, elem_of_set_iter.
  - exact Hc2.
  - intros t. simpl. rewrite termination_spec, elem_of_set_iter. done.
Qed.

End whole.

Lemma body_walk_confined_witness :
  ∃ cl k',
    settles (fun fuel => classify fuel outside_seed_cfg outside_seed_blocks) cl ∧
    settles (fun fuel => GetConditional fuel outside_seed_cfg outside_seed_blocks
                           empty_region) k' ∧
    Conditional k' = validConditions cl ∪ Conditional empty_region ∧
    (∀ t, t ∈ Body k' →
          t ∈ Body empty_region ∨
          (t ∈ outside_seed_blocks ∧
           walked outside_seed_cfg outside_seed_blocks (validConditions cl) t)) ∧
    (∀ t, t ∈ Termination k' ↔
          t ∈ Termination empty_region ∨ (t ∈ outside_seed_blocks ∧ (t ∉ Body k'))).
Proof. exact (body_walk_confined outside_seed_cfg outside_seed_blocks empty_region). Defined.

(** The walk of block 1 starts at block 5, outside the region, which is not
    marked; block 4 is reached from it by an edge that ends in the region. *)
Example outside_seed_walk :
  ∃ k', GetConditional 10 outside_seed_cfg outside_seed_blocks empty_region = Some k' ∧
        elements (Conditional k') = [1] ∧ elements (Body k') = [4] ∧
        elements (Termination k') = [1].
Proof. eexists. split; [vm_compute; reflexivity|]. split_and!; vm_compute; reflexivity. Qed.

End CondFacts.

(** ** Kernel building *)

Module BuildFacts.
Import Build.

(** C4 at a nested entrance: block 10 is the entrance of the child kernel.
    Whether the analyser had put it into [Body] or into [Termination], the
    intermediate block that [VMap] takes it to is in neither set after
    [BuildKernel]: it is inserted and erased again at once. *)
Theorem intermediate_block_not_placed :
  (∃ st', BuildKernel parent_context parent_blocks (parent_before {[10]} {[20]}) = Ok st' ∧
          image st' 10 = Some 200 ∧ (200 ∉ Body st') ∧
          ¬ placed_like (parent_before {[10]} {[20]}) st' 10) ∧
  (∃ st', BuildKernel parent_context parent_blocks (parent_before ∅ {[10; 20]}) = Ok st' ∧
          image st' 10 = Some 200 ∧ (200 ∉ Termination st') ∧
          ¬ placed_like (parent_before ∅ {[10; 20]}) st' 10).
Proof.
  split.
  - eexists. split; [vm_compute; reflexivity|].
    split; [reflexivity|]. split; [compute_done|].
    intros (ib & Him & Hb & _).
    assert (ib = 200) as -> by (vm_compute in Him; congruence).
    revert Hb. compute_done.
  - eexists. split; [vm_compute; reflexivity|].
    split; [reflexivity|]. split; [compute_done|].
    intros (ib & Him & _ & Ht).
    assert (ib = 200) as -> by (vm_compute in Him; congruence).
    revert Ht. compute_done.
Qed.

End BuildFacts.

(** ** The inliner's entrance block *)

Module InlineFacts.
Import Inline.

(** C1 at two call sites: while the call at 31 is inlined, the phi of the
    formal argument takes the actual argument of that call for both
    predecessors, so the call site in block 40, which passes 2, is fed 1. *)
Theorem arg_phi_repeats_first_actual :
  ∃ e, entrance_block two_calls 300 31 7 ∅ ∅ = Ok e ∧
       callUses e = [31; 41] ∧
       arg_phi e 0 = Some (PHI (IntTy 32) [(ConstantInt 32 1, 30); (ConstantInt 32 1, 40)]) ∧
       own_actuals two_calls e 0 = [(ConstantInt 32 1, 30); (ConstantInt 32 2, 40)].
Proof. eexists. split; [reflexivity|]. split_and!; reflexivity. Qed.

End InlineFacts.

(** ** External values and the kernel function's signature *)

Module SigFacts.
Import Sig.

Lemma push_new_NoDup l v : NoDup l → NoDup (push_new l v).
Proof.
  intros Hl. unfold push_new. case_decide; [done|].
  apply NoDup_app. split_and!; [done| |apply NoDup_singleton].
  intros x Hx ->%list_elem_of_singleton. done.
Qed.

Lemma external_operand_NoDup ir blocks vmap inst ev op :
  NoDup ev → NoDup (external_operand ir blocks vmap inst ev op).
Proof.
  intros Hev. destruct op; simpl; try done.
  - case_decide; [done|by apply push_new_NoDup].
  - destruct inst; try by apply push_new_NoDup.
    destruct (KfMap ir !! callee); [|done].
    apply fold_left_preserves; [|done].
    intros a b Ha. destruct (vmap !! b); [done|by apply push_new_NoDup].
Qed.

(** The list of external values never holds a value twice. *)
Lemma GetExternalValues_NoDup ir blocks vmap ev :
  NoDup ev → NoDup (GetExternalValues ir blocks vmap ev).
Proof.
  intros Hev. unfold GetExternalValues.
  apply fold_left_preserves; [|done]. intros a bb Ha.
  apply fold_left_preserves; [|done]. intros a' inst Ha'.
  apply fold_left_preserves; [|done]. intros a'' op Ha''.
  by apply external_operand_NoDup.
Qed.

Lemma inputArgs_eq ir ev : inputArgs ir ev = IntTy 8 :: (getType ir <$> ev).
Proof.
  unfold inputArgs.
  enough (H : ∀ acc, fold_left (λ args inst, args ++ [getType ir inst]) ev acc
                     = acc ++ (getType ir <$> ev)) by apply H.
  induction ev as [|e ev IH]; intros acc; simpl.
  - by rewrite app_nil_r.
  - rewrite IH. by rewrite <- app_assoc.
Qed.

Lemma bind_arguments_spec kf ev maps n :
  NoDup ev → (n ≤ length ev)%nat →
  let maps' := fold_left (bind_argument kf ev) (seq 0 n) maps in
  ∀ i e, (i < n)%nat → ev !! i = Some e →
    maps'.1 !! e = Some (Arg kf (S i)) ∧ maps'.2 !! Arg kf (S i) = Some e.
Proof.
  intros Hnd. induction n as [|n IH]; intros Hn maps' i e Hi He; [lia|].
  subst maps'. rewrite seq_S, fold_left_app. simpl.
  specialize (IH ltac:(lia)). simpl in IH.
  set (m := fold_left (bind_argument kf ev) (seq 0 n) maps) in *.
  assert (Hstep : bind_argument kf ev m n =
                  match ev !! n with
                  | Some e => (<[e := Arg kf (S n)]> m.1, <[Arg kf (S n) := e]> m.2)
                  | None => m
                  end) by reflexivity.
  rewrite Hstep. clear Hstep.
  destruct (ev !! n) as [en|] eqn:Hen; simpl.
  - destruct (decide (i = n)) as [->|Hne].
    + simplify_eq. by rewrite !lookup_insert_eq.
    + destruct (IH i e ltac:(lia) He) as [H1 H2].
      rewrite !lookup_insert_ne; [done|congruence|].
      intros ->. apply Hne. by eapply NoDup_lookup.
  - apply lookup_ge_None in Hen. lia.
Qed.

(** At its creation the kernel function has type [i8 (i8, T1, ..., Tn)], [Ti]
    being the type of the [i]-th external value, and its [i+1]-th formal
    argument is bound to that value in both [VMap] and [ArgumentMap]. *)
Lemma kernel_function_signature ir blocks kf vmap amap :
  let K := create_kernel_function ir blocks kf vmap amap in
  funcType K = {| returnType := IntTy 8;
                  paramTypes := IntTy 8 :: (getType ir <$> ExternalValues K) |} ∧
  length (paramTypes (funcType K)) = S (length (ExternalValues K)) ∧
  ∀ i e, ExternalValues K !! i = Some e →
    paramTypes (funcType K) !! S i = Some (getType ir e) ∧
    VMap K !! e = Some (Arg kf (S i)) ∧
    ArgumentMap K !! Arg kf (S i) = Some e.
Proof.
  simpl. rewrite inputArgs_eq. split; [done|]. split.
  { simpl. by rewrite length_fmap. }
  intros i e He. split.
  - simpl. by rewrite list_lookup_fmap, He.
  - apply bind_arguments_spec; [|done| |done].
    + apply GetExternalValues_NoDup. constructor.
    + by eapply lookup_lt_Some.
Qed.

Example kernel_function_signature_one_block :
  funcType (create_kernel_function one_block {[1]} 700 ∅ ∅)
  = {| returnType := IntTy 8; paramTypes := [IntTy 8; IntTy 32; PointerTy (IntTy 8)] |} ∧
  VMap (create_kernel_function one_block {[1]} 700 ∅ ∅) !! Inst 50 = Some (Arg 700 1) ∧
  ArgumentMap (create_kernel_function one_block {[1]} 700 ∅ ∅) !! Arg 700 2
  = Some (Arg 2 0).
Proof.
  destruct (kernel_function_signature one_block {[1]} 700 ∅ ∅) as (Hty & _ & Hbind).
  split; [exact Hty|]. split.
  - exact (proj1 (proj2 (Hbind 0%nat (Inst 50) eq_refl))).
  - exact (proj2 (proj2 (Hbind 1%nat (Arg 2 0) eq_refl))).
Qed.




End SigFacts.

(** ** The memory selector functions *)

Module MemFacts.
Import Mem.

Lemma length_value_iter addr (s : gset Value) : length (value_iter addr s) = size s.
Proof. unfold value_iter. by rewrite merge_sort_Permutation. Qed.

Lemma elem_of_value_iter addr (s : gset Value) v : v ∈ value_iter addr s ↔ v ∈ s.
Proof. unfold value_iter. rewrite merge_sort_Permutation. apply elem_of_elements. Qed.

Lemma value_iter_empty addr : value_iter addr ∅ = [].
Proof. apply length_zero_iff_nil. by rewrite length_value_iter. Qed.

Lemma no_loads_empty kf : no_loads kf → loadValues kf = ∅.
Proof.
  intros H. unfold loadValues. apply set_eq. intros v.
  rewrite elem_of_list_to_set, list_elem_of_omap. split; [|set_solver].
  intros (ai & Hin & Hv). destruct (ai.2) eqn:E; simplify_eq.
  by destruct (H ai v Hin).
Qed.

Lemma no_stores_empty kf : no_stores kf → storeValues kf = ∅.
Proof.
  intros H. unfold storeValues. apply set_eq. intros v.
  rewrite elem_of_list_to_set, list_elem_of_omap. split; [|set_solver].
  intros (ai & Hin & Hv). destruct (ai.2) eqn:E; simplify_eq.
  by destruct (H ai value v Hin).
Qed.

(** C8: a kernel function without loads gets a [MemoryRead] of one block that
    returns the [i64] constant 0, and the warning is logged; the same holds of
    stores and [MemoryWrite]. *)
Theorem empty_helper_returns_zero addr kf st :
  (no_loads kf →
     returns_zero (MemoryRead (GetMemoryFunctions addr kf st)) ∧
     "Empty kernel read encountered" ∈ log (after (GetMemoryFunctions addr kf st)) ∧
     ∀ mem arg, call (MemoryRead (GetMemoryFunctions addr kf st)) mem arg = Some 0) ∧
  (no_stores kf →
     returns_zero (MemoryWrite (GetMemoryFunctions addr kf st)) ∧
     "Empty kernel write encountered" ∈ log (after (GetMemoryFunctions addr kf st)) ∧
     ∀ mem arg, call (MemoryWrite (GetMemoryFunctions addr kf st)) mem arg = Some 0).
Proof.
  split.
  - intros H%no_loads_empty. unfold GetMemoryFunctions, returns_zero.
    rewrite H, value_iter_empty. simpl. split_and!; [by eexists| |done].
    set (w := fold_left _ _ _).
    assert (Hlog : "Empty kernel read encountered" ∈ log (k w)).
    { subst w.
      apply (fold_left_preserves (fun st => "Empty kernel read encountered" ∈ log (k st)));
        [|simpl; set_solver].
      intros c v Hc. unfold write_link, promote.
      destruct (GlobalMap (k c) !! v) eqn:E; simpl; rewrite ?E, ?lookup_insert_eq; simpl;
        by destruct (priorValue c). }
    revert Hlog. unfold close. destruct (priorValue w); simpl; set_solver.
  - intros H%no_stores_empty. unfold GetMemoryFunctions, returns_zero.
    rewrite H, value_iter_empty. simpl. split_and!; [by eexists|set_solver|done].
Qed.

Lemma empty_helper_returns_zero_witness :
  no_loads pure_kernel ∧ no_stores pure_kernel ∧
  returns_zero (MemoryRead (GetMemoryFunctions address pure_kernel fresh_kernel)) ∧
  returns_zero (MemoryWrite (GetMemoryFunctions address pure_kernel fresh_kernel)).
Proof.
  assert (H1 : no_loads pure_kernel).
  { intros ai p Hin. simpl in Hin.
    apply elem_of_cons in Hin as [->|Hin]; [discriminate|].
    apply elem_of_cons in Hin as [->|Hin]; [discriminate|].
    by apply elem_of_nil in Hin. }
  assert (H2 : no_stores pure_kernel).
  { intros ai v p Hin. simpl in Hin.
    apply elem_of_cons in Hin as [->|Hin]; [discriminate|].
    apply elem_of_cons in Hin as [->|Hin]; [discriminate|].
    by apply elem_of_nil in Hin. }
  split; [exact H1|]. split; [exact H2|]. split.
  - exact (proj1 (proj1 (empty_helper_returns_zero address pure_kernel fresh_kernel) H1)).
  - exact (proj1 (proj2 (empty_helper_returns_zero address pure_kernel fresh_kernel) H2)).
Defined.

Lemma select_link_run f mem arg env g idx prior a v0 :
  (∀ b, is_Some (env !! b) → b < a) →
  match prior with
  | None => True
  | Some pv => ∃ p, pv = Inst p ∧ env !! p = Some v0 ∧ arg ≠ i64 idx
  end →
  ∃ env' p', (select_link f g idx prior a).2 = Inst p' ∧
    (∀ rest, run f mem arg env ((select_link f g idx prior a).1 ++ rest)
             = run f mem arg env' rest) ∧
    (∀ b, is_Some (env' !! b) → b < a + Z.of_nat (length (select_link f g idx prior a).1)) ∧
    env' !! p' = Some (match prior with None => i64 (mem g) | Some _ => v0 end).
Proof.
  intros Hfresh Hprior. destruct prior as [pv|]; simpl.
  - destruct Hprior as (p & -> & Hp & Hne).
    assert (p < a) by (apply Hfresh; by rewrite Hp).
    exists (<[a + 3 := v0]> (<[a + 2 := 0]> (<[a + 1 := i64 (mem g)]> (<[a := mem g]> env)))),
           (a + 3).
    split_and!; [done| | |by rewrite lookup_insert_eq].
    + intros rest. rewrite lookup_insert_eq. simpl.
      destruct (decide (f = f)) as [_|?]; [simpl|done].
      change (idx mod 2 ^ 64) with (i64 idx).
      destruct (decide (arg = i64 idx)) as [?|_]; [done|].
      rewrite lookup_insert_eq. simpl.
      rewrite (lookup_insert_ne _ (a + 2) (a + 1)) by lia.
      rewrite lookup_insert_eq. simpl.
      rewrite !(lookup_insert_ne _ _ p) by lia. rewrite Hp. simpl.
      by destruct (decide (0 = 0)).
    + intros b. rewrite !lookup_insert_is_Some'.
      intros [<-|[<-|[<-|[<-|Hb']]]]; try lia. apply Hfresh in Hb'. lia.
  - exists (<[a + 1 := i64 (mem g)]> (<[a := mem g]> env)), (a + 1).
    split_and!; [done| | |by rewrite lookup_insert_eq].
    + intros rest. by rewrite lookup_insert_eq.
    + intros b. rewrite !lookup_insert_is_Some'.
      intros [<-|[<-|Hb']]; try lia. apply Hfresh in Hb'. lia.
Qed.

Lemma promote_next v st : next st ≤ next (promote v st).
Proof. unfold promote. destruct (GlobalMap st !! v); simpl; lia. Qed.

Lemma promote_lookup v st : is_Some (GlobalMap (promote v st) !! v).
Proof.
  unfold promote. destruct (GlobalMap st !! v) eqn:E; simpl.
  - by rewrite E.
  - by rewrite lookup_insert_eq.
Qed.

Lemma promote_tables v st :
  LoadMap (promote v st) = LoadMap st ∧ StoreMap (promote v st) = StoreMap st.
Proof. unfold promote. by destruct (GlobalMap st !! v). Qed.

Section chain.
Variable f : ptr.
Variable mem : ptr → Z.
Variable arg : Z.

Lemma read_link_inv st v :
  chain_inv f mem arg LoadMap st → (1 ≤ i st → arg ≠ i64 (i st)) →
  chain_inv f mem arg LoadMap (read_link f st v) ∧ i (read_link f st v) = i st + 1.
Proof.
  intros (env & Hrun & Hfresh & Hi & Hprior) Hne. unfold read_link.
  pose proof (promote_next v (k st)) as Hnext.
  destruct (promote_lookup v (k st)) as [g Hg].
  destruct (promote_tables v (k st)) as [HL _].
  set (k1 := promote v (k st)) in *. rewrite Hg. simpl.
  destruct (select_link_run f mem arg env g (i st) (priorValue st) (next k1)
              (match priorValue st with
               | Some _ => i64 (mem (default 0 (LoadMap (k st) !! 0)))
               | None => 0
               end)) as (env' & p' & Hpv & Hrun' & Hfresh' & Hp').
  { intros b Hb. apply Hfresh in Hb. lia. }
  { destruct (priorValue st) as [pv|]; [|done].
    destruct Hprior as (Hpos & p & g0 & -> & Hg0 & Hp).
    exists p. rewrite Hg0. simpl. split_and!; [done..|]. apply Hne. lia. }
  destruct (select_link f g (i st) (priorValue st) (next k1)) as [new prior] eqn:Hsl.
  simpl in *. subst prior. split; [|done].
  exists env'. simpl. split_and!.
  - intros rest. by rewrite <- app_assoc, Hrun, Hrun'.
  - done.
  - lia.
  - lia.
  - destruct (priorValue st) as [pv|].
    + destruct Hprior as (Hpos & p & g0 & -> & Hg0 & Hp).
      exists p', g0. rewrite lookup_insert_ne by lia. rewrite HL.
      split_and!; [done..|]. by rewrite Hp', Hg0.
    + exists p', g. rewrite Hprior, lookup_insert_eq. by rewrite Hp'.
Qed.

Lemma write_link_inv st v :
  chain_inv f mem arg StoreMap st → (1 ≤ i st → arg ≠ i64 (i st)) →
  chain_inv f mem arg StoreMap (write_link f st v) ∧ i (write_link f st v) = i st + 1 ∧
  LoadMap (k (write_link f st v)) = LoadMap (k st).
Proof.
  intros (env & Hrun & Hfresh & Hi & Hprior) Hne. unfold write_link.
  pose proof (promote_next v (k st)) as Hnext.
  destruct (promote_lookup v (k st)) as [g Hg].
  destruct (promote_tables v (k st)) as [HL HS].
  set (k1 := promote v (k st)) in *. rewrite Hg.
  destruct (select_link_run f mem arg env g (i st) (priorValue st) (next k1)
              (match priorValue st with
               | Some _ => i64 (mem (default 0 (StoreMap (k st) !! 0)))
               | None => 0
               end)) as (env' & p' & Hpv & Hrun' & Hfresh' & Hp').
  { intros b Hb. apply Hfresh in Hb. lia. }
  { destruct (priorValue st) as [pv|]; [|done].
    destruct Hprior as (Hpos & p & g0 & -> & Hg0 & Hp).
    exists p. rewrite Hg0. simpl. split_and!; [done..|]. apply Hne. lia. }
  destruct (select_link f g (i st) (priorValue st) (next k1)) as [new prior] eqn:Hsl.
  simpl in *. subst prior. split; [|done].
  exists env'. simpl. split_and!.
  - intros rest. by rewrite <- app_assoc, Hrun, Hrun'.
  - done.
  - lia.
  - lia.
  - destruct (priorValue st) as [pv|].
    + destruct Hprior as (Hpos & p & g0 & -> & Hg0 & Hp).
      exists p', g0. rewrite lookup_insert_ne by lia. rewrite HS.
      split_and!; [done..|]. by rewrite Hp', Hg0.
    + exists p', g. rewrite Hprior, lookup_insert_eq. by rewrite Hp'.
Qed.

Lemma read_chain_inv vs st :
  chain_inv f mem arg LoadMap st →
  (∀ j, 1 ≤ j < i st + Z.of_nat (length vs) → arg ≠ i64 j) →
  chain_inv f mem arg LoadMap (fold_left (read_link f) vs st) ∧
  i (fold_left (read_link f) vs st) = i st + Z.of_nat (length vs).
Proof.
  revert st. induction vs as [|v vs IH]; intros st Hinv Hne; simpl.
  - split; [done|lia].
  - assert (0 ≤ i st) by (destruct Hinv as (? & ? & ? & ? & ?); done).
    destruct (read_link_inv st v Hinv) as [Hinv' Hi'].
    { intros ?. apply Hne. simpl length. lia. }
    destruct (IH _ Hinv') as [? ?].
    { intros j Hj. apply Hne. simpl length. lia. }
    split; [done|]. simpl length. lia.
Qed.

Lemma write_chain_inv vs st :
  chain_inv f mem arg StoreMap st →
  (∀ j, 1 ≤ j < i st + Z.of_nat (length vs) → arg ≠ i64 j) →
  chain_inv f mem arg StoreMap (fold_left (write_link f) vs st) ∧
  i (fold_left (write_link f) vs st) = i st + Z.of_nat (length vs) ∧
  LoadMap (k (fold_left (write_link f) vs st)) = LoadMap (k st).
Proof.
  revert st. induction vs as [|v vs IH]; intros st Hinv Hne; simpl.
  - split_and!; [done|lia|done].
  - assert (0 ≤ i st) by (destruct Hinv as (? & ? & ? & ? & ?); done).
    destruct (write_link_inv st v Hinv) as (Hinv' & Hi' & HL').
    { intros ?. apply Hne. simpl length. lia. }
    destruct (IH _ Hinv') as (? & ? & HL).
    { intros j Hj. apply Hne. simpl length. lia. }
    split_and!; [done| |congruence]. simpl length. lia.
Qed.

(** A closed, non-empty chain returns the converted pointer of index 0. *)
Lemma close_run table warning st :
  chain_inv f mem arg table st → 0 < i st →
  ∃ g0, table (k st) !! 0 = Some g0 ∧
        run f mem arg ∅ (code (close warning st)) = Some (i64 (mem g0)).
Proof.
  intros (env & Hrun & Hfresh & Hi & Hprior) Hpos. unfold close.
  destruct (priorValue st) as [pv|]; [|lia].
  destruct Hprior as (_ & p & g0 & -> & Hg0 & Hp).
  exists g0. simpl. split; [done|]. rewrite Hrun. simpl. exact Hp.
Qed.

End chain.

Lemma close_tables warning st :
  LoadMap (k (close warning st)) = LoadMap (k st) ∧
  StoreMap (k (close warning st)) = StoreMap (k st).
Proof. unfold close. by destruct (priorValue st). Qed.

Lemma chain_inv_start f mem arg table k0 :
  chain_inv f mem arg table
    {| i := 0; code := []; priorValue := None; indexMap := ∅; k := k0 |}.
Proof.
  exists ∅. simpl. split_and!; try done.
  intros b [? Hb]. by rewrite lookup_empty in Hb.
Qed.

(** C9: when the kernel function has loads, [MemoryRead] called with an
    argument that is none of the index constants 1 .. n-1 returns the
    converted value of the pointer held by the global of index 0; the same
    holds of stores and [MemoryWrite]. *)
Theorem selector_falls_back_to_index_0 addr kf st mem arg :
  (loadValues kf ≠ ∅ → unassigned (size (loadValues kf)) arg →
     ∃ g0, LoadMap (after (GetMemoryFunctions addr kf st)) !! 0 = Some g0 ∧
           call (MemoryRead (GetMemoryFunctions addr kf st)) mem arg = Some (i64 (mem g0))) ∧
  (storeValues kf ≠ ∅ → unassigned (size (storeValues kf)) arg →
     ∃ g0, StoreMap (after (GetMemoryFunctions addr kf st)) !! 0 = Some g0 ∧
           call (MemoryWrite (GetMemoryFunctions addr kf st)) mem arg = Some (i64 (mem g0))).
Proof.
  unfold GetMemoryFunctions, call. simpl.
  set (k0 := {| next := next st + 2; GlobalMap := _ |}).
  set (r := fold_left (read_link (next st)) _ _).
  set (w := fold_left (write_link (next st + 1)) _ _).
  split.
  - intros Hne Hun.
    destruct (read_chain_inv (next st) mem arg (value_iter addr (loadValues kf)) _
                (chain_inv_start _ _ _ LoadMap k0)) as [Hinv Hi].
    { simpl. rewrite length_value_iter. intros j Hj. apply Hun. lia. }
    fold r in Hinv, Hi. simpl in Hi. rewrite length_value_iter in Hi.
    assert (0 < i r).
    { rewrite Hi. assert (size (loadValues kf) ≠ 0%nat); [|lia].
      apply size_non_empty_iff. by intros ?%leibniz_equiv. }
    destruct (close_run _ _ _ LoadMap "Empty kernel read encountered" r Hinv)
      as (g0 & Hg0 & Hrun); [done|].
    exists g0. split; [|done].
    destruct (close_tables "Empty kernel write encountered" w) as [-> _].
    destruct (close_tables "Empty kernel read encountered" r) as [HLr _].
    assert (HL : LoadMap (k w) = LoadMap (k (close "Empty kernel read encountered" r))).
    { subst w. apply (fold_left_preserves (fun c => LoadMap (k c) = _)); [|done].
      intros c v Hc. unfold write_link.
      destruct (promote_tables v (k c)) as [HLp _].
      destruct (GlobalMap (promote v (k c)) !! v); [|done].
      destruct (select_link _ _ _ _ _). simpl. congruence. }
    by rewrite HL, HLr.
  - intros Hne Hun.
    destruct (write_chain_inv (next st + 1) mem arg (value_iter addr (storeValues kf)) _
                (chain_inv_start _ _ _ StoreMap
                   (k (close "Empty kernel read encountered" r)))) as (Hinv & Hi & _).
    { simpl. rewrite length_value_iter. intros j Hj. apply Hun. lia. }
    fold w in Hinv, Hi. simpl in Hi. rewrite length_value_iter in Hi.
    assert (0 < i w).
    { rewrite Hi. assert (size (storeValues kf) ≠ 0%nat); [|lia].
      apply size_non_empty_iff. by intros ?%leibniz_equiv. }
    destruct (close_run _ _ _ StoreMap "Empty kernel write encountered" w Hinv)
      as (g0 & Hg0 & Hrun); [done|].
    exists g0. split; [|done].
    by destruct (close_tables "Empty kernel write encountered" w) as [_ ->].
Qed.

Lemma selector_falls_back_to_index_0_witness :
  loadValues memory_kernel ≠ ∅ ∧ unassigned (size (loadValues memory_kernel)) 77 ∧
  ∃ g0, LoadMap (after (GetMemoryFunctions address memory_kernel fresh_kernel)) !! 0 = Some g0 ∧
        call (MemoryRead (GetMemoryFunctions address memory_kernel fresh_kernel))
          (fun g => g * 1000) 77 = Some (i64 (g0 * 1000)).
Proof.
  assert (H1 : loadValues memory_kernel ≠ ∅) by (vm_compute; discriminate).
  assert (H2 : unassigned (size (loadValues memory_kernel)) 77).
  { intros j Hj. change (Z.of_nat (size (loadValues memory_kernel))) with 2 in Hj.
    assert (j = 1) as -> by lia. vm_compute. discriminate. }
  split; [exact H1|]. split; [exact H2|].
  exact (proj1 (selector_falls_back_to_index_0 address memory_kernel fresh_kernel
                  (fun g => g * 1000) 77) H1 H2).
Defined.

End MemFacts.

(** ** The constructor *)

Module CtorFacts.
Import Ctor.

Lemma elem_of_detach f m p : p ∈ detach f m ↔ p ∈ m ∧ Some p ≠ f.
Proof.
  destruct f as [q|]; simpl.
  - rewrite elem_of_difference, elem_of_singleton. split; intros [? ?]; split; congruence.
  - split; [intros ?; by split|tauto].
Qed.

Lemma elem_of_remove_all (l : list (Value * ptr)) (m : gset ptr) p :
  p ∈ fold_left (fun m g => m ∖ {[g.2]}) l m ↔ p ∈ m ∧ (p ∉ l.*2).
Proof.
  revert m. induction l as [|g l IH]; intros m; simpl.
  - split; [intros ?; split; [done|apply not_elem_of_nil]|tauto].
  - rewrite IH, elem_of_difference, elem_of_singleton, not_elem_of_cons. tauto.
Qed.

(** [Cleanup] detaches exactly the kernel function, the two helpers and the
    promoted globals, and logs nothing. *)
Lemma Cleanup_spec m r :
  log (Cleanup m r) = log r ∧
  ∀ p, p ∈ TikModule (Cleanup m r) ↔
       p ∈ TikModule r ∧ Some p ≠ KernelFunction m ∧ Some p ≠ MemoryRead m ∧
       Some p ≠ MemoryWrite m ∧ ∀ v, GlobalMap m !! v ≠ Some p.
Proof.
  split; [done|]. intros p. unfold Cleanup. simpl.
  rewrite elem_of_remove_all, !elem_of_detach.
  assert (p ∉ (map_to_list (GlobalMap m)).*2 ↔ ∀ v, GlobalMap m !! v ≠ Some p) as ->; [|tauto].
  split.
  - intros Hn v Hv. apply Hn. apply list_elem_of_fmap. exists (v, p).
    split; [done|]. by apply elem_of_map_to_list.
  - intros Hn ([v q] & -> & Hin)%list_elem_of_fmap.
    apply elem_of_map_to_list in Hin. by apply (Hn v).
Qed.

(** C5, as the code has it: a name that is already reserved makes the
    constructor throw before its [try] block, so the exception leaves the
    constructor; nothing is logged, nothing is detached, and no kernel
    results.  A failure of the phases inside the [try] block is caught: the
    constructor returns a kernel with [Valid] false, the reason is appended to
    the log, and [Cleanup] has detached the kernel function, the helpers and
    the promoted globals. *)
Theorem construct_failure_paths phases name r :
  ((entering name r).1 ∈ reservedNames r →
     ∃ r', construct phases name r
           = Escaped (TikError "Kernel Error: Kernel names must be unique!") r' ∧
           log r' = log r ∧ TikModule r' = TikModule r ∧
           reservedNames r' = reservedNames r) ∧
  (((entering name r).1 ∉ reservedNames r) → ∀ m r2 what,
     phases (entering name r).1 fresh_members (entering name r).2
       = (m, r2, Some (TikError what)) →
     ∃ k r', construct phases name r = Constructed k r' ∧ Valid k = false ∧
             built k = m ∧ log r' = log r2 ++ [error what] ∧
             ∀ p, p ∈ TikModule r' ↔
                  p ∈ TikModule r2 ∧ Some p ≠ KernelFunction m ∧ Some p ≠ MemoryRead m ∧
                  Some p ≠ MemoryWrite m ∧ ∀ v, GlobalMap m !! v ≠ Some p).
Proof.
  unfold construct, entering.
  destruct (choose_name name (KernelUID r)) as [Name uid]. simpl. split.
  - intros Hin. rewrite decide_True by done. by eexists.
  - intros Hnin m r2 what Hph. rewrite decide_False by done. rewrite Hph.
    eexists _, _. split; [reflexivity|]. split; [done|]. split; [done|].
    match goal with |- context [Cleanup ?m ?r] =>
      destruct (Cleanup_spec m r) as [Hlog Hmod] end.
    split; [by rewrite Hlog|]. intros p. by rewrite Hmod.
Qed.

Lemma construct_failure_paths_witness :
  (∃ r', construct failing_phases "k0" run_k0
         = Escaped (TikError "Kernel Error: Kernel names must be unique!") r' ∧
         log r' = log run_k0 ∧ TikModule r' = TikModule run_k0 ∧
         reservedNames r' = reservedNames run_k0) ∧
  (∃ k r', construct failing_phases "k1" run_k0 = Constructed k r' ∧ Valid k = false ∧
           built k = (failing_phases "k1" fresh_members (entering "k1" run_k0).2).1.1 ∧
           log r' = [error "Tik Error: tik found no kernel exits"] ∧
           ∀ p, p ∈ TikModule r' ↔
                p ∈ ({[900]} : gset ptr) ∧ Some p ≠ Some 900 ∧ Some p ≠ None ∧
                Some p ≠ None ∧ ∀ v, (∅ : gmap Value ptr) !! v ≠ Some p).
Proof.
  split.
  - apply (proj1 (construct_failure_paths failing_phases "k0" run_k0)). compute_done.
  - apply (proj2 (construct_failure_paths failing_phases "k1" run_k0)
             ltac:(compute_done) _ _ _ eq_refl).
Defined.

(** C5 as stated fails: with the name [k0] taken, constructing a kernel named
    [k0] ends with the exception outside the constructor, not with an invalid
    kernel. *)
Lemma duplicate_name_escapes : ¬ caught failing_phases "k0" run_k0.
Proof. intros (k & r' & what & Hc & _). vm_compute in Hc. discriminate. Qed.

End CtorFacts.

(** ** The kernel hasher *)

Module HasherFacts.
Import Hasher.

Lemma index_list (l : list ptr) (m : gmap Z ptr) (u id : Z) :
  let r := fold_left (fun (acc : gmap Z ptr * Z) b => (<[acc.2 := b]> acc.1, acc.2 + 1))
             l (m, u) in
  r.2 = u + Z.of_nat (length l) ∧
  r.1 !! id = if decide (u ≤ id < u + Z.of_nat (length l))
              then l !! Z.to_nat (id - u) else m !! id.
Proof.
  revert m u. induction l as [|b l IH]; intros m u; simpl.
  - split; [lia|]. rewrite decide_False by lia. done.
  - destruct (IH (<[u := b]> m) (u + 1)) as [H2 H1]. simpl in *.
    split; [lia|]. rewrite H1. clear IH H1 H2.
    destruct (decide (id = u)) as [->|Hne].
    + rewrite decide_False by lia. rewrite decide_True by lia.
      rewrite lookup_insert_eq. by replace (u - u) with 0 by lia.
    + rewrite lookup_insert_ne by done.
      destruct (decide (u + 1 ≤ id < u + 1 + Z.of_nat (length l))).
      * rewrite decide_True by lia.
        replace (Z.to_nat (id - u)) with (S (Z.to_nat (id - (u + 1)))) by lia. done.
      * rewrite decide_False by lia. done.
Qed.

Lemma index_blocks_flat (M : list (list ptr)) acc :
  fold_left (fun acc F =>
               fold_left (fun (acc : gmap Z ptr * Z) b => (<[acc.2 := b]> acc.1, acc.2 + 1))
                 F acc) M acc
  = fold_left (fun (acc : gmap Z ptr * Z) b => (<[acc.2 := b]> acc.1, acc.2 + 1))
      (concat M) acc.
Proof.
  revert acc. induction M as [|F M IH]; intros acc; simpl; [done|].
  by rewrite fold_left_app, IH.
Qed.

(** An id resolves to the block at that position of the module. *)
Lemma blockMap_lookup M id :
  (index_blocks M 0).1 !! id
  = if decide (0 ≤ id) then blocks_of M !! Z.to_nat id else None.
Proof.
  unfold index_blocks. rewrite index_blocks_flat.
  destruct (index_list (concat M) ∅ 0 id) as [_ ->]. unfold blocks_of.
  destruct (decide (0 ≤ id)).
  - destruct (decide (0 ≤ id < 0 + Z.of_nat (length (concat M)))).
    + by replace (id - 0) with id by lia.
    + rewrite lookup_empty. symmetry. apply lookup_ge_None. lia.
  - rewrite decide_False by lia. apply lookup_empty.
Qed.








Lemma resolve_in_range M ids :
  Forall (fun id => 0 ≤ id < Z.of_nat (length (blocks_of M))) ids →
  is_Some (resolve (index_blocks M 0).1 ids).
Proof.
  intros H. unfold resolve. apply mapM_is_Some, Forall_forall.
  intros id Hid. rewrite merge_sort_Permutation in Hid.
  rewrite Forall_forall in H. specialize (H id Hid). simpl.
  rewrite blockMap_lookup, decide_True by lia.
  apply lookup_lt_is_Some. lia.
Qed.



End HasherFacts.

(** ** More on exit analysis *)

Module ExitIdsFacts.
Import Exits ExitIds ExitsFacts.

Section ids.
Variable g : CFG.
Variable blocks : gset ptr.

Lemma visit_coherent rel st b t :
  rel b t → coherent rel blocks st → coherent rel blocks (visit blocks b st t).
Proof.
  intros Hrel (H0 & H1 & H2 & H3 & H4 & H5).
  destruct (visit_cases blocks st b t) as [[-> _]|(Hin & Hcov & ->)]; [done|].
  assert (Hfresh : target st !! exitId st = None).
  { apply eq_None_not_Some. rewrite H1. lia. }
  unfold coherent. simpl. split_and!.
  - lia.
  - intros id. rewrite lookup_insert_is_Some', H1. lia.
  - intros t'. rewrite elem_of_union, elem_of_singleton, H2. split.
    + intros [->|[id Hid]].
      * exists (exitId st). by rewrite lookup_insert_eq.
      * exists id. rewrite lookup_insert_ne; [done|]. intros <-. congruence.
    + intros [id Hid]. rewrite lookup_insert in Hid. case_decide; simplify_eq; eauto.
  - intros id id' t'. rewrite !lookup_insert.
    repeat case_decide; intros ? ?; simplify_eq; try done.
    + destruct Hcov. apply H2. eauto.
    + destruct Hcov. apply H2. eauto.
    + eauto.
  - intros id t'. rewrite lookup_insert. case_decide; intros ?; simplify_eq; eauto.
  - intros b' id. rewrite lookup_insert. case_decide as Hb.
    + intros [= <-]. subst b'. exists t. by rewrite lookup_insert_eq.
    + intros Hl. destruct (H5 _ _ Hl) as (t' & Ht' & ?). exists t'.
      rewrite lookup_insert_ne; [done|]. intros <-. congruence.
Qed.

Lemma fold_visitp_coherent rel L st :
  (∀ p, p ∈ L → rel p.1 p.2) → coherent rel blocks st →
  coherent rel blocks (fold_left (visitp blocks) L st).
Proof.
  revert st. induction L as [|[b t] L IH]; intros st HL Hst; simpl; [done|].
  apply IH.
  - intros p Hp. apply HL. by apply list_elem_of_further.
  - apply visit_coherent; [|done]. apply (HL (b, t)), list_elem_of_here.
Qed.

Lemma fold_visitp_covered L st t :
  t ∈ coveredExits (fold_left (visitp blocks) L st)
  ↔ t ∈ coveredExits st ∨ ((t ∉ blocks) ∧ t ∈ L.*2).
Proof.
  revert st. induction L as [|[b t'] L IH]; intros st; simpl.
  - rewrite elem_of_nil. tauto.
  - rewrite IH, elem_of_cons.
    change (visitp blocks st (b, t')) with (visit blocks b st t').
    destruct (visit_cases blocks st b t') as [[-> Hc]|(Hin & Hcov & ->)]; simpl.
    + split; [tauto|]. intros [?|[? [->|?]]]; tauto.
    + rewrite elem_of_union, elem_of_singleton. split; [|tauto].
      intros [[->|?]|?]; tauto.
Qed.

Lemma fold_visitp_inside L st :
  (∀ p, p ∈ L → p.2 ∈ blocks) → fold_left (visitp blocks) L st = st.
Proof.
  revert st. induction L as [|[b t] L IH]; intros st HL; simpl; [done|].
  assert (Ht : t ∈ blocks) by apply (HL (b, t)), list_elem_of_here.
  change (visitp blocks st (b, t)) with (visit blocks b st t).
  unfold visit. rewrite decide_True by done. apply IH.
  intros p Hp. apply HL. by apply list_elem_of_further.
Qed.

Lemma elem_of_pairs l b t :
  (b, t) ∈ pairs g l ↔ b ∈ l ∧ t ∈ exit_targets g b.
Proof.
  unfold pairs. rewrite list_elem_of_bind. split.
  - intros (b' & Hin & Hb'). apply list_elem_of_fmap in Hin as (t' & ? & ?).
    by simplify_eq.
  - intros [Hb Ht]. exists b. split; [|done]. apply list_elem_of_fmap. eauto.
Qed.

(** The end state of the loops of [GetExits], from a kernel without exits. *)
Lemma loops_coherent (k : Region) :
  ExitMap k = ∅ → ExitTarget k = ∅ →
  coherent (fun b t => b ∈ blocks ∧ t ∈ exit_targets g b) blocks
    (fold_left (visit_block g blocks) (set_iter blocks)
       {| exitId := 0; coveredExits := ∅; target := ExitTarget k; emap := ExitMap k |}).
Proof.
  intros Hm Ht. rewrite fold_visit_pairs. apply fold_visitp_coherent.
  - intros [b t] Hp. apply elem_of_pairs in Hp as [Hb ?]. simpl.
    by rewrite elem_of_set_iter in Hb.
  - rewrite Hm, Ht. unfold coherent. simpl.
    refine (conj _ (conj _ (conj _ (conj _ (conj _ _))))).
    + done.
    + intros id. rewrite lookup_empty. split; [by intros [? ?]|lia].
    + intros t. split; [set_solver|]. intros [id Hid]. by rewrite lookup_empty in Hid.
    + intros id id' t Hid. by rewrite lookup_empty in Hid.
    + intros id t Hid. by rewrite lookup_empty in Hid.
    + intros b id Hb. by rewrite lookup_empty in Hb.
Qed.

Lemma has_exit_pairs :
  has_exit g blocks ↔ Exists (fun p => p.2 ∉ blocks) (pairs g (set_iter blocks)).
Proof.
  rewrite Exists_exists. split.
  - intros (b & t & Hb & Ht & Hn). exists (b, t). split; [|done].
    apply elem_of_pairs. by rewrite elem_of_set_iter.
  - intros ([b t] & Hp & Hn). apply elem_of_pairs in Hp as [Hb Ht].
    rewrite elem_of_set_iter in Hb. by exists b, t.
Qed.

End ids.

(** [GetExits] throws exactly when no block of the region has a target outside
    it; the kernel it was called on does not matter. *)
Theorem GetExits_throws_iff (g : CFG) (blocks : gset ptr) (k : Region) :
  (GetExits g blocks k = Throw (TikError "Tik Error: tik found no kernel exits")
   ↔ ¬ has_exit g blocks) ∧
  ((∃ k', GetExits g blocks k = Ok k') ↔ has_exit g blocks).
Proof.
  assert (Hyes : has_exit g blocks → ∃ k', GetExits g blocks k = Ok k').
  { intros Hex. unfold GetExits. rewrite fold_visit_pairs.
    match goal with |- context [fold_left _ ?L ?s] =>
      destruct (fold_visitp_spec blocks L s) as (_ & _ & Hlt) end.
    simpl in Hlt. case_decide as H0; [|by eexists].
    destruct (has_exit_first_claimer g blocks Hex) as [b Hb].
    apply claims_first_claimer in Hb. specialize (Hlt (ex_intro _ b Hb)). lia. }
  assert (Hno : ¬ has_exit g blocks →
                GetExits g blocks k = Throw (TikError "Tik Error: tik found no kernel exits")).
  { intros Hn. unfold GetExits. rewrite fold_visit_pairs, fold_visitp_inside.
    - reflexivity.
    - intros [b t] Hp. apply elem_of_pairs in Hp as [Hb Ht]. simpl.
      rewrite elem_of_set_iter in Hb.
      destruct (decide (t ∈ blocks)); [done|]. destruct Hn. by exists b, t. }
  assert (Hdec : has_exit g blocks ∨ ¬ has_exit g blocks).
  { rewrite has_exit_pairs.
    destruct (decide (Exists (fun p : ptr * ptr => p.2 ∉ blocks) (pairs g (set_iter blocks))));
      tauto. }
  split; split.
  - intros Hthrow Hex. destruct (Hyes Hex) as [k' Hk']. congruence.
  - exact Hno.
  - intros [k' Hk']. destruct Hdec as [?|Hn]; [done|]. rewrite (Hno Hn) in Hk'. discriminate.
  - exact Hyes.
Qed.

Lemma GetExits_Ok_inv (g : CFG) (blocks : gset ptr) (k k' : Region) :
  GetExits g blocks k = Ok k' →
  let st := fold_left (visit_block g blocks) (set_iter blocks)
              {| exitId := 0; coveredExits := ∅; target := ExitTarget k; emap := ExitMap k |} in
  exitId st ≠ 0 ∧ ExitTarget k' = target st ∧ ExitMap k' = emap st.
Proof.
  unfold GetExits. case_decide; [done|]. intros [= <-]. done.
Qed.

(** After a successful exit analysis of a fresh kernel the exit ids are
    0 .. n-1 for some positive n, and [ExitTarget] is a one-to-one
    enumeration of the targets outside the region. *)
Theorem ExitTarget_enumerates (g : CFG) (blocks : gset ptr) (k k' : Region) :
  ExitMap k = ∅ → ExitTarget k = ∅ → GetExits g blocks k = Ok k' →
  ∃ n, 0 < n ∧
    (∀ id, is_Some (ExitTarget k' !! id) ↔ 0 ≤ id < n) ∧
    (∀ t, (∃ id, ExitTarget k' !! id = Some t) ↔ outside_target g blocks t) ∧
    (∀ id id' t, ExitTarget k' !! id = Some t → ExitTarget k' !! id' = Some t → id = id').
Proof.
  intros Hm Ht Hok. destruct (GetExits_Ok_inv _ _ _ _ Hok) as (Hn0 & -> & _).
  destruct (loops_coherent g blocks k Hm Ht) as (H0 & H1 & H2 & H3 & H4 & H5).
  eexists. split_and!; [|exact H1| |exact H3]; [lia|].
  intros t. rewrite <- H2, fold_visit_pairs, fold_visitp_covered. simpl.
  rewrite elem_of_pairs_snd. unfold outside_target. split.
  - intros [?|[Hn (b & Hb & Hbt)]]; [set_solver|]. split; [done|].
    exists b. by rewrite <- elem_of_set_iter.
  - intros [Hn (b & Hb & Hbt)]. right. split; [done|]. exists b.
    by rewrite elem_of_set_iter.
Qed.

Lemma ExitTarget_enumerates_witness :
  ∃ n, 0 < n ∧
    (∀ id, is_Some (ExitTarget shared_exit_result !! id) ↔ 0 ≤ id < n) ∧
    (∀ t, (∃ id, ExitTarget shared_exit_result !! id = Some t)
          ↔ outside_target shared_exit_cfg shared_exit_blocks t) ∧
    (∀ id id' t, ExitTarget shared_exit_result !! id = Some t →
                 ExitTarget shared_exit_result !! id' = Some t → id = id').
Proof.
  apply (ExitTarget_enumerates shared_exit_cfg shared_exit_blocks empty_region);
    [reflexivity|reflexivity|vm_compute; reflexivity].
Defined.

(** Every entry of [ExitMap] belongs to a block of the region, and the exit
    id it records is the id of a target of that very block outside the
    region. *)
Theorem ExitMap_names_own_target (g : CFG) (blocks : gset ptr) (k k' : Region) b id :
  ExitMap k = ∅ → ExitTarget k = ∅ → GetExits g blocks k = Ok k' →
  ExitMap k' !! b = Some id →
  b ∈ blocks ∧ ∃ t, ExitTarget k' !! id = Some t ∧ t ∈ exit_targets g b ∧ (t ∉ blocks).
Proof.
  intros Hm Ht Hok Hb. destruct (GetExits_Ok_inv _ _ _ _ Hok) as (Hn0 & HT & HM).
  destruct (loops_coherent g blocks k Hm Ht) as (H0 & H1 & H2 & H3 & H4 & H5).
  rewrite HM in Hb. destruct (H5 _ _ Hb) as (t & Hid & Hbb & Hbt).
  split; [done|]. exists t. rewrite HT. split_and!; [done..|]. by eapply H4.
Qed.

Lemma ExitMap_names_own_target_witness :
  1 ∈ shared_exit_blocks ∧
  ∃ t, ExitTarget shared_exit_result !! 0 = Some t ∧
       t ∈ exit_targets shared_exit_cfg 1 ∧ (t ∉ shared_exit_blocks).
Proof.
  apply (ExitMap_names_own_target shared_exit_cfg shared_exit_blocks empty_region
           shared_exit_result 1 0);
    [reflexivity|reflexivity|vm_compute; reflexivity|vm_compute; reflexivity].
Defined.

End ExitIdsFacts.
(** ** More on conditional classification and the body walk *)

Module WalksFacts.
Import Cond CondFacts Walks.

Lemma settles_det {A} (F : nat → option A) a b : settles F a → settles F b → a = b.
Proof.
  intros [n Hn] [m Hm].
  specialize (Hn (n `max` m)%nat ltac:(lia)). specialize (Hm (n `max` m)%nat ltac:(lia)).
  congruence.
Qed.

Lemma settles_with_and {A} (F : nat → option A) (P Q : A → Prop) :
  settles_with F P → settles_with F Q → settles_with F (fun a => P a ∧ Q a).
Proof.
  intros (a & Ha & HP) (b & Hb & HQ). rewrite (settles_det F b a Hb Ha) in HQ.
  by exists a.
Qed.

Lemma settles_with_det {A} (F : nat → option A) (P : A → Prop) a :
  settles_with F P → settles F a → P a.
Proof. intros (b & Hb & HP) Ha. by rewrite (settles_det F a b Ha Hb). Qed.

(** *** The walk marks everything it can reach *)

Section complete.
Variable g : CFG.
Variables blocks valid seeds U : gset ptr.
Variable d : nat.
Hypothesis HU : ∀ x y, x ∈ U → y ∈ successors g x → (y ∉ valid) → y ∈ U ∧ y ∈ blocks.
Hypothesis Hd : ∀ x, x ∈ U → (length (successors g x) ≤ d)%nat.

Lemma walk_block_inv popped a rest vis body :
  walk_inv g blocks valid seeds popped
    {| processing := a :: rest; visited := vis; wBody := body |} →
  walk_inv g blocks valid seeds ({[a]} ∪ popped)
    (walk_block g blocks valid a {| processing := rest; visited := vis; wBody := body |}).
Proof.
  intros (H1 & H2 & H3 & H4). unfold walk_block. simpl.
  rewrite (walk_pushes valid). unfold walk_inv. simpl. split_and!.
  - intros x [->%elem_of_singleton|Hx]%elem_of_union Hb.
    + destruct (decide (a ∈ body)); [done|]. rewrite decide_True by done. set_solver.
    + specialize (H1 x Hx Hb). simpl in H1.
      destruct (decide (a ∈ body)); [done|]. destruct (decide (a ∈ blocks)); set_solver.
  - assert (Hq : ∀ y, y ∈ successors g a → (y ∉ valid) →
                      y ∈ {[a]} ∪ popped ∨
                      y ∈ rest ++ filter (fun y => (y ∉ valid) ∧ (y ∉ {[a]} ∪ vis))
                                    (successors g a)).
    { intros y Hy Hv. destruct (decide (y ∈ {[a]} ∪ vis)) as [Hin|Hin].
      - apply elem_of_union in Hin as [->%elem_of_singleton|Hin]; [left; set_solver|].
        destruct (H4 y Hin) as [?|[?|Hq]]; [done|left; set_solver|]. simpl in Hq.
        apply elem_of_cons in Hq as [->|?]; [left; set_solver|].
        right. apply elem_of_app. by left.
      - right. apply elem_of_app. right. by apply list_elem_of_filter. }
    intros x y [->%elem_of_singleton|Hx]%elem_of_union Hy Hv; [by apply Hq|].
    destruct (H2 x y Hx Hy Hv) as [?|Hin]; [left; set_solver|]. simpl in Hin.
    apply elem_of_cons in Hin as [->|?]; [left; set_solver|].
    right. apply elem_of_app. by left.
  - intros r Hr. destruct (H3 r Hr) as [?|Hin]; [left; set_solver|]. simpl in Hin.
    apply elem_of_cons in Hin as [->|?]; [left; set_solver|].
    right. apply elem_of_app. by left.
  - intros y [->%elem_of_singleton|Hy]%elem_of_union; [right; left; set_solver|].
    destruct (H4 y Hy) as [?|[?|Hin]]; [by left|right; left; set_solver|]. simpl in Hin.
    apply elem_of_cons in Hin as [->|?]; [right; left; set_solver|].
    right. right. apply elem_of_app. by left.
Qed.

Lemma walk_block_body a st t : t ∈ wBody st → t ∈ wBody (walk_block g blocks valid a st).
Proof.
  intros Ht. unfold walk_block. simpl.
  destruct (decide (a ∈ wBody st)); [done|]. destruct (decide (a ∈ blocks)); set_solver.
Qed.

Lemma walk_loop_complete n : ∀ st popped,
  (potential d U (visited st) (processing st) ≤ n)%nat →
  (∀ x, x ∈ processing st → x ∈ U) →
  walk_inv g blocks valid seeds popped st →
  settles_with (fun fuel => walk_loop fuel g blocks valid st)
    (fun r => (∀ t, t ∈ wBody st → t ∈ wBody r) ∧
              ∃ popped', walk_inv g blocks valid seeds popped' r ∧ processing r = []).
Proof.
  induction n as [|n IH]; intros st popped Hn Hq Hinv.
  - destruct st as [[|a rest] vis body]; simpl in *.
    + eexists. split; [exists 0%nat; intros fuel _; by destruct fuel|].
      split; [done|by exists popped].
    + pose proof (potential_step g blocks valid U d (fun _ => True) HU Hd
                    ltac:(done) a rest vis (Hq a (list_elem_of_here _ _))) as Hstep.
      unfold potential in *. simpl in *. lia.
  - destruct st as [[|a rest] vis body]; simpl in *.
    + eexists. split; [exists 0%nat; intros fuel _; by destruct fuel|].
      split; [done|by exists popped].
    + assert (Ha : a ∈ U) by apply Hq, list_elem_of_here.
      set (st0 := {| processing := rest; visited := vis; wBody := body |}).
      destruct (IH (walk_block g blocks valid a st0) ({[a]} ∪ popped))
        as (r & [m Hr] & Hbody & Hpost).
      * unfold walk_block. simpl. rewrite (walk_pushes valid).
        pose proof (potential_step g blocks valid U d (fun _ => True) HU Hd
                      ltac:(done) a rest vis Ha) as Hstep.
        unfold potential in *. simpl in *. lia.
      * unfold walk_block. simpl. rewrite (walk_pushes valid).
        intros x [Hx|Hx]%elem_of_app.
        -- apply Hq. by apply list_elem_of_further.
        -- apply list_elem_of_filter in Hx as [[Hv _] Hx]. by destruct (HU a x Ha Hx Hv).
      * by apply walk_block_inv.
      * exists r. split; [|split; [|done]].
        -- exists (S m). intros fuel Hf. destruct fuel as [|fuel]; [lia|].
           simpl. apply Hr. lia.
        -- intros t Ht. apply Hbody. by apply (walk_block_body a st0).
Qed.

(** When the queue is empty, everything reachable from a seed along edges
    that avoid the valid conditionals was popped. *)
Lemma walk_inv_reach popped st r t :
  walk_inv g blocks valid seeds popped st → processing st = [] →
  r ∈ seeds → confined_reach g blocks valid r t → t ∈ popped.
Proof.
  intros (H1 & H2 & H3 & H4) Hq Hr Hreach. rewrite Hq in *.
  induction Hreach as [|x y _ IH Hy Hb Hv].
  - destruct (H3 r Hr) as [?|Hn]; [done|by apply elem_of_nil in Hn].
  - destruct (H2 x y IH Hy Hv) as [?|Hn]; [done|by apply elem_of_nil in Hn].
Qed.

End complete.

(** *** Classification, exactly *)

Section exact.
Variable g : CFG.
Variable blocks : gset ptr.

Lemma flags_exist cond suc : ∃ f, flags g blocks cond suc f.
Proof. destruct (branch_flags_spec g blocks cond suc) as (f & Hf & _). by exists f. Qed.

Lemma judge_succ_judged cond v suc f :
  flags g blocks cond suc f →
  settles (fun fuel => judge_succ fuel g blocks cond v suc) (judged v suc f).
Proof.
  intros Hf. unfold judge_succ.
  apply (settles_bind (fun fuel => branch_flags fuel g blocks cond suc)
           (fun f' _ => let '(r, e) := f' in _) f); [done|].
  destruct f as [r e]. unfold judged. simpl. destruct (r && e); apply settles_ret.
Qed.

Lemma judge_fold cond l fs v :
  Forall2 (flags g blocks cond) l fs →
  settles (fun fuel => foldM (judge_succ fuel g blocks cond) l v) (judged_all v (zip l fs)).
Proof.
  intros H. revert v. induction H as [|s f l fs Hf _ IH]; intros v; simpl.
  - apply settles_ret.
  - apply (settles_bind (fun fuel => judge_succ fuel g blocks cond v s)
             (fun v' fuel => foldM (judge_succ fuel g blocks cond) l v') (judged v s f)).
    + by apply judge_succ_judged.
    + apply IH.
Qed.

Lemma flags_all cond l : ∃ fs, Forall2 (flags g blocks cond) l fs.
Proof.
  induction l as [|s l [fs IH]]; [by exists []|].
  destruct (flags_exist cond s) as [f Hf]. exists (f :: fs). by constructor.
Qed.

Lemma judged_all_paths v sfs r :
  r ∈ recursePaths (judged_all v sfs) ↔
  r ∈ recursePaths v ∨ (r, (true, false)) ∈ sfs.
Proof.
  revert v. induction sfs as [|[s [a e]] sfs IH]; intros v; simpl.
  - rewrite elem_of_nil. tauto.
  - unfold judged_all in *. simpl. rewrite IH, elem_of_cons. unfold judged. simpl.
    destruct a, e; simpl; rewrite ?elem_of_union, ?elem_of_singleton; naive_solver.
Qed.

(** The verdict on a candidate lists exactly its pure-recursing successors. *)
Lemma judge_paths cond v r :
  settles (fun fuel => judge fuel g blocks cond) v →
  r ∈ recursePaths v ↔ pure_recursing g blocks cond r.
Proof.
  intros Hv. destruct (flags_all cond (successors g cond)) as [fs Hfs].
  pose proof (judge_fold cond _ _ no_verdict Hfs) as Hj.
  rewrite (settles_det _ _ _ Hv Hj), judged_all_paths. simpl.
  unfold pure_recursing. split.
  - intros [?|Hin]; [set_solver|].
    apply list_elem_of_lookup in Hin as [n Hn]. apply lookup_zip_with_Some in Hn
      as (s & f & ? & Hs & Hf). simplify_eq.
    split; [by eapply list_elem_of_lookup_2|].
    exact (Forall2_lookup_lr _ _ _ _ _ _ Hfs Hs Hf).
  - intros [Hin Hflags]. right.
    apply list_elem_of_lookup in Hin as [n Hn].
    destruct (Forall2_lookup_l _ _ _ _ _ Hfs Hn) as (f & Hf & Hff).
    rewrite (settles_det _ _ _ Hff Hflags) in Hf.
    apply list_elem_of_lookup. exists n. apply lookup_zip_with_Some. eauto.
Qed.

Lemma judged_all_flags v sfs :
  (exRecurses (judged_all v sfs) = true ↔
     exRecurses v = true ∨ ∃ r, (r, (true, false)) ∈ sfs) ∧
  (exExit (judged_all v sfs) = true ↔
     exExit v = true ∨ ∃ e, (e, (false, true)) ∈ sfs).
Proof.
  revert v. induction sfs as [|[s [a e]] sfs IH]; intros v; simpl.
  - split; (split; [tauto|]); intros [?|[? Hn]]; try done; by apply elem_of_nil in Hn.
  - unfold judged_all in *. simpl. destruct (IH (judged v s (a, e))) as [-> ->].
    unfold judged. setoid_rewrite elem_of_cons.
    destruct a, e; simpl; naive_solver.
Qed.

Lemma zip_flags cond l fs s f :
  Forall2 (flags g blocks cond) l fs →
  (s, f) ∈ zip l fs ↔ s ∈ l ∧ flags g blocks cond s f.
Proof.
  intros Hfs. split.
  - intros Hin. apply list_elem_of_lookup in Hin as [n Hn].
    apply lookup_zip_with_Some in Hn as (s' & f' & ? & Hs & Hf). simplify_eq.
    split; [by eapply list_elem_of_lookup_2|].
    exact (Forall2_lookup_lr _ _ _ _ _ _ Hfs Hs Hf).
  - intros [Hin Hflags]. apply list_elem_of_lookup in Hin as [n Hn].
    destruct (Forall2_lookup_l _ _ _ _ _ Hfs Hn) as (f' & Hf & Hff).
    rewrite (settles_det _ _ _ Hff Hflags) in Hf.
    apply list_elem_of_lookup. exists n. apply lookup_zip_with_Some. eauto.
Qed.

(** The flags of a verdict say whether a pure-recursing and a pure-exiting
    successor exist. *)
Lemma judge_flags cond v :
  settles (fun fuel => judge fuel g blocks cond) v →
  (exRecurses v = true ↔ ∃ r, pure_recursing g blocks cond r) ∧
  (exExit v = true ↔ ∃ e, pure_exiting g blocks cond e).
Proof.
  intros Hv. destruct (flags_all cond (successors g cond)) as [fs Hfs].
  pose proof (judge_fold cond _ _ no_verdict Hfs) as Hj.
  rewrite (settles_det _ _ _ Hv Hj).
  destruct (judged_all_flags no_verdict (zip (successors g cond) fs)) as [-> ->].
  unfold pure_recursing, pure_exiting, flags in *. simpl.
  split; (split; [intros [?|[s Hs]]; [done|]; exists s; by apply (zip_flags cond _ fs)
                 |intros [s Hs]; right; exists s; by apply (zip_flags cond _ fs)]).
Qed.

Lemma classify_fold l done c :
  classes_exact g blocks done c →
  settles_with (fun fuel => foldM (classify_cond fuel g blocks) l c)
    (classes_exact g blocks (done ++ l)).
Proof.
  revert done c. induction l as [|c0 l IH]; intros done c Hc; simpl.
  - exists c. split; [apply settles_ret|]. by rewrite app_nil_r.
  - destruct (judge_spec g blocks c0) as (v0 & Hv0 & _).
    apply (settles_with_bind (fun fuel => classify_cond fuel g blocks c c0)
             (fun c' fuel => foldM (classify_cond fuel g blocks) l c')
             (classes_exact g blocks (done ++ [c0]))).
    + unfold classify_cond.
      eapply (settles_with_bind _ _ (fun v => v = v0)).
      { exists v0. split; [exact Hv0|done]. }
      destruct Hc as [Hc1 Hc2].
      intros ? ->. destruct (exExit v0 && exRecurses v0) eqn:Hboth;
        (eexists; split; [apply settles_ret|]); split; intros cond; simpl.
      * apply andb_prop in Hboth as [? ?].
        rewrite elem_of_union, elem_of_singleton, elem_of_app, list_elem_of_singleton.
        rewrite (Hc1 cond). destruct (decide (cond = c0)) as [->|Hne].
        -- split; [|tauto]. intros _. split; [tauto|]. by exists v0.
        -- tauto.
      * rewrite elem_of_union, elem_of_singleton.
        destruct (decide (cond = c0)) as [->|Hne].
        -- intros _. exists v0. by rewrite lookup_insert_eq.
        -- intros [?|Hin]; [done|]. rewrite lookup_insert_ne by done. by apply Hc2.
      * rewrite (Hc1 cond), elem_of_app, list_elem_of_singleton.
        split; [tauto|]. intros [[?|Heq] Hv]; [tauto|]. subst cond.
        destruct Hv as (v & Hv & He & Hr).
        rewrite (settles_det _ _ _ Hv Hv0) in He, Hr. rewrite He, Hr in Hboth. done.
      * apply Hc2.
    + intros c' Hc'.
      replace (done ++ c0 :: l) with ((done ++ [c0]) ++ l) by (by rewrite <- app_assoc).
      by apply IH.
Qed.

Lemma classify_exact :
  settles_with (fun fuel => classify fuel g blocks)
    (fun cl => classes_inv g blocks cl ∧ classes_exact g blocks (conditions g blocks) cl).
Proof.
  apply settles_with_and; [apply classify_spec|].
  apply (classify_fold (conditions g blocks) []).
  split; intros cond; simpl; [rewrite elem_of_nil|]; set_solver.
Qed.

Lemma walk_from_complete cl cb b :
  classes_inv g blocks cl →
  settles_with (fun fuel => walk_from fuel g blocks cl cb b)
    (fun cb' => (∀ t, t ∈ cb.2 → t ∈ cb'.2) ∧
                ∀ seeds r t, recurseDict cl !! b = Some seeds → r ∈ seeds →
                  confined_reach g blocks (validConditions cl) r t → t ∈ blocks →
                  t ∈ cb'.2).
Proof.
  intros Hcl. unfold walk_from.
  destruct (recurseDict cl !! b) as [seeds|] eqn:Hseeds; simpl.
  - destruct (Hcl _ _ Hseeds) as (Hb & _ & Q & Hsub & Hclosed).
    destruct (degree_bound g Q) as [d Hd].
    set (st := {| processing := set_iter seeds; visited := validConditions cl ∪ seeds;
                  wBody := cb.2 |}).
    assert (HU : ∀ x y, x ∈ Q → y ∈ successors g x → (y ∉ validConditions cl) →
                        y ∈ Q ∧ y ∈ blocks).
    { intros x y Hx Hy Hv. destruct (Hclosed x y Hx Hy) as [? [->|?]]; done. }
    eapply settles_with_bind.
    { apply (walk_loop_complete g blocks (validConditions cl) seeds Q d HU Hd
               (potential d Q (visited st) (processing st)) st ∅); [done| |].
      - simpl. intros x Hx%elem_of_set_iter. set_solver.
      - unfold walk_inv. simpl. split_and!.
        + intros x Hx. by apply elem_of_empty in Hx.
        + intros x y Hx. by apply elem_of_empty in Hx.
        + intros r Hr. right. by apply elem_of_set_iter.
        + intros y [?|?]%elem_of_union; [by left|]. right. right.
          by apply elem_of_set_iter. }
    intros r (Hmono & popped & Hinv & Hq). eexists. split; [apply settles_ret|].
    simpl. split; [exact Hmono|]. intros ? r0 t [= <-] Hr0 Hreach Ht.
    destruct Hinv as (H1 & ?). apply H1; [|done].
    eapply (walk_inv_reach g blocks (validConditions cl) seeds); done.
  - eexists. split.
    + exists 0%nat. intros fuel _.
      assert (Hp : set_iter (∅ : gset ptr) = []).
      { apply length_zero_iff_nil. rewrite set_iter_perm. by rewrite elements_empty. }
      destruct fuel; simpl; by rewrite Hp.
    + simpl. split; [done|]. by intros.
Qed.

Lemma walks_complete cl l cb :
  classes_inv g blocks cl →
  settles_with (fun fuel => foldM (walk_from fuel g blocks cl) l cb)
    (fun cb' => (∀ t, t ∈ cb.2 → t ∈ cb'.2) ∧
                ∀ b seeds r t, b ∈ l → recurseDict cl !! b = Some seeds → r ∈ seeds →
                  confined_reach g blocks (validConditions cl) r t → t ∈ blocks →
                  t ∈ cb'.2).
Proof.
  intros Hcl. revert cb. induction l as [|b l IH]; intros cb; simpl.
  - exists cb. split; [apply settles_ret|]. split; [done|].
    intros ? ? ? ? Hn. by apply elem_of_nil in Hn.
  - eapply settles_with_bind; [by apply walk_from_complete|].
    intros cb1 [Hm1 Hc1]. eapply settles_with_impl; [apply IH|]. simpl.
    intros cb2 [Hm2 Hc2]. split; [auto|].
    intros b' seeds r t [->|Hin]%elem_of_cons Hs Hr Hreach Ht.
    + apply Hm2. by eapply Hc1.
    + by eapply Hc2.
Qed.

(** The whole of [GetConditional], with what the walks mark. *)
Lemma GetConditional_settles (k : Region) :
  ∃ cl cb,
    settles (fun fuel => classify fuel g blocks) cl ∧
    classes_inv g blocks cl ∧ classes_exact g blocks (conditions g blocks) cl ∧
    settles (fun fuel => GetConditional fuel g blocks k)
      {| Entrances := Entrances k; ExitMap := ExitMap k; ExitTarget := ExitTarget k;
         Conditional := cb.1; Body := cb.2;
         Termination := fold_left (fun t block => if decide (block ∈ cb.2) then t
                                                  else {[block]} ∪ t)
                          (set_iter blocks) (Termination k) |} ∧
    (∀ t, t ∈ cb.1 ↔ t ∈ Conditional k ∨ t ∈ validConditions cl) ∧
    (∀ t, t ∈ cb.2 ↔ t ∈ Body k ∨ (t ∈ blocks ∧ walked g blocks (validConditions cl) t)).
Proof.
  destruct classify_exact as (cl & Hcl & Hinv & Hex).
  destruct (settles_with_and _ _ _
              (walks_spec g blocks cl (set_iter (validConditions cl))
                 (Conditional k, Body k) Hinv)
              (walks_complete cl (set_iter (validConditions cl))
                 (Conditional k, Body k) Hinv))
    as (cb & Hcb & (Hfst & Hsound) & (Hmono & Hcomp)).
  exists cl, cb. split_and!; try done.
  - unfold GetConditional.
    eapply settles_bind; [exact Hcl|]. eapply settles_bind; [exact Hcb|].
    apply settles_ret.
  - intros t. rewrite Hfst. simpl.
    rewrite elem_of_union, elem_of_list_to_set, elem_of_set_iter. tauto.
  - intros t. split; [apply Hsound|]. intros [Ht|[Hb (c & r & Hc & Hpure & Hreach)]].
    + by apply Hmono.
    + destruct Hex as [_ Hex2]. destruct (Hex2 c Hc) as (v & Hv & Hdict).
      eapply (Hcomp c); try done.
      * by apply elem_of_set_iter.
      * by apply (judge_paths c v r Hv).
Qed.

End exact.

(** A block is marked [Body] exactly when it lies in the region and the walk
    of some valid conditional reaches it: from a pure-recursing successor of
    that conditional, along edges that stay in the region and meet no valid
    conditional. *)
Theorem Body_is_what_the_walks_reach (g : CFG) (blocks : gset ptr) (k : Region) :
  ∃ cl k',
    settles (fun fuel => classify fuel g blocks) cl ∧
    settles (fun fuel => GetConditional fuel g blocks k) k' ∧
    ∀ t, t ∈ Body k' ↔ t ∈ Body k ∨ (t ∈ blocks ∧ walked g blocks (validConditions cl) t).
Proof.
  destruct (GetConditional_settles g blocks k) as (cl & cb & Hcl & _ & _ & Hk & _ & Hbody).
  exists cl. eexists. split; [done|]. split; [exact Hk|]. exact Hbody.
Qed.

(** On a kernel without blocks assigned yet, [GetConditional] splits the
    region in two: [Body] and [Termination] are disjoint and together are the
    region. *)
Theorem Body_and_Termination_split_the_region (g : CFG) (blocks : gset ptr) (k : Region) :
  Body k = ∅ → Termination k = ∅ →
  ∃ k', settles (fun fuel => GetConditional fuel g blocks k) k' ∧
        Body k' ∩ Termination k' = ∅ ∧ Body k' ∪ Termination k' = blocks.
Proof.
  intros HB HT.
  destruct (GetConditional_settles g blocks k) as (cl & cb & _ & _ & _ & Hk & _ & Hbody).
  eexists. split; [exact Hk|]. simpl.
  assert (Hsub : ∀ t, t ∈ cb.2 → t ∈ blocks).
  { intros t Ht%Hbody. rewrite HB in Ht. set_solver. }
  split; apply set_eq; intros t;
    rewrite ?elem_of_intersection, ?elem_of_union, termination_spec, HT, elem_of_set_iter.
  - set_solver.
  - destruct (decide (t ∈ cb.2)); set_solver.
Qed.

Lemma Body_and_Termination_split_the_region_witness :
  ∃ k', settles (fun fuel => GetConditional fuel loop_cfg loop_blocks empty_region) k' ∧
        Body k' ∩ Termination k' = ∅ ∧ Body k' ∪ Termination k' = loop_blocks.
Proof.
  apply (Body_and_Termination_split_the_region loop_cfg loop_blocks empty_region);
    reflexivity.
Defined.

(** A block of the region is classified a valid conditional exactly when its
    terminator has more than one successor, one of them pure-recursing and
    one of them pure-exiting; a successor whose search finds both a way back
    and a way out counts for nothing. *)
Theorem valid_conditional_iff (g : CFG) (blocks : gset ptr) (cond : ptr) :
  valid_conditional g blocks cond ↔
  cond ∈ blocks ∧ (1 < length (successors g cond))%nat ∧
  (∃ r, pure_recursing g blocks cond r) ∧ (∃ e, pure_exiting g blocks cond e).
Proof.
  destruct (classify_exact g blocks) as (cl & Hcl & _ & Hex & _).
  assert (Hv : valid_conditional g blocks cond ↔ cond ∈ validConditions cl).
  { split; [|intros; by exists cl].
    intros (cl' & Hcl' & Hin). by rewrite (settles_det _ _ _ Hcl Hcl'). }
  rewrite Hv, (Hex cond). unfold conditions.
  rewrite list_elem_of_filter, elem_of_set_iter.
  destruct (judge_spec g blocks cond) as (v & Hjv & _).
  destruct (judge_flags g blocks cond v Hjv) as [Hr He].
  rewrite <- Hr, <- He. split.
  - intros [[? ?] (v' & Hv' & ? & ?)].
    rewrite (settles_det _ _ _ Hjv Hv'). tauto.
  - intros (? & ? & ? & ?). split; [done|]. by exists v.
Qed.

(** [GetConditional] adds to [Conditional] the valid conditionals and nothing
    else. *)
Theorem Conditional_is_the_valid_conditionals (g : CFG) (blocks : gset ptr) (k : Region) :
  ∃ k', settles (fun fuel => GetConditional fuel g blocks k) k' ∧
        ∀ t, t ∈ Conditional k' ↔ t ∈ Conditional k ∨ valid_conditional g blocks t.
Proof.
  destruct (GetConditional_settles g blocks k) as (cl & cb & Hcl & _ & _ & Hk & Hcond & _).
  eexists. split; [exact Hk|]. simpl. intros t. rewrite Hcond.
  assert (Hv : valid_conditional g blocks t ↔ t ∈ validConditions cl).
  { split; [|intros; by exists cl].
    intros (cl' & Hcl' & Hin). by rewrite (settles_det _ _ _ Hcl Hcl'). }
  by rewrite Hv.
Qed.

(** The walks never mark a valid conditional they come upon along an edge: a
    valid conditional that ends up in [Body] was there before or is itself a
    pure-recursing successor of a valid conditional. *)
Theorem valid_conditional_in_Body_is_a_seed (g : CFG) (blocks : gset ptr) (k : Region) :
  ∃ cl k',
    settles (fun fuel => classify fuel g blocks) cl ∧
    settles (fun fuel => GetConditional fuel g blocks k) k' ∧
    ∀ t, t ∈ Body k' → t ∈ validConditions cl →
         t ∈ Body k ∨ ∃ c, c ∈ validConditions cl ∧ pure_recursing g blocks c t.
Proof.
  destruct (GetConditional_settles g blocks k) as (cl & cb & Hcl & _ & _ & Hk & _ & Hbody).
  exists cl. eexists. split; [done|]. split; [exact Hk|]. simpl.
  intros t [?|[_ (c & r & Hc & Hpure & Hreach)]]%Hbody Hv; [by left|right].
  exists c. split; [done|]. destruct Hreach; done.
Qed.

End WalksFacts.
(** ** [Kernel::GetEntrances] *)

Module EntrFacts.
Import Entr.

Lemma extUse_spec (blocks : gset ptr) users :
  extUse blocks users = true ↔ ∃ u, u ∈ users ∧ u ∉ blocks.
Proof.
  induction users as [|u users IH]; simpl.
  - split; [done|]. intros (u & Hu & _). by apply elem_of_nil in Hu.
  - destruct (decide (u ∈ blocks)) as [Hin|Hout].
    + rewrite IH. split.
      * intros (u' & ? & ?). exists u'. split; [by right|done].
      * intros (u' & [->|?]%elem_of_cons & ?); [done|]. by exists u'.
    + split; [|done]. intros _. exists u. split; [by left|done].
Qed.

Lemma preds_spec (blocks : gset ptr) (block : ptr) preds (E : gset ptr) x :
  x ∈ fold_left (fun (E : gset ptr) pred =>
                   if decide (pred ∈ blocks) then E else {[block]} ∪ E) preds E
  ↔ x ∈ E ∨ (x = block ∧ ∃ p, p ∈ preds ∧ p ∉ blocks).
Proof.
  revert E. induction preds as [|p preds IH]; intros E; simpl.
  - split; [by left|]. intros [?|(_ & p & Hp & _)]; [done|]. by apply elem_of_nil in Hp.
  - rewrite IH. destruct (decide (p ∈ blocks)) as [Hin|Hout].
    + split; (intros [?|(-> & p' & Hp' & ?)]; [by left|right; split; [done|]]).
      * exists p'. split; [by right|done].
      * apply elem_of_cons in Hp' as [->|?]; [done|]. by exists p'.
    + rewrite elem_of_union, elem_of_singleton. split.
      * intros [[->|?]|(-> & p' & ? & ?)]; [right|by left|right].
        -- split; [done|]. exists p. split; [by left|done].
        -- split; [done|]. exists p'. split; [by right|done].
      * intros [?|(-> & _)]; left; [by right|by left].
Qed.

Lemma entrance_block_spec ir g blocks E block x :
  x ∈ entrance_block ir g blocks E block ↔ x ∈ E ∨ (x = block ∧ enters ir g blocks block).
Proof.
  unfold entrance_block, enters.
  destruct (decide (GetBlockID ir block ∈ KernelMap ir)) as [Hk|Hk]; [tauto|].
  destruct (decide (block = getEntryBlock ir (block_parent g block))) as [He|He].
  - destruct (extUse blocks (user_blocks g (block_parent g block))) eqn:Hu.
    + apply extUse_spec in Hu.
      rewrite elem_of_union, elem_of_singleton, preds_spec. split; [|tauto].
      intros [->|[?|[-> ?]]]; [right|by left|right]; (split; [done|]); split; auto.
    + assert (Hn : ¬ ∃ u, u ∈ user_blocks g (block_parent g block) ∧ u ∉ blocks).
      { rewrite <- extUse_spec, Hu. done. }
      rewrite preds_spec. tauto.
  - rewrite preds_spec. tauto.
Qed.

Lemma entrances_fold ir g blocks l E x :
  x ∈ fold_left (entrance_block ir g blocks) l E
  ↔ x ∈ E ∨ (x ∈ l ∧ enters ir g blocks x).
Proof.
  revert E. induction l as [|b l IH]; intros E; simpl.
  - split; [by left|]. intros [?|[Hn _]]; [done|]. by apply elem_of_nil in Hn.
  - rewrite IH, entrance_block_spec, elem_of_cons. split.
    + intros [[?|[-> ?]]|[? ?]]; auto.
    + intros [?|[[->|?] ?]]; auto.
Qed.

(** When [GetEntrances] returns, the entrances are those there were and the
    blocks of the region that can be entered from outside it; blocks of
    nested kernels are never among the new ones, and nothing else of the
    kernel changes. *)
Theorem GetEntrances_Ok ir g blocks k k' :
  GetEntrances ir g blocks k = Ok k' →
  (∀ b, b ∈ Entrances k' ↔ b ∈ Entrances k ∨ (b ∈ blocks ∧ enters ir g blocks b)) ∧
  Entrances k' ≠ ∅ ∧
  ExitMap k' = ExitMap k ∧ ExitTarget k' = ExitTarget k ∧ Conditional k' = Conditional k ∧
  Body k' = Body k ∧ Termination k' = Termination k.
Proof.
  unfold GetEntrances. case_decide as Hsize; [done|]. intros [= <-]. simpl.
  split_and!; try done.
  - intros b. by rewrite entrances_fold, elem_of_set_iter.
  - intros Heq. rewrite Heq in Hsize. by rewrite size_empty in Hsize.
Qed.

Lemma GetEntrances_Ok_witness :
  (∀ b, b ∈ Entrances loop_entrances ↔
        b ∈ Entrances empty_region ∨
        (b ∈ Walks.loop_blocks ∧ enters loop_facade called_loop_cfg Walks.loop_blocks b)) ∧
  Entrances loop_entrances ≠ ∅ ∧
  ExitMap loop_entrances = ExitMap empty_region ∧
  ExitTarget loop_entrances = ExitTarget empty_region ∧
  Conditional loop_entrances = Conditional empty_region ∧
  Body loop_entrances = Body empty_region ∧
  Termination loop_entrances = Termination empty_region.
Proof.
  apply (GetEntrances_Ok loop_facade called_loop_cfg Walks.loop_blocks empty_region).
  vm_compute; reflexivity.
Defined.

(** [GetEntrances] throws exactly when the kernel had no entrance and no
    block of the region can be entered from outside it. *)
Theorem GetEntrances_throws_iff ir g blocks k :
  is_ok (GetEntrances ir g blocks k) = false ↔
  Entrances k = ∅ ∧ ∀ b, b ∈ blocks → ¬ enters ir g blocks b.
Proof.
  unfold GetEntrances. case_decide as Hsize; simpl.
  - apply size_empty_iff, leibniz_equiv in Hsize. split; [intros _|done].
    split.
    + apply leibniz_equiv, elem_of_equiv_empty. intros x Hx.
      assert (Hin : x ∈ fold_left (entrance_block ir g blocks) (set_iter blocks) (Entrances k))
        by (apply entrances_fold; by left).
      rewrite Hsize in Hin. by apply elem_of_empty in Hin.
    + intros b Hb He.
      assert (Hin : b ∈ fold_left (entrance_block ir g blocks) (set_iter blocks) (Entrances k)).
      { apply entrances_fold. right. split; [by apply elem_of_set_iter|done]. }
      rewrite Hsize in Hin. by apply elem_of_empty in Hin.
  - split; [done|]. intros [HE Hnone]. exfalso. apply Hsize, size_empty_iff.
    apply elem_of_equiv_empty. intros x [Hx|[Hx He]]%entrances_fold.
    + rewrite HE in Hx. by apply elem_of_empty in Hx.
    + apply elem_of_set_iter in Hx. by apply (Hnone x).
Qed.

End EntrFacts.

(** ** [Repipe], [BuildInit], [BuildExit] *)

Module FinishFacts.
Import Build Finish.

Lemma elem_of_map_iter {V} (m : gmap Z V) k v :
  (k, v) ∈ map_iter m ↔ m !! k = Some v.
Proof.
  unfold map_iter. rewrite list_elem_of_omap. split.
  - intros (k' & _ & Hk). destruct (m !! k') eqn:E; simplify_eq/=. done.
  - intros Hk. exists k. split.
    + rewrite merge_sort_Permutation. apply elem_of_elements, elem_of_dom. by eexists.
    + by rewrite Hk.
Qed.

Lemma getTerminator_snoc code a t :
  isTerminator t = true → getTerminator (code ++ [(a, t)]) = Some (a, t).
Proof. intros Ht. unfold getTerminator. by rewrite last_snoc, Ht. Qed.

Lemma isTerminator_map f t : isTerminator (map_successors f t) = isTerminator t.
Proof. by destruct t. Qed.

Lemma term_successors_map f t :
  term_successors (map_successors f t) = f <$> term_successors t.
Proof.
  destruct t; simpl; try done. f_equal.
  rewrite <- !list_fmap_compose. done.
Qed.

Lemma getTerminator_isTerminator code a t :
  getTerminator code = Some (a, t) → isTerminator t = true.
Proof.
  unfold getTerminator. destruct (last code) as [[a' t']|]; [|done].
  destruct (isTerminator t') eqn:E; [|done]. by intros [= <- <-].
Qed.

Section repipe.
Variable cx : context.

Lemma getParent_repipe_block st c s :
  getParent (repipe_block cx st c) s = getParent st s.
Proof.
  unfold repipe_block. destruct (heap st !! c) as [bb|] eqn:Hc; [|done].
  destruct (getTerminator (insts bb)) as [[a t]|]; [|done].
  unfold getParent. simpl. destruct (decide (s = c)) as [->|Hne].
  - by rewrite lookup_insert_eq, Hc.
  - by rewrite lookup_insert_ne.
Qed.

Lemma repipe_block_inside st c :
  getParent st (Exit cx) = Some (KernelFunction cx) →
  stays_inside cx (repipe_block cx st c) c.
Proof.
  intros HExit bb a t suc Hbb Ht Hs. rewrite getParent_repipe_block.
  unfold repipe_block in Hbb. destruct (heap st !! c) as [bb0|] eqn:Hc.
  - destruct (getTerminator (insts bb0)) as [[a0 t0]|] eqn:Ht0.
    + simpl in Hbb. rewrite lookup_insert_eq in Hbb. injection Hbb as <-. simpl in Ht.
      rewrite getTerminator_snoc in Ht
        by (rewrite isTerminator_map; by eapply getTerminator_isTerminator).
      injection Ht as <- <-. rewrite term_successors_map in Hs.
      apply list_elem_of_fmap in Hs as (s0 & -> & _). by case_decide.
    + rewrite Hc in Hbb. injection Hbb as <-. by rewrite Ht0 in Ht.
  - by rewrite Hc in Hbb.
Qed.

Lemma repipe_block_preserves st c c' :
  getParent st (Exit cx) = Some (KernelFunction cx) →
  stays_inside cx st c → stays_inside cx (repipe_block cx st c') c.
Proof.
  intros HExit Hin. destruct (decide (c' = c)) as [->|Hne];
    [by apply repipe_block_inside|].
  intros bb a t suc Hbb Ht Hs. rewrite getParent_repipe_block.
  apply (Hin bb a t suc); [|done..].
  unfold repipe_block in Hbb. destruct (heap st !! c') as [bb0|]; [|done].
  destruct (getTerminator (insts bb0)) as [[a0 t0]|]; [|done].
  simpl in Hbb. by rewrite lookup_insert_ne in Hbb.
Qed.

Lemma repipe_fold_preserves l st c :
  getParent st (Exit cx) = Some (KernelFunction cx) →
  stays_inside cx st c → stays_inside cx (fold_left (repipe_block cx) l st) c.
Proof.
  revert st. induction l as [|c' l IH]; intros st HExit Hin; [done|]. simpl.
  apply IH; [by rewrite getParent_repipe_block|by apply repipe_block_preserves].
Qed.

Lemma repipe_fold_inside l st c :
  getParent st (Exit cx) = Some (KernelFunction cx) →
  c ∈ l → stays_inside cx (fold_left (repipe_block cx) l st) c.
Proof.
  revert st. induction l as [|c' l IH]; intros st HExit Hc.
  - by apply elem_of_nil in Hc.
  - simpl. destruct (decide (c = c')) as [->|Hne].
    + apply repipe_fold_preserves; [by rewrite getParent_repipe_block|].
      by apply repipe_block_inside.
    + apply elem_of_cons in Hc as [?|Hc]; [done|].
      apply IH; [by rewrite getParent_repipe_block|done].
Qed.

End repipe.

Lemma Repipe_parents (cx : context) (st : build) b :
  getParent (Repipe cx st) b = getParent st b.
Proof.
  unfold Repipe. generalize (kfBlocks st). intros l. revert st.
  induction l as [|c l IH]; intros st; [done|]. simpl.
  rewrite IH. apply getParent_repipe_block.
Qed.

(** After [Repipe] no terminator of a block of [KernelFunction] leaves the
    function: every successor is a block of [KernelFunction], [Exit] being
    one of them. No block changes its function. *)
Theorem Repipe_stays_inside (cx : context) (st : build) :
  getParent st (Exit cx) = Some (KernelFunction cx) →
  (∀ c, c ∈ kfBlocks st → stays_inside cx (Repipe cx st) c) ∧
  (∀ b, getParent (Repipe cx st) b = getParent st b).
Proof.
  intros HExit. split.
  - intros c Hc. by apply repipe_fold_inside.
  - intros b. apply Repipe_parents.
Qed.

Lemma init_cases_lookup targets (i : nat) :
  init_cases targets !! i = (fun t => (i8 (Z.of_nat i), t)) <$> targets !! i.
Proof. unfold init_cases. by rewrite list_lookup_imap. Qed.

Lemma i8_small x : 0 ≤ x < 256 → i8 x = ConstantInt 8 x.
Proof. intros Hx. unfold i8. by rewrite Z.mod_small. Qed.

Lemma switch_dest_init (exception : ptr) targets x :
  0 ≤ x < 256 →
  switch_dest x exception (init_cases targets) = default exception (targets !! Z.to_nat x).
Proof.
  intros Hx. unfold switch_dest.
  destruct (targets !! Z.to_nat x) as [t|] eqn:Ht; simpl.
  - assert (Hfind : list_find (fun c : Value * ptr => c.1 = ConstantInt 8 x)
                      (init_cases targets) = Some (Z.to_nat x, (i8 x, t))).
    { apply list_find_Some. split_and!.
      - rewrite init_cases_lookup, Ht. simpl. by rewrite Z2Nat.id by lia.
      - simpl. by apply i8_small.
      - intros j y Hj Hlt Hy. rewrite init_cases_lookup in Hj.
        destruct (targets !! j); simplify_eq/=.
        rewrite i8_small in Hy by lia. injection Hy as Hy. lia. }
    by rewrite Hfind.
  - assert (Hfind : list_find (fun c : Value * ptr => c.1 = ConstantInt 8 x)
                      (init_cases targets) = None).
    { apply list_find_None, Forall_forall. intros y Hy.
      apply list_elem_of_lookup in Hy as [j Hj]. rewrite init_cases_lookup in Hj.
      destruct (targets !! j) eqn:Htj; simplify_eq/=.
      apply lookup_lt_Some in Htj. apply lookup_ge_None in Ht.
      rewrite i8_small by lia. intros [= Hy]. lia. }
    by rewrite Hfind.
Qed.

Lemma append_lookup b code st bb :
  heap st !! b = Some bb →
  heap (append b code st) !! b
  = Some {| parent := parent bb;
            insts := insts bb ++ zip ((fun i : nat => next st + Z.of_nat i)
                                        <$> seq 0 (length code)) code |}.
Proof. intros Hb. unfold append. simpl. by rewrite lookup_alter_eq, Hb. Qed.

Lemma append_lookup_ne b code st c :
  c ≠ b → heap (append b code st) !! c = heap st !! c.
Proof. intros Hne. unfold append. simpl. by rewrite lookup_alter_ne. Qed.

(** [BuildInit] ends the [Init] block with a switch on the first argument
    that takes the entrance id [x] to the clone of the [x]-th entrance in
    address order, and every id that is no rank of an entrance to
    [Exception]. The case values being eight bits wide, this holds of the
    ids 0 .. 255: an entrance of rank 256 or more is never dispatched to. *)
Theorem BuildInit_dispatch (cx : context) (Entrances : gset ptr) (st st' : build) bb :
  heap st !! Init cx = Some bb →
  BuildInit cx Entrances st = Some st' →
  ∃ a cases,
    heap st' !! Init cx
    = Some {| parent := parent bb;
              insts := insts bb ++ [(a, Switch (Arg (KernelFunction cx) 0) (Exception cx)
                                          cases)] |} ∧
    length cases = size Entrances ∧
    ∀ x, 0 ≤ x < 256 →
      Some (switch_dest x (Exception cx) cases)
      = match set_iter Entrances !! Z.to_nat x with
        | Some ent => image st ent
        | None => Some (Exception cx)
        end.
Proof.
  intros Hbb. unfold BuildInit. intros Hst.
  destruct (mapM (image st) (set_iter Entrances)) as [targets|] eqn:Ht; simplify_eq/=.
  apply mapM_Some in Ht. do 2 eexists. split_and!.
  - rewrite lookup_alter_eq, Hbb. simpl. reflexivity.
  - unfold init_cases. rewrite length_imap, <- (Forall2_length _ _ _ Ht).
    by rewrite set_iter_perm.
  - intros x Hx. rewrite switch_dest_init by done.
    destruct (set_iter Entrances !! Z.to_nat x) as [ent|] eqn:He.
    + destruct (Forall2_lookup_l _ _ _ _ _ Ht He) as (t & -> & Himg). done.
    + destruct (targets !! Z.to_nat x) eqn:Htx; [|done].
      destruct (Forall2_lookup_r _ _ _ _ _ Ht Htx) as (? & ? & _). congruence.
Qed.

Lemma elem_of_mapM {A B} (f : A → option B) l k y :
  mapM f l = Some k → y ∈ k ↔ ∃ x, x ∈ l ∧ f x = Some y.
Proof.
  intros H%mapM_Some. split.
  - intros [i Hi]%list_elem_of_lookup.
    destruct (Forall2_lookup_r _ _ _ _ _ H Hi) as (x & Hx & Hf).
    exists x. split; [by eapply list_elem_of_lookup_2|done].
  - intros (x & [i Hi]%list_elem_of_lookup & Hf).
    destruct (Forall2_lookup_l _ _ _ _ _ H Hi) as (y' & Hy & Hf').
    assert (y' = y) as -> by congruence. by eapply list_elem_of_lookup_2.
Qed.

(** [BuildExit] makes [Exit] return the exit id of the block control comes
    from: entered from the block that stands for the key [b] of [ExitMap],
    it returns the low eight bits of [ExitMap[b]], provided no other key
    stands for the same block. [Exception] returns 254, which is -2 as a
    signed byte. *)
Theorem BuildExit_returns (cx : context) (tik : gset ptr) (st st' : build) pE pX :
  heap st !! Exit cx = Some {| parent := pE; insts := [] |} →
  heap st !! Exception cx = Some {| parent := pX; insts := [] |} →
  Exit cx ≠ Exception cx →
  BuildExit cx tik st = Some st' →
  ∃ exit exception,
    heap st' !! Exit cx = Some exit ∧ heap st' !! Exception cx = Some exception ∧
    (∀ b id p, ExitMap st !! b = Some id → exit_block tik st b = Some p →
       (∀ b', is_Some (ExitMap st !! b') → exit_block tik st b' = Some p → b' = b) →
       returned (insts exit) p = Some (i8 id)) ∧
    (∀ p, returned (insts exit) p = None ↔
          ¬ ∃ b, is_Some (ExitMap st !! b) ∧ exit_block tik st b = Some p) ∧
    (∀ p, returned (insts exception) p = Some (ConstantInt 8 254)).
Proof.
  intros HE HX Hne. unfold BuildExit. intros Hst.
  destruct (mapM (exit_incoming tik st) (map_iter (ExitMap st))) as [incoming|] eqn:Hin;
    simplify_eq/=.
  assert (Hinc : ∀ v p, (v, p) ∈ incoming ↔
            ∃ b id, ExitMap st !! b = Some id ∧ exit_block tik st b = Some p ∧ v = i8 id).
  { intros v p. rewrite (elem_of_mapM _ _ _ _ Hin). split.
    - intros ([b id] & Hb%elem_of_map_iter & Hf). unfold exit_incoming in Hf. simpl in Hf.
      destruct (exit_block tik st b) eqn:Hp; simplify_eq/=. by exists b, id.
    - intros (b & id & Hb & Hp & ->). exists (b, id). split; [by apply elem_of_map_iter|].
      unfold exit_incoming. simpl. by rewrite Hp. }
  do 2 eexists. split_and!.
  - rewrite lookup_alter_ne by done. rewrite lookup_alter_eq, HE. simpl. reflexivity.
  - rewrite lookup_alter_eq, lookup_alter_ne, HX by done. simpl. reflexivity.
  - simpl. intros b id p Hb Hp Huniq. rewrite decide_True by (simpl; lia). unfold phi_value.
    destruct (list_find (fun vp : Value * ptr => vp.2 = p) incoming) as [[i [v p']]|] eqn:Hf.
    + apply list_find_Some in Hf as (Hi & Hp' & _). simpl in Hp'. subst p'.
      apply list_elem_of_lookup_2, Hinc in Hi as (b' & id' & Hb' & Hp'' & ->).
      assert (b' = b) as -> by (by apply Huniq). simpl. congruence.
    + exfalso. apply list_find_None in Hf. rewrite Forall_forall in Hf.
      apply (Hf (i8 id, p)); [|done]. apply Hinc. by exists b, id.
  - simpl. intros p. rewrite decide_True by (simpl; lia). unfold phi_value.
    destruct (list_find (fun vp : Value * ptr => vp.2 = p) incoming) as [[i [v p']]|] eqn:Hf.
    + split; [done|]. intros Hn. exfalso. apply Hn.
      apply list_find_Some in Hf as (Hi & Hp' & _). simpl in Hp'. subst p'.
      apply list_elem_of_lookup_2, Hinc in Hi as (b' & id' & Hb' & Hp'' & _).
      exists b'. split; [by eexists|done].
    + split; [|done]. intros _ (b & [id Hb] & Hp).
      apply list_find_None in Hf. rewrite Forall_forall in Hf.
      apply (Hf (i8 id, p)); [|done]. apply Hinc. by exists b, id.
  - done.
Qed.

(** *** Cloning a region without nested kernels *)

Lemma getTerminator_last code a t :
  getTerminator code = Some (a, t) ↔ last code = Some (a, t) ∧ isTerminator t = true.
Proof.
  unfold getTerminator. destruct (last code) as [[a' t']|].
  - destruct (isTerminator t') eqn:E; split.
    + by intros [= <- <-].
    + by intros [[= <- <-] _].
    + done.
    + intros [[= <- <-] Ht]. congruence.
  - split; [done|]. by intros [? _].
Qed.

Lemma last_zip {A B} (l : list A) (k : list B) a b :
  length l = length k → last k = Some b → last l = Some a → last (zip l k) = Some (a, b).
Proof.
  intros Hlen Hk Hl. rewrite last_lookup in Hk. rewrite last_lookup in Hl.
  rewrite last_lookup, length_zip_with, <- Hlen, Nat.min_id.
  apply lookup_zip_with_Some. exists a, b. split; [done|]. split; [done|].
  by rewrite Hlen.
Qed.

Lemma clone_terminator (cb : ptr) code a t :
  getTerminator code = Some (a, t) →
  ∃ a', getTerminator (zip ((fun i : nat => cb + 1 + Z.of_nat i) <$> seq 0 (length code))
                         code.*2) = Some (a', t).
Proof.
  intros [Hlast Ht]%getTerminator_last.
  assert (Hlen : length ((fun i : nat => cb + 1 + Z.of_nat i) <$> seq 0 (length code))
                 = length code.*2) by (by rewrite !length_fmap, length_seq).
  assert (H2 : last code.*2 = Some t) by (by rewrite fmap_last, Hlast).
  destruct (last ((fun i : nat => cb + 1 + Z.of_nat i) <$> seq 0 (length code)))
    as [a'|] eqn:Ha.
  - exists a'. apply getTerminator_last. split; [|done]. by apply last_zip.
  - apply last_None in Ha. rewrite Ha in Hlen. simpl in Hlen.
    symmetry in Hlen. apply length_zero_iff_nil in Hlen. by rewrite Hlen in H2.
Qed.

Lemma fix_phis_length cx blocks code : length (fix_phis cx blocks code) = length code.
Proof.
  induction code as [|[a i] code IH]; [done|]. destruct i; simpl; try done. by rewrite IH.
Qed.

Lemma fix_phis_terminator cx blocks code :
  getTerminator (fix_phis cx blocks code) = getTerminator code.
Proof.
  induction code as [|[a i] code IH]; [done|]. destruct i; try done. simpl.
  destruct code as [|x code]; [done|].
  assert (Hne : fix_phis cx blocks (x :: code) ≠ []).
  { intros Heq. apply (f_equal length) in Heq. by rewrite fix_phis_length in Heq. }
  unfold getTerminator in *. destruct (fix_phis cx blocks (x :: code)) eqn:E; [done|].
  rewrite !last_cons_cons in *. rewrite <- E in *. exact IH.
Qed.

Lemma clone_vmap_block (l : list ((ptr * Instr) * (ptr * Instr))) (m : gmap Value Value) b :
  fold_left (fun (m : gmap Value Value) (oc : (ptr * Instr) * (ptr * Instr)) =>
               <[Inst (oc.1).1 := Inst (oc.2).1]> m) l m !! Block b = m !! Block b.
Proof.
  revert m. induction l as [|oc l IH]; intros m; [done|]. simpl.
  rewrite IH. by rewrite lookup_insert_ne.
Qed.

Section clone.
Variable cx : context.
Variable blocks : gset ptr.
Variable st0 : build.
Hypothesis Hready : ready cx blocks st0.

Lemma clone_step done st b :
  clone_inv cx st0 done st → b ∈ blocks → b ∉ done → ¬ unassigned st0 b →
  ∃ st', build_block cx blocks st b = Ok st' ∧ clone_inv cx st0 ({[b]} ∪ done) st'.
Proof.
  intros (I1 & I2 & I3 & I4 & I5 & [I6 I6'] & I7 & I8 & I9) Hb Hnd Hassigned.
  destruct (ready_blocks _ _ _ Hready b Hb) as [bb0 Hbb0].
  pose proof (ready_fresh _ _ _ Hready _ _ Hbb0) as HbN.
  assert (Hhb : heap st !! b = Some bb0) by (by rewrite I2).
  assert (Hfresh : heap st !! next st = None).
  { destruct (heap st !! next st) eqn:E; [|done]. apply I3 in E. lia. }
  unfold build_block. rewrite (ready_no_nested _ _ _ Hready b Hb).
  unfold clone_block, CloneBasicBlock, create_block. rewrite Hhb. simpl.
  rewrite lookup_insert_eq. simpl. rewrite length_fmap.
  set (cb := next st).
  set (code := zip ((fun i : nat => cb + 1 + Z.of_nat i) <$> seq 0 (length (insts bb0)))
                 (insts bb0).*2).
  set (vm := fold_left _ _ (VMap st)).
  assert (Hvm : ∀ x, vm !! Block x = VMap st !! Block x)
    by (intros x; apply clone_vmap_block).
  destruct (I7 b HbN Hnd) as [HB HT].
  assert (Hplace : b ∈ Body st ∨ ((b ∉ Body st) ∧ b ∈ Termination st)).
  { destruct (decide (b ∈ Body st)) as [|HnB]; [by left|right]. split; [done|].
    destruct (decide (b ∈ Termination st)) as [|HnT]; [done|].
    exfalso. apply Hassigned. split; [by rewrite <- HB|by rewrite <- HT]. }
  assert (Hinv : ∀ body term cond,
    (b ∈ Body st0 → cb ∈ body) →
    (b ∉ Body st0 → b ∈ Termination st0 → cb ∈ term) →
    (∀ x, x ≠ b → x ∈ Body st → x ∈ body) →
    (∀ x, x ≠ b → x ∈ Termination st → x ∈ term) →
    (∀ x, x < next st0 → x ≠ b → (x ∈ body ↔ x ∈ Body st) ∧ (x ∈ term ↔ x ∈ Termination st)) →
    clone_inv cx st0 ({[b]} ∪ done)
      {| next := cb + 1 + Z.of_nat (length (insts bb0));
         heap := alter (fun b0 => {| parent := parent b0;
                                     insts := fix_phis cx blocks (insts b0) |}) cb
                   (<[cb := {| parent := KernelFunction cx; insts := code |}]> (heap st));
         kfBlocks := kfBlocks st ++ [cb];
         VMap := <[Block b := Block cb]> vm;
         Body := body; Termination := term; Conditional := cond;
         ExitMap := ExitMap st; handeledExits := handeledExits st |}).
  { intros body term cond Hb1 Hb2 Hk1 Hk2 Hk3. unfold clone_inv. simpl. split_and!.
    - lia.
    - intros p Hp. rewrite lookup_alter_ne, lookup_insert_ne by (unfold cb; lia). by apply I2.
    - intros p bb. destruct (decide (p = cb)) as [->|Hne].
      + intros _. lia.
      + rewrite lookup_alter_ne, lookup_insert_ne by done. intros Hp%I3. lia.
    - intros x Hx. apply not_elem_of_union in Hx as [Hx%not_elem_of_singleton Hx'].
      rewrite lookup_insert_ne by congruence. rewrite Hvm. by apply I4.
    - intros x [Hx%elem_of_singleton|Hx]%elem_of_union.
      + subst x. exists cb, bb0, (fix_phis cx blocks code). simpl. split_and!; try done.
        * by rewrite lookup_insert_eq.
        * apply elem_of_app. right. by apply list_elem_of_singleton.
        * by rewrite lookup_alter_eq, lookup_insert_eq.
        * intros a t Ht. rewrite fix_phis_terminator. by apply (clone_terminator cb _ a).
      + assert (x ≠ b) by (intros ->; done).
        destruct (I5 x Hx) as (cx' & bbx & codex & H1 & H2 & H3 & H4 & H5 & H6 & H7 & H8).
        assert (cx' < cb) by (by apply I6').
        exists cx', bbx, codex. simpl. split_and!; try done.
        * rewrite lookup_insert_ne by congruence. by rewrite Hvm.
        * apply elem_of_app. by left.
        * rewrite lookup_alter_ne, lookup_insert_ne by lia. done.
        * intros Hxb. apply Hk1; [lia|]. by apply H7.
        * intros Hxb Hxt. apply Hk2; [lia|]. by apply H8.
    - apply NoDup_app. split; [done|]. split; [|apply NoDup_singleton].
      intros x Hx Hx'%list_elem_of_singleton. subst x. apply I6' in Hx. lia.
    - intros c [Hc|Hc%list_elem_of_singleton]%elem_of_app; [apply I6' in Hc|subst c]; lia.
    - intros x Hx [Hxb%not_elem_of_singleton Hxd]%not_elem_of_union.
      destruct (Hk3 x Hx Hxb) as [-> ->]. by apply I7.
    - done.
    - assert (Hold : ∀ x c, x ∈ done → x ≠ b →
                (<[Block b := Block cb]> vm) !! Block x = Some (Block c) →
                VMap st !! Block x = Some (Block c) ∧ c < cb).
      { intros x c Hx Hxb. rewrite lookup_insert_ne by congruence. rewrite Hvm.
        intros Hc. split; [done|].
        destruct (I5 x Hx) as (c' & ? & ? & _ & Hc' & _ & Hkf & _).
        assert (c' = c) as -> by congruence. by apply I6'. }
      intros x y c Hx Hy Hcx Hcy.
      destruct (decide (x = b)) as [->|Hxb]; destruct (decide (y = b)) as [->|Hyb];
        [done| | |].
      + rewrite lookup_insert_eq in Hcx. injection Hcx as <-.
        apply Hold in Hcy as [_ ?]; [lia|set_solver|done].
      + rewrite lookup_insert_eq in Hcy. injection Hcy as <-.
        apply Hold in Hcx as [_ ?]; [lia|set_solver|done].
      + apply Hold in Hcx as [Hcx _]; [|set_solver|done].
        apply Hold in Hcy as [Hcy _]; [|set_solver|done].
        apply (I9 x y c); [set_solver|set_solver|done|done]. }
  assert (Hcb : cb ≠ b) by (unfold cb; lia).
  assert (Hmem : ∀ (X : gset ptr) x, x ∈ {[cb]} ∪ X ∖ {[b]} ↔ x = cb ∨ (x ∈ X ∧ x ≠ b)).
  { intros X x. rewrite elem_of_union, elem_of_difference, !elem_of_singleton. tauto. }
  destruct Hplace as [HinB|[HnB HinT]].
  - rewrite decide_True by done. eexists. split; [reflexivity|]. apply Hinv.
    + intros _. apply Hmem. by left.
    + intros Hn. exfalso. apply Hn. by apply HB.
    + intros x Hxb Hx. apply Hmem. by right.
    + done.
    + intros x Hx Hxb. assert (x ≠ cb) by (unfold cb; lia). rewrite Hmem. tauto.
  - rewrite decide_False, decide_True by done. eexists. split; [reflexivity|]. apply Hinv.
    + intros Hn. exfalso. apply HnB. by apply HB.
    + intros _ _. apply Hmem. by left.
    + done.
    + intros x Hxb Hx. apply Hmem. by right.
    + intros x Hx Hxb. assert (x ≠ cb) by (unfold cb; lia). rewrite Hmem. tauto.
Qed.

Lemma clone_step_throw done st b :
  clone_inv cx st0 done st → b ∈ blocks → b ∉ done → unassigned st0 b →
  build_block cx blocks st b = Throw (TikError "Tik Error: block not in Body or Termination").
Proof.
  intros (I1 & I2 & I3 & I4 & I5 & [I6 I6'] & I7 & _) Hb Hnd [HnB HnT].
  destruct (ready_blocks _ _ _ Hready b Hb) as [bb0 Hbb0].
  pose proof (ready_fresh _ _ _ Hready _ _ Hbb0) as HbN.
  destruct (I7 b HbN Hnd) as [HB HT].
  unfold build_block. rewrite (ready_no_nested _ _ _ Hready b Hb).
  unfold clone_block, CloneBasicBlock, create_block. simpl.
  rewrite decide_False by (by rewrite HB). by rewrite decide_False by (by rewrite HT).
Qed.

Lemma clone_fold l done st :
  clone_inv cx st0 done st → NoDup l → (∀ b, b ∈ l → b ∈ blocks ∧ b ∉ done) →
  (∀ b, b ∈ l → ¬ unassigned st0 b) →
  ∃ st', foldM (build_block cx blocks) l st = Ok st' ∧
         clone_inv cx st0 (list_to_set l ∪ done) st'.
Proof.
  revert done st. induction l as [|b l IH]; intros done st Hinv Hnd Hl Has; simpl.
  - exists st. split; [done|]. by rewrite union_empty_l_L.
  - apply NoDup_cons in Hnd as [Hbl Hnd].
    destruct (Hl b ltac:(by left)) as [Hb Hbd].
    destruct (clone_step done st b Hinv Hb Hbd) as (st1 & -> & Hinv1);
      [apply Has; by left|]. simpl.
    destruct (IH ({[b]} ∪ done) st1 Hinv1 Hnd) as (st' & Hst' & Hinv').
    { intros b' Hb'. destruct (Hl b' ltac:(by right)) as [? ?]. split; [done|].
      apply not_elem_of_union. split; [|done]. apply not_elem_of_singleton. by intros ->. }
    { intros b' Hb'. apply Has. by right. }
    exists st'. split; [done|].
    by replace (list_to_set l ∪ ({[b]} ∪ done)) with ({[b]} ∪ list_to_set l ∪ done)
      in Hinv' by set_solver.
Qed.

Lemma clone_fold_throw l done st b0 :
  clone_inv cx st0 done st → NoDup l → (∀ b, b ∈ l → b ∈ blocks ∧ b ∉ done) →
  b0 ∈ l → unassigned st0 b0 →
  foldM (build_block cx blocks) l st
  = Throw (TikError "Tik Error: block not in Body or Termination").
Proof.
  revert done st. induction l as [|b l IH]; intros done st Hinv Hnd Hl Hb0 Hun; simpl.
  - by apply elem_of_nil in Hb0.
  - apply NoDup_cons in Hnd as [Hbl Hnd].
    destruct (Hl b ltac:(by left)) as [Hb Hbd].
    destruct (decide (b ∈ Body st0 ∨ b ∈ Termination st0)) as [Has|Has].
    + destruct (clone_step done st b Hinv Hb Hbd) as (st1 & -> & Hinv1);
        [intros [? ?]; tauto|]. simpl.
      apply elem_of_cons in Hb0 as [->|Hb0]; [destruct Hun; tauto|].
      apply (IH ({[b]} ∪ done) st1 Hinv1 Hnd); [|done..].
      intros b' Hb'. destruct (Hl b' ltac:(by right)) as [? ?]. split; [done|].
      apply not_elem_of_union. split; [|done]. apply not_elem_of_singleton. by intros ->.
    + rewrite (clone_step_throw done st b Hinv Hb Hbd); [done|]. split; tauto.
Qed.

Lemma start_inv : clone_inv cx st0 ∅ (start st0).
Proof.
  destruct Hready as [R1 R2 R3 R4 R5 R6 R7].
  unfold clone_inv. simpl. split_and!; try done.
  - apply R5.
  - apply R5.
Qed.

Lemma BuildKernel_throws b :
  b ∈ blocks → unassigned st0 b →
  BuildKernel cx blocks st0 = Throw (TikError "Tik Error: block not in Body or Termination").
Proof.
  intros Hb Hun.
  apply (clone_fold_throw (set_iter blocks) ∅ (start st0) b start_inv).
  - apply NoDup_set_iter.
  - intros b' Hb'%elem_of_set_iter. split; [done|]. apply not_elem_of_empty.
  - by apply elem_of_set_iter.
  - done.
Qed.

Lemma BuildKernel_cloned :
  (∀ b, b ∈ blocks → ¬ unassigned st0 b) →
  ∃ st', BuildKernel cx blocks st0 = Ok st' ∧ clone_inv cx st0 blocks st'.
Proof.
  intros Has.
  destruct (clone_fold (set_iter blocks) ∅
              {| next := next st0; heap := heap st0; kfBlocks := kfBlocks st0;
                 VMap := VMap st0; Body := Body st0; Termination := Termination st0;
                 Conditional := Conditional st0; ExitMap := ExitMap st0;
                 handeledExits := ∅ |}) as (st' & Hst' & Hinv).
  - apply start_inv.
  - apply NoDup_set_iter.
  - intros b Hb%elem_of_set_iter. split; [done|]. apply not_elem_of_empty.
  - intros b Hb%elem_of_set_iter. by apply Has.
  - exists st'. split; [exact Hst'|].
    replace blocks with (list_to_set (set_iter blocks) ∪ (∅ : gset ptr)); [done|].
    apply set_eq. intros x.
    rewrite elem_of_union, elem_of_list_to_set, elem_of_set_iter. set_solver.
Qed.

End clone.

Lemma getParent_remap_block st c s : getParent (remap_block st c) s = getParent st s.
Proof.
  unfold remap_block, getParent. simpl. destruct (decide (s = c)) as [->|Hne].
  - rewrite lookup_alter_eq. by destruct (heap st !! c).
  - by rewrite lookup_alter_ne.
Qed.

Lemma remap_fold_frame l st :
  let st' := fold_left remap_block l st in
  VMap st' = VMap st ∧ kfBlocks st' = kfBlocks st ∧
  (∀ s, getParent st' s = getParent st s) ∧
  (∀ c, c ∉ l → heap st' !! c = heap st !! c).
Proof.
  revert st. induction l as [|c l IH]; intros st; simpl; [done|].
  destruct (IH (remap_block st c)) as (H1 & H2 & H3 & H4). split_and!.
  - by rewrite H1.
  - by rewrite H2.
  - intros s. by rewrite H3, getParent_remap_block.
  - intros c' [Hne Hc']%not_elem_of_cons. rewrite H4 by done.
    unfold remap_block. simpl. by rewrite lookup_alter_ne.
Qed.

Lemma getTerminator_fmap (f : Instr → Instr) code a t :
  (∀ i, isTerminator (f i) = isTerminator i) →
  getTerminator code = Some (a, t) →
  getTerminator ((fun ai : ptr * Instr => (ai.1, f ai.2)) <$> code) = Some (a, f t).
Proof.
  intros Hf [Hlast Ht]%getTerminator_last. apply getTerminator_last.
  rewrite fmap_last, Hlast. simpl. by rewrite Hf.
Qed.

Lemma isTerminator_remap vm i : isTerminator (RemapInstruction vm i) = isTerminator i.
Proof. by destruct i. Qed.

Lemma term_successors_remap vm t :
  term_successors (RemapInstruction vm t) = map_block vm <$> term_successors t.
Proof.
  destruct t; simpl; try done. f_equal. rewrite <- !list_fmap_compose. done.
Qed.

Lemma remap_fold_terminator l st c t :
  NoDup l → c ∈ l → terminator st c t →
  terminator (fold_left remap_block l st) c (RemapInstruction (VMap st) t).
Proof.
  revert st. induction l as [|c' l IH]; intros st Hnd Hc Ht.
  - by apply elem_of_nil in Hc.
  - apply NoDup_cons in Hnd as [Hc' Hnd]. simpl.
    destruct (decide (c = c')) as [->|Hne].
    + destruct Ht as (bb & a & Hbb & Hterm).
      destruct (remap_fold_frame l (remap_block st c')) as (_ & _ & _ & Hframe).
      unfold terminator. rewrite Hframe by done. unfold remap_block. simpl.
      rewrite lookup_alter_eq, Hbb. simpl. eexists _, a. split; [done|]. simpl.
      apply getTerminator_fmap; [apply isTerminator_remap|done].
    + apply elem_of_cons in Hc as [?|Hc]; [done|].
      replace (VMap st) with (VMap (remap_block st c')) by done.
      apply IH; [done..|]. destruct Ht as (bb & a & Hbb & Hterm).
      exists bb, a. split; [|done]. unfold remap_block. simpl. by rewrite lookup_alter_ne.
Qed.

Lemma repipe_fold_frame cx l st :
  let st' := fold_left (repipe_block cx) l st in
  VMap st' = VMap st ∧ kfBlocks st' = kfBlocks st ∧
  (∀ c, c ∉ l → heap st' !! c = heap st !! c).
Proof.
  revert st. induction l as [|c l IH]; intros st; simpl; [done|].
  destruct (IH (repipe_block cx st c)) as (H1 & H2 & H4).
  assert (Hst : VMap (repipe_block cx st c) = VMap st ∧
                kfBlocks (repipe_block cx st c) = kfBlocks st ∧
                ∀ c', c' ≠ c → heap (repipe_block cx st c) !! c' = heap st !! c').
  { unfold repipe_block. destruct (heap st !! c) as [bb|]; [|done].
    destruct (getTerminator (insts bb)) as [[a t]|]; [|done]. simpl.
    split_and!; try done. intros c' Hne. by rewrite lookup_insert_ne. }
  destruct Hst as (S1 & S2 & S3). split_and!.
  - by rewrite H1.
  - by rewrite H2.
  - intros c' [Hne Hc']%not_elem_of_cons. rewrite H4 by done. by apply S3.
Qed.

Lemma map_successors_ext (f g : ptr → ptr) t :
  (∀ s, f s = g s) → map_successors f t = map_successors g t.
Proof.
  intros Hfg. destruct t; simpl; try done; rewrite ?Hfg; try done.
  f_equal. apply list_fmap_ext. intros ? [w d] _. simpl. by rewrite Hfg.
Qed.

Lemma repipe_fold_terminator cx l st c t :
  NoDup l → c ∈ l → terminator st c t →
  terminator (fold_left (repipe_block cx) l st) c (map_successors (redirect cx st) t).
Proof.
  revert st. induction l as [|c' l IH]; intros st Hnd Hc Ht.
  - by apply elem_of_nil in Hc.
  - apply NoDup_cons in Hnd as [Hc' Hnd]. simpl.
    destruct (decide (c = c')) as [->|Hne].
    + destruct Ht as (bb & a & Hbb & Hterm).
      destruct (repipe_fold_frame cx l (repipe_block cx st c')) as (_ & _ & Hframe).
      unfold terminator. rewrite Hframe by done. unfold repipe_block.
      rewrite Hbb, Hterm. simpl. rewrite lookup_insert_eq. eexists _, a. split; [done|].
      simpl. apply getTerminator_snoc. rewrite isTerminator_map.
      by eapply getTerminator_isTerminator.
    + apply elem_of_cons in Hc as [?|Hc]; [done|].
      rewrite (map_successors_ext (redirect cx st) (redirect cx (repipe_block cx st c'))).
      * apply IH; [done..|]. destruct Ht as (bb & a & Hbb & Hterm).
        exists bb, a. split; [|done]. unfold repipe_block.
        destruct (heap st !! c') as [bb'|]; [|done].
        destruct (getTerminator (insts bb')) as [[a' t']|]; [|done]. simpl.
        by rewrite lookup_insert_ne.
      * intros s. unfold redirect. by rewrite getParent_repipe_block.
Qed.

(** Without nested kernels in the region, [BuildKernel] throws exactly when
    the region analyser left a block out of both [Body] and [Termination].
    Otherwise every block of the region gets a clone in [KernelFunction]
    that [VMap] takes it to, with the same terminator, and the clone is put
    in [Body] when the block was there and in [Termination] otherwise. *)
Theorem BuildKernel_clones_and_places (cx : context) (blocks : gset ptr) (st0 : build) :
  ready cx blocks st0 →
  match BuildKernel cx blocks st0 with
  | Ok st1 => (∀ b, b ∈ blocks → ¬ unassigned st0 b ∧ cloned cx st0 st1 b)
  | Throw e => e = TikError "Tik Error: block not in Body or Termination" ∧
               ∃ b, b ∈ blocks ∧ unassigned st0 b
  end.
Proof.
  intros Hready.
  destruct (decide (set_Exists (unassigned st0) blocks)) as [(b & Hb & Hun)|Hall].
  - rewrite (BuildKernel_throws cx blocks st0 Hready b Hb Hun). split; [done|]. by exists b.
  - assert (Has : ∀ b, b ∈ blocks → ¬ unassigned st0 b).
    { intros b Hb Hun. apply Hall. by exists b. }
    destruct (BuildKernel_cloned cx blocks st0 Hready Has)
      as (st1 & -> & (_ & _ & _ & _ & I5 & _)).
    intros b Hb. split; [by apply Has|by apply I5].
Qed.

(** [BuildKernel], [Remap] and [Repipe], one after the other, on a region
    without nested kernels: the clone of each block of the region ends in
    its terminator with every successor inside the region replaced by that
    successor's clone and every successor outside it replaced by [Exit]. *)
Theorem kernel_mirrors_region (cx : context) (blocks : gset ptr) (st0 : build) :
  ready cx blocks st0 → (∀ b, b ∈ blocks → ¬ unassigned st0 b) →
  ∃ st1, BuildKernel cx blocks st0 = Ok st1 ∧
    let st3 := Repipe cx (Remap st1) in
    ∀ b t, b ∈ blocks → terminator st0 b t →
      ∃ cb t', image st3 b = Some cb ∧ getParent st3 cb = Some (KernelFunction cx) ∧
               terminator st3 cb t' ∧
               Forall2 (mirrors cx blocks st3) (term_successors t) (term_successors t').
Proof.
  intros Hready Has.
  destruct (BuildKernel_cloned cx blocks st0 Hready Has)
    as (st1 & Hst1 & (I1 & I2 & I3 & I4 & I5 & [I6 I6'] & I7 & _)).
  exists st1. split; [done|]. intros st3 b t Hb Ht.
  destruct (remap_fold_frame (kfBlocks st1) st1) as (M1 & M2 & M3 & _).
  fold (Remap st1) in M1, M2, M3.
  destruct (repipe_fold_frame cx (kfBlocks (Remap st1)) (Remap st1)) as (P1 & P2 & _).
  fold (Repipe cx (Remap st1)) in P1, P2. fold st3 in P1, P2.
  assert (P3 : ∀ s, getParent st3 s = getParent st1 s).
  { intros s. unfold st3. rewrite <- M3. apply Repipe_parents. }
  assert (Himg : ∀ s, image st3 s = image st1 s).
  { intros s. unfold image. by rewrite P1, M1. }
  assert (Hclone : ∀ s, s ∈ blocks →
            ∃ cs, image st1 s = Some cs ∧ map_block (VMap st1) s = cs ∧
                  getParent st1 cs = Some (KernelFunction cx)).
  { intros s Hs. destruct (I5 s Hs) as (cs & bbs & codes & _ & Hv & _ & _ & Hh & _).
    exists cs. unfold image, map_block, getParent. rewrite Hv, Hh. done. }
  destruct (I5 b Hb) as (cb & bb0 & code & Hbb0 & Hv & HcbN & Hkf & Hh & Hterm & _).
  destruct Ht as (bb0' & a & Hbb0' & Hta). assert (bb0' = bb0) as -> by congruence.
  destruct (Hterm a t Hta) as [a' Ha'].
  assert (T1 : terminator st1 cb t) by (by eexists _, a').
  pose proof (remap_fold_terminator (kfBlocks st1) st1 cb t I6 Hkf T1) as T2.
  fold (Remap st1) in T2.
  pose proof (repipe_fold_terminator cx (kfBlocks (Remap st1)) (Remap st1) cb _
                ltac:(by rewrite M2) ltac:(by rewrite M2) T2) as T3.
  fold (Repipe cx (Remap st1)) in T3. fold st3 in T3.
  eexists cb, _. split_and!.
  - rewrite Himg. unfold image. by rewrite Hv.
  - rewrite P3. unfold getParent. by rewrite Hh.
  - exact T3.
  - rewrite term_successors_map, term_successors_remap.
    apply Forall2_fmap_r, Forall2_fmap_r, Forall_Forall2_diag, Forall_forall.
    intros s Hs. unfold mirrors, redirect, compose. rewrite M3. destruct (decide (s ∈ blocks)) as [Hin|Hout].
    + destruct (Hclone s Hin) as (cs & Hi & -> & Hp). rewrite Himg, Hi, Hp.
      by rewrite decide_True.
    + assert (Hmap : map_block (VMap st1) s = s) by (unfold map_block; by rewrite I4).
      rewrite Hmap.
      destruct (ready_succ _ _ _ Hready b t s Hb ltac:(by eexists _, a) Hs Hout)
        as (f & Hf & Hne).
      assert (Hsame : getParent st1 s = getParent st0 s).
      { unfold getParent in *. destruct (heap st0 !! s) as [bbs|] eqn:E; [|done].
        rewrite I2; [by rewrite E|]. by eapply ready_fresh. }
      rewrite Hsame, Hf. rewrite decide_False; [done|]. congruence.
Qed.

Lemma remap_fold_keeps l st :
  let st' := fold_left remap_block l st in
  ExitMap st' = ExitMap st ∧ next st' = next st ∧
  ∀ c p, heap st !! c = Some {| parent := p; insts := [] |} →
         heap st' !! c = Some {| parent := p; insts := [] |}.
Proof.
  revert st. induction l as [|c l IH]; intros st; simpl; [done|].
  destruct (IH (remap_block st c)) as (H1 & H2 & H3). split_and!; [done..|].
  intros c' p Hc'. apply H3. unfold remap_block. simpl.
  destruct (decide (c' = c)) as [->|Hne].
  - by rewrite lookup_alter_eq, Hc'.
  - by rewrite lookup_alter_ne.
Qed.

Lemma repipe_fold_keeps cx l st :
  let st' := fold_left (repipe_block cx) l st in
  ExitMap st' = ExitMap st ∧ next st' = next st ∧
  ∀ c p, heap st !! c = Some {| parent := p; insts := [] |} →
         heap st' !! c = Some {| parent := p; insts := [] |}.
Proof.
  revert st. induction l as [|c l IH]; intros st; simpl; [done|].
  destruct (IH (repipe_block cx st c)) as (H1 & H2 & H3).
  assert (Hst : ExitMap (repipe_block cx st c) = ExitMap st ∧
                next (repipe_block cx st c) = next st ∧
                ∀ c' p, heap st !! c' = Some {| parent := p; insts := [] |} →
                        heap (repipe_block cx st c) !! c'
                        = Some {| parent := p; insts := [] |}).
  { unfold repipe_block. destruct (heap st !! c) as [bb|] eqn:Hc; [|done].
    destruct (getTerminator (insts bb)) as [[a t]|] eqn:Ht; [|done]. simpl.
    split_and!; try done. intros c' p Hc'. destruct (decide (c' = c)) as [->|Hne].
    - rewrite Hc in Hc'. injection Hc' as ->. done.
    - by rewrite lookup_insert_ne. }
  destruct Hst as (S1 & S2 & S3). split_and!; [congruence..|].
  intros c' p Hc'. by apply H3, S3.
Qed.

Lemma image_Some st b c : image st b = Some c ↔ VMap st !! Block b = Some (Block c).
Proof.
  unfold image. destruct (VMap st !! Block b) as [[]|]; split; intros; simplify_eq; done.
Qed.

(** A block that leaves the region but has no entry in [ExitMap] gets no
    exit id: after [BuildKernel], [Remap], [Repipe] and [BuildExit] on a
    region without nested kernels its clone branches to [Exit], and the phi
    of [Exit] has no value for control that comes from it. *)
Theorem exit_without_entry_has_no_id (cx : context) (tik : gset ptr) (blocks : gset ptr)
    (st0 : build) (b s : ptr) (t : Instr) (pX : ptr) :
  ready cx blocks st0 → (∀ b, b ∈ blocks → ¬ unassigned st0 b) →
  heap st0 !! Exit cx = Some {| parent := KernelFunction cx; insts := [] |} →
  heap st0 !! Exception cx = Some {| parent := pX; insts := [] |} →
  Exit cx ≠ Exception cx →
  (∀ k, is_Some (ExitMap st0 !! k) → k ∈ blocks) →
  (∀ k f, k ∈ blocks → getParent st0 k = Some f → f ∉ tik) →
  b ∈ blocks → terminator st0 b t → s ∈ term_successors t → s ∉ blocks →
  ExitMap st0 !! b = None →
  ∃ st1 st' cb t' exit,
    BuildKernel cx blocks st0 = Ok st1 ∧
    BuildExit cx tik (Repipe cx (Remap st1)) = Some st' ∧
    image st' b = Some cb ∧ terminator st' cb t' ∧ Exit cx ∈ term_successors t' ∧
    heap st' !! Exit cx = Some exit ∧ returned (insts exit) cb = None.
Proof.
  intros Hready Has HExit HExc Hne Hkeys Htik Hb Ht Hs Hout Hnone.
  destruct (BuildKernel_cloned cx blocks st0 Hready Has)
    as (st1 & Hst1 & (I1 & I2 & I3 & I4 & I5 & [I6 I6'] & I7 & I8 & I9)).
  set (st2 := Remap st1). set (st3 := Repipe cx st2).
  destruct (remap_fold_frame (kfBlocks st1) st1) as (M1 & M2 & M3 & _).
  destruct (remap_fold_keeps (kfBlocks st1) st1) as (M4 & M5 & M6).
  fold (Remap st1) in M1, M2, M3, M4, M5, M6. fold st2 in M1, M2, M3, M4, M5, M6.
  destruct (repipe_fold_frame cx (kfBlocks st2) st2) as (P1 & P2 & _).
  destruct (repipe_fold_keeps cx (kfBlocks st2) st2) as (P4 & P5 & P6).
  fold (Repipe cx st2) in P1, P2, P4, P5, P6. fold st3 in P1, P2, P4, P5, P6.
  assert (P3 : ∀ x, getParent st3 x = getParent st1 x).
  { intros x. unfold st3. rewrite Repipe_parents. apply M3. }
  assert (Hlow : ∀ x bb, heap st0 !! x = Some bb → heap st1 !! x = Some bb).
  { intros x bb Hx. rewrite I2; [done|]. by eapply ready_fresh. }
  assert (HE3 : heap st3 !! Exit cx = Some {| parent := KernelFunction cx; insts := [] |})
    by (by apply P6, M6, Hlow).
  assert (HX3 : heap st3 !! Exception cx = Some {| parent := pX; insts := [] |})
    by (by apply P6, M6, Hlow).
  (* the clone of [b] and its terminator *)
  destruct (I5 b Hb) as (cb & bb0 & code & Hbb0 & Hv & HcbN & Hkf & Hh & Hterm & _).
  destruct Ht as (bb0' & a & Hbb0' & Hta). assert (bb0' = bb0) as -> by congruence.
  destruct (Hterm a t Hta) as [a' Ha'].
  assert (T1 : terminator st1 cb t) by (by eexists _, a').
  pose proof (remap_fold_terminator (kfBlocks st1) st1 cb t I6 Hkf T1) as T2.
  fold (Remap st1) in T2. fold st2 in T2.
  pose proof (repipe_fold_terminator cx (kfBlocks st2) st2 cb _
                ltac:(by rewrite M2) ltac:(by rewrite M2) T2) as T3.
  fold (Repipe cx st2) in T3. fold st3 in T3.
  assert (HcbE : cb ≠ Exit cx ∧ cb ≠ Exception cx).
  { apply (ready_fresh _ _ _ Hready) in HExit, HExc. lia. }
  (* the keys of [ExitMap] stand for the clones of region blocks *)
  assert (Hkey : ∀ k id, ExitMap st3 !! k = Some id →
            ∃ ck, exit_block tik st3 k = Some ck ∧ VMap st1 !! Block k = Some (Block ck) ∧
                  k ∈ blocks).
  { intros k id Hk. rewrite P4, M4, I8 in Hk.
    assert (Hkb : k ∈ blocks) by (apply Hkeys; by eexists).
    destruct (I5 k Hkb) as (ck & bbk & ? & Hbbk & Hvk & _).
    exists ck. split_and!; [|done..]. unfold exit_block, in_TikModule.
    assert (Hpk : getParent st3 k = Some (parent bbk)).
    { rewrite P3. unfold getParent. by rewrite (Hlow _ _ Hbbk). }
    rewrite Hpk. rewrite bool_decide_eq_false_2.
    - apply image_Some. by rewrite P1, M1.
    - apply (Htik k); [done|]. unfold getParent. by rewrite Hbbk. }
  assert (Hinc : ∃ incoming, mapM (exit_incoming tik st3) (map_iter (ExitMap st3))
                             = Some incoming).
  { apply mapM_is_Some, Forall_forall. intros [k id] Hk%elem_of_map_iter.
    destruct (Hkey k id Hk) as (ck & Hck & _). unfold exit_incoming. simpl.
    rewrite Hck. by eexists. }
  destruct Hinc as [incoming Hinc].
  assert (Hno : ∀ v p, (v, p) ∈ incoming → p ≠ cb).
  { intros v p Hin ->. apply (elem_of_mapM _ _ _ _ Hinc) in Hin as ([k id] & Hk & Hf).
    apply elem_of_map_iter in Hk. destruct (Hkey k id Hk) as (ck & Hck & Hvk & Hkb).
    unfold exit_incoming in Hf. simpl in Hf. rewrite Hck in Hf. simpl in Hf.
    injection Hf as _ ->.
    assert (k = b) as -> by (by apply (I9 k b cb)).
    rewrite P4, M4, I8, Hnone in Hk. done. }
  exists st1. unfold BuildExit. fold st2 st3. rewrite Hinc. simpl.
  eexists _, cb, _, _. split_and!; [done|reflexivity| | | | |].
  - apply image_Some. simpl. by rewrite P1, M1.
  - destruct T3 as (bb3 & a3 & Hbb3 & Ht3). exists bb3, a3. split; [|exact Ht3].
    simpl. rewrite !lookup_alter_ne by (destruct HcbE; congruence). exact Hbb3.
  - rewrite term_successors_map, term_successors_remap.
    apply list_elem_of_fmap. exists s. split.
    + unfold redirect. rewrite M3.
      destruct (ready_succ _ _ _ Hready b t s Hb ltac:(by eexists _, a) Hs Hout)
        as (f & Hf & Hnf).
      assert (Hsame : getParent st1 s = getParent st0 s).
      { unfold getParent in *. destruct (heap st0 !! s) as [bbs|] eqn:E; [|done].
        by rewrite (Hlow _ _ E). }
      rewrite Hsame, Hf. rewrite decide_False; [done|]. congruence.
    + apply list_elem_of_fmap. exists s. split; [|done].
      unfold map_block. by rewrite I4.
  - simpl. rewrite lookup_alter_ne by done. rewrite lookup_alter_eq, HE3. simpl. reflexivity.
  - simpl. rewrite decide_True by (simpl; lia). unfold phi_value.
    destruct (list_find (fun vp : Value * ptr => vp.2 = cb) incoming) as [[i [v p]]|] eqn:Hf;
      [|done].
    apply list_find_Some in Hf as (Hi & Hp & _). simpl in Hp. subst p.
    apply list_elem_of_lookup_2 in Hi. by destruct (Hno v cb Hi).
Qed.

Lemma loop_ready : ready loop_context Walks.loop_blocks loop_before.
Proof.
  assert (Hblocks : ∀ b, b ∈ Walks.loop_blocks → b = 1 ∨ b = 2).
  { intros b. unfold Walks.loop_blocks. rewrite elem_of_union, !elem_of_singleton. tauto. }
  split.
  - assert (Hall : map_Forall (fun p _ => p < 200) (heap loop_before))
      by (unfold loop_before; simpl;
          repeat (apply map_Forall_insert_2; [lia|]); apply map_Forall_empty).
    intros p bb Hp. exact (map_Forall_lookup_1 _ _ _ _ Hall Hp).
  - intros b [->| ->]%Hblocks; eexists; vm_compute; reflexivity.
  - intros b _. apply lookup_empty.
  - intros b. apply lookup_empty.
  - split; [apply (bool_decide_unpack _); vm_compute; reflexivity|].
    intros c Hc. unfold loop_before in *. simpl in *.
    rewrite !elem_of_cons, elem_of_nil in Hc. lia.
  - vm_compute. reflexivity.
  - intros b t s [->| ->]%Hblocks (bb & a & Hbb & Ht) Hs Hout;
      vm_compute in Hbb; injection Hbb as <-; vm_compute in Ht; injection Ht as <- <-;
      simpl in Hs; rewrite !elem_of_cons, elem_of_nil in Hs.
    + destruct Hs as [->|[->|[]]].
      * exfalso. apply Hout. unfold Walks.loop_blocks. set_solver.
      * exists 0. split; [vm_compute; reflexivity|done].
    + destruct Hs as [->|[]]. exfalso. apply Hout. unfold Walks.loop_blocks. set_solver.
Qed.

Lemma loop_assigned b : b ∈ Walks.loop_blocks → ¬ unassigned loop_before b.
Proof.
  unfold Walks.loop_blocks, unassigned, loop_before. simpl.
  rewrite elem_of_union, !elem_of_singleton. intros [->| ->] [HB HT]; congruence.
Qed.

Lemma shared_exit_ready : ready loop_context shared_exit_blocks shared_exit_before.
Proof.
  assert (Hblocks : ∀ b, b ∈ shared_exit_blocks → b = 1 ∨ b = 2).
  { intros b. unfold shared_exit_blocks.
    rewrite elem_of_union, !elem_of_singleton. tauto. }
  split.
  - assert (Hall : map_Forall (fun p _ => p < 200) (heap shared_exit_before))
      by (unfold shared_exit_before; simpl;
          repeat (apply map_Forall_insert_2; [lia|]); apply map_Forall_empty).
    intros p bb Hp. exact (map_Forall_lookup_1 _ _ _ _ Hall Hp).
  - intros b [->| ->]%Hblocks; eexists; vm_compute; reflexivity.
  - intros b _. apply lookup_empty.
  - intros b. apply lookup_empty.
  - split; [apply (bool_decide_unpack _); vm_compute; reflexivity|].
    intros c Hc. unfold shared_exit_before in *. simpl in *.
    rewrite !elem_of_cons, elem_of_nil in Hc. lia.
  - vm_compute. reflexivity.
  - intros b t s [->| ->]%Hblocks (bb & a & Hbb & Ht) Hs Hout;
      vm_compute in Hbb; injection Hbb as <-; vm_compute in Ht; injection Ht as <- <-;
      simpl in Hs; rewrite !elem_of_cons, elem_of_nil in Hs.
    + destruct Hs as [->|[->|[]]].
      * exfalso. apply Hout. unfold shared_exit_blocks. set_solver.
      * exists 0. split; [vm_compute; reflexivity|done].
    + destruct Hs as [->|[]]. exists 0. split; [vm_compute; reflexivity|done].
Qed.

Lemma exit_without_entry_has_no_id_witness :
  ∃ st1 st' cb t' exit,
    BuildKernel loop_context shared_exit_blocks shared_exit_before = Ok st1 ∧
    BuildExit loop_context {[100]} (Repipe loop_context (Remap st1)) = Some st' ∧
    image st' 2 = Some cb ∧ terminator st' cb t' ∧
    Exit loop_context ∈ term_successors t' ∧
    heap st' !! Exit loop_context = Some exit ∧ returned (insts exit) cb = None.
Proof.
  assert (Hblocks : ∀ b, b ∈ shared_exit_blocks ↔ b = 1 ∨ b = 2).
  { intros b. unfold shared_exit_blocks.
    rewrite elem_of_union, !elem_of_singleton. tauto. }
  assert (HE : Build.ExitMap shared_exit_before = {[1 := 0]}) by (vm_compute; reflexivity).
  apply (exit_without_entry_has_no_id loop_context {[100]} shared_exit_blocks
           shared_exit_before 2 9 (Br 9) 100).
  - exact shared_exit_ready.
  - intros b Hb [_ HT]. apply HT. exact Hb.
  - vm_compute. reflexivity.
  - vm_compute. reflexivity.
  - vm_compute. discriminate.
  - intros k [id Hk]. rewrite HE in Hk. apply lookup_singleton_Some in Hk as [<- _].
    apply Hblocks. by left.
  - intros k f [->| ->]%Hblocks Hf; vm_compute in Hf; injection Hf as <-;
      rewrite elem_of_singleton; lia.
  - apply Hblocks. by right.
  - eexists _, _. split; vm_compute; reflexivity.
  - simpl. apply list_elem_of_singleton. reflexivity.
  - rewrite Hblocks. lia.
  - rewrite HE. apply lookup_singleton_ne. lia.
Defined.

Lemma Repipe_stays_inside_witness :
  (∀ c, c ∈ kfBlocks (Remap loop_built) → stays_inside loop_context loop_piped c) ∧
  (∀ b, getParent loop_piped b = getParent (Remap loop_built) b).
Proof.
  apply (Repipe_stays_inside loop_context (Remap loop_built)). vm_compute. reflexivity.
Defined.

Lemma BuildInit_dispatch_witness :
  ∃ a cases,
    heap loop_init !! Init loop_context
    = Some {| parent := 100;
              insts := [] ++ [(a, Switch (Arg (KernelFunction loop_context) 0)
                                    (Exception loop_context) cases)] |} ∧
    length cases = size ({[1]} : gset ptr) ∧
    ∀ x, 0 ≤ x < 256 →
      Some (switch_dest x (Exception loop_context) cases)
      = match set_iter {[1]} !! Z.to_nat x with
        | Some ent => image loop_piped ent
        | None => Some (Exception loop_context)
        end.
Proof.
  apply (BuildInit_dispatch loop_context {[1]} loop_piped loop_init
           {| parent := 100; insts := [] |}); vm_compute; reflexivity.
Defined.

Lemma BuildExit_returns_witness :
  ∃ exit exception,
    heap loop_exit !! Exit loop_context = Some exit ∧
    heap loop_exit !! Exception loop_context = Some exception ∧
    (∀ b id p, ExitMap loop_piped !! b = Some id → exit_block {[100]} loop_piped b = Some p →
       (∀ b', is_Some (ExitMap loop_piped !! b') →
              exit_block {[100]} loop_piped b' = Some p → b' = b) →
       returned (insts exit) p = Some (i8 id)) ∧
    (∀ p, returned (insts exit) p = None ↔
          ¬ ∃ b, is_Some (ExitMap loop_piped !! b) ∧ exit_block {[100]} loop_piped b = Some p) ∧
    (∀ p, returned (insts exception) p = Some (ConstantInt 8 254)).
Proof.
  apply (BuildExit_returns loop_context {[100]} loop_piped loop_exit 100 100).
  - vm_compute. reflexivity.
  - vm_compute. reflexivity.
  - simpl. lia.
  - vm_compute. reflexivity.
Defined.

Lemma BuildKernel_clones_and_places_witness :
  match BuildKernel loop_context Walks.loop_blocks loop_before with
  | Ok st1 => (∀ b, b ∈ Walks.loop_blocks →
                    ¬ unassigned loop_before b ∧ cloned loop_context loop_before st1 b)
  | Throw e => e = TikError "Tik Error: block not in Body or Termination" ∧
               ∃ b, b ∈ Walks.loop_blocks ∧ unassigned loop_before b
  end.
Proof.
  apply (BuildKernel_clones_and_places loop_context Walks.loop_blocks loop_before).
  exact loop_ready.
Defined.

Lemma kernel_mirrors_region_witness :
  ∃ st1, BuildKernel loop_context Walks.loop_blocks loop_before = Ok st1 ∧
    let st3 := Repipe loop_context (Remap st1) in
    ∀ b t, b ∈ Walks.loop_blocks → terminator loop_before b t →
      ∃ cb t', image st3 b = Some cb ∧
               getParent st3 cb = Some (KernelFunction loop_context) ∧
               terminator st3 cb t' ∧
               Forall2 (mirrors loop_context Walks.loop_blocks st3)
                 (term_successors t) (term_successors t').
Proof.
  apply (kernel_mirrors_region loop_context Walks.loop_blocks loop_before).
  - exact loop_ready.
  - exact loop_assigned.
Defined.

End FinishFacts.

(** ** The selector functions on the indices they were built for *)

Module SelFacts.
Import Mem Sel MemFacts.

Lemma select_link_pick f mem arg env g idx prior a v0 :
  (∀ b, is_Some (env !! b) → b < a) →
  match prior with
  | None => True
  | Some pv => ∃ p, pv = Inst p ∧ env !! p = Some v0
  end →
  ∃ env' p', (select_link f g idx prior a).2 = Inst p' ∧
    (∀ rest, run f mem arg env ((select_link f g idx prior a).1 ++ rest)
             = run f mem arg env' rest) ∧
    (∀ b, is_Some (env' !! b) → b < a + Z.of_nat (length (select_link f g idx prior a).1)) ∧
    env' !! p' = Some (match prior with
                       | None => i64 (mem g)
                       | Some _ => if decide (arg = i64 idx) then i64 (mem g) else v0
                       end).
Proof.
  intros Hfresh Hprior. destruct prior as [pv|]; simpl.
  - destruct Hprior as (p & -> & Hp).
    assert (p < a) by (apply Hfresh; by rewrite Hp).
    exists (<[a + 3 := if decide (arg = i64 idx) then i64 (mem g) else v0]>
              (<[a + 2 := if decide (arg = i64 idx) then 1 else 0]>
                 (<[a + 1 := i64 (mem g)]> (<[a := mem g]> env)))), (a + 3).
    split_and!; [done| | |by rewrite lookup_insert_eq].
    + intros rest. rewrite lookup_insert_eq. simpl.
      destruct (decide (f = f)) as [_|?]; [simpl|done].
      change (idx mod 2 ^ 64) with (i64 idx).
      rewrite lookup_insert_eq. simpl.
      rewrite (lookup_insert_ne _ (a + 2) (a + 1)) by lia.
      rewrite lookup_insert_eq. simpl.
      rewrite !(lookup_insert_ne _ _ p) by lia. rewrite Hp. simpl.
      destruct (decide (arg = i64 idx)); simpl.
      * by destruct (decide (1 = 0)).
      * by destruct (decide (0 = 0)).
    + intros b. rewrite !lookup_insert_is_Some'.
      intros [<-|[<-|[<-|[<-|Hb']]]]; try lia. apply Hfresh in Hb'. lia.
  - exists (<[a + 1 := i64 (mem g)]> (<[a := mem g]> env)), (a + 1).
    split_and!; [done| | |by rewrite lookup_insert_eq].
    + intros rest. by rewrite lookup_insert_eq.
    + intros b. rewrite !lookup_insert_is_Some'.
      intros [<-|[<-|Hb']]; try lia. apply Hfresh in Hb'. lia.
Qed.

Lemma i64_small z : 0 ≤ z < 2 ^ 64 → i64 z = z.
Proof. intros Hz. unfold i64. by apply Z.mod_small. Qed.

Lemma pick_step arg n :
  0 < n → pick arg (n + 1) = if decide (arg = n) then n else pick arg n.
Proof. intros Hn. unfold pick. repeat case_decide; lia. Qed.

Lemma pick_lt arg n : 0 < n → 0 ≤ pick arg n < n.
Proof. intros Hn. unfold pick. case_decide; lia. Qed.

Lemma promote_GlobalMap v st w g :
  GlobalMap st !! w = Some g → GlobalMap (promote v st) !! w = Some g.
Proof.
  intros Hw. unfold promote. destruct (GlobalMap st !! v) eqn:E; simpl; [done|].
  rewrite lookup_insert_ne; [done|]. intros ->. congruence.
Qed.

Section chain.
Variable f : ptr.
Variable mem : ptr → Z.
Variable arg : Z.

Lemma read_link_sel st v :
  sel_inv f mem arg LoadMap st → index_inv LoadMap st → i st < 2 ^ 64 →
  sel_inv f mem arg LoadMap (read_link f st v) ∧ index_inv LoadMap (read_link f st v) ∧
  i (read_link f st v) = i st + 1 ∧ is_Some (indexMap (read_link f st v) !! v) ∧
  (∀ w, is_Some (indexMap st !! w) → is_Some (indexMap (read_link f st v) !! w)).
Proof.
  intros (env & Hrun & Hfresh & Hi & Hprior) Hidx Hbound. unfold read_link.
  pose proof (promote_next v (k st)) as Hnext.
  destruct (promote_lookup v (k st)) as [g Hg].
  destruct (promote_tables v (k st)) as [HL _].
  pose proof (promote_GlobalMap v (k st)) as HG.
  set (k1 := promote v (k st)) in *. rewrite Hg. simpl.
  destruct (select_link_pick f mem arg env g (i st) (priorValue st) (next k1)
              (match priorValue st with
               | Some _ => i64 (mem (default 0 (LoadMap (k st) !! pick arg (i st))))
               | None => 0
               end)) as (env' & p' & Hpv & Hrun' & Hfresh' & Hp').
  { intros b Hb. apply Hfresh in Hb. lia. }
  { destruct (priorValue st) as [pv|]; [|done].
    destruct Hprior as (Hpos & p & g0 & -> & Hg0 & Hp).
    exists p. rewrite Hg0. simpl. done. }
  destruct (select_link f g (i st) (priorValue st) (next k1)) as [new prior] eqn:Hsl.
  simpl in *. subst prior. split_and!.
  - exists env'. simpl. split_and!.
    + intros rest. by rewrite <- app_assoc, Hrun, Hrun'.
    + done.
    + lia.
    + lia.
    + destruct (priorValue st) as [pv|].
      * destruct Hprior as (Hpos & p & g0 & -> & Hg0 & Hp).
        rewrite pick_step by done. rewrite i64_small in Hp' by lia.
        destruct (decide (arg = i st)) as [Heq|Hne].
        -- exists p', g. by rewrite lookup_insert_eq.
        -- exists p', g0. pose proof (pick_lt arg (i st) Hpos).
           rewrite lookup_insert_ne by lia. rewrite HL.
           split_and!; [done..|]. by rewrite Hp', Hg0.
      * exists p', g. rewrite Hprior. unfold pick. rewrite decide_False by lia.
        rewrite lookup_insert_eq. by rewrite Hp'.
  - intros w c. simpl. destruct (decide (w = v)) as [->|Hne].
    + rewrite lookup_insert_eq. intros [= <-]. exists (i st), g.
      rewrite lookup_insert_eq. split_and!; [done|lia|lia|done|done].
    + rewrite lookup_insert_ne by done. intros Hw.
      destruct (Hidx w c Hw) as (j & gw & -> & Hj & Ht & Hgw). exists j, gw.
      rewrite lookup_insert_ne by lia. rewrite HL. split_and!; [done|lia|lia|done|].
      by apply HG.
  - done.
  - simpl. by rewrite lookup_insert_eq.
  - intros w Hw. simpl. destruct (decide (w = v)) as [->|Hne].
    + by rewrite lookup_insert_eq.
    + by rewrite lookup_insert_ne.
Qed.

Lemma write_link_sel st v :
  sel_inv f mem arg StoreMap st → index_inv StoreMap st → i st < 2 ^ 64 →
  sel_inv f mem arg StoreMap (write_link f st v) ∧ index_inv StoreMap (write_link f st v) ∧
  i (write_link f st v) = i st + 1 ∧ is_Some (indexMap (write_link f st v) !! v) ∧
  (∀ w, is_Some (indexMap st !! w) → is_Some (indexMap (write_link f st v) !! w)).
Proof.
  intros (env & Hrun & Hfresh & Hi & Hprior) Hidx Hbound. unfold write_link.
  pose proof (promote_next v (k st)) as Hnext.
  destruct (promote_lookup v (k st)) as [g Hg].
  destruct (promote_tables v (k st)) as [_ HL].
  pose proof (promote_GlobalMap v (k st)) as HG.
  set (k1 := promote v (k st)) in *. rewrite Hg.
  destruct (select_link_pick f mem arg env g (i st) (priorValue st) (next k1)
              (match priorValue st with
               | Some _ => i64 (mem (default 0 (StoreMap (k st) !! pick arg (i st))))
               | None => 0
               end)) as (env' & p' & Hpv & Hrun' & Hfresh' & Hp').
  { intros b Hb. apply Hfresh in Hb. lia. }
  { destruct (priorValue st) as [pv|]; [|done].
    destruct Hprior as (Hpos & p & g0 & -> & Hg0 & Hp).
    exists p. rewrite Hg0. simpl. done. }
  destruct (select_link f g (i st) (priorValue st) (next k1)) as [new prior] eqn:Hsl.
  simpl in *. subst prior. split_and!.
  - exists env'. simpl. split_and!.
    + intros rest. by rewrite <- app_assoc, Hrun, Hrun'.
    + done.
    + lia.
    + lia.
    + destruct (priorValue st) as [pv|].
      * destruct Hprior as (Hpos & p & g0 & -> & Hg0 & Hp).
        rewrite pick_step by done. rewrite i64_small in Hp' by lia.
        destruct (decide (arg = i st)) as [Heq|Hne].
        -- exists p', g. by rewrite lookup_insert_eq.
        -- exists p', g0. pose proof (pick_lt arg (i st) Hpos).
           rewrite lookup_insert_ne by lia. rewrite HL.
           split_and!; [done..|]. by rewrite Hp', Hg0.
      * exists p', g. rewrite Hprior. unfold pick. rewrite decide_False by lia.
        rewrite lookup_insert_eq. by rewrite Hp'.
  - intros w c. simpl. destruct (decide (w = v)) as [->|Hne].
    + rewrite lookup_insert_eq. intros [= <-]. exists (i st), g.
      rewrite lookup_insert_eq. split_and!; [done|lia|lia|done|done].
    + rewrite lookup_insert_ne by done. intros Hw.
      destruct (Hidx w c Hw) as (j & gw & -> & Hj & Ht & Hgw). exists j, gw.
      rewrite lookup_insert_ne by lia. rewrite HL. split_and!; [done|lia|lia|done|].
      by apply HG.
  - done.
  - simpl. by rewrite lookup_insert_eq.
  - intros w Hw. simpl. destruct (decide (w = v)) as [->|Hne].
    + by rewrite lookup_insert_eq.
    + by rewrite lookup_insert_ne.
Qed.

Lemma read_chain_sel vs st :
  sel_inv f mem arg LoadMap st → index_inv LoadMap st →
  i st + Z.of_nat (length vs) ≤ 2 ^ 64 →
  let st' := fold_left (read_link f) vs st in
  sel_inv f mem arg LoadMap st' ∧ index_inv LoadMap st' ∧
  i st' = i st + Z.of_nat (length vs) ∧
  (∀ v, v ∈ vs → is_Some (indexMap st' !! v)) ∧
  (∀ w, is_Some (indexMap st !! w) → is_Some (indexMap st' !! w)).
Proof.
  revert st. induction vs as [|v vs IH]; intros st Hsel Hidx Hbound; simpl.
  - split_and!; [done|done|lia| |done]. intros v Hv. by apply elem_of_nil in Hv.
  - simpl length in Hbound.
    destruct (read_link_sel st v Hsel Hidx) as (Hsel' & Hidx' & Hi' & Hv' & Hmono'); [lia|].
    destruct (IH _ Hsel' Hidx') as (? & ? & Hi & Hin & Hmono); [lia|].
    split_and!; [done|done|simpl length; lia| |].
    + intros w [->|Hw]%elem_of_cons; [by apply Hmono|by apply Hin].
    + intros w Hw. by apply Hmono, Hmono'.
Qed.

Lemma write_chain_sel vs st :
  sel_inv f mem arg StoreMap st → index_inv StoreMap st →
  i st + Z.of_nat (length vs) ≤ 2 ^ 64 →
  let st' := fold_left (write_link f) vs st in
  sel_inv f mem arg StoreMap st' ∧ index_inv StoreMap st' ∧
  i st' = i st + Z.of_nat (length vs) ∧
  (∀ v, v ∈ vs → is_Some (indexMap st' !! v)) ∧
  (∀ w, is_Some (indexMap st !! w) → is_Some (indexMap st' !! w)).
Proof.
  revert st. induction vs as [|v vs IH]; intros st Hsel Hidx Hbound; simpl.
  - split_and!; [done|done|lia| |done]. intros v Hv. by apply elem_of_nil in Hv.
  - simpl length in Hbound.
    destruct (write_link_sel st v Hsel Hidx) as (Hsel' & Hidx' & Hi' & Hv' & Hmono'); [lia|].
    destruct (IH _ Hsel' Hidx') as (? & ? & Hi & Hin & Hmono); [lia|].
    split_and!; [done|done|simpl length; lia| |].
    + intros w [->|Hw]%elem_of_cons; [by apply Hmono|by apply Hin].
    + intros w Hw. by apply Hmono, Hmono'.
Qed.

(** A closed, non-empty chain returns the converted pointer of the picked
    index. *)
Lemma close_sel table warning st :
  sel_inv f mem arg table st → 0 < i st →
  ∃ g, table (k st) !! pick arg (i st) = Some g ∧
       run f mem arg ∅ (code (close warning st)) = Some (i64 (mem g)).
Proof.
  intros (env & Hrun & Hfresh & Hi & Hprior) Hpos. unfold close.
  destruct (priorValue st) as [pv|]; [|lia].
  destruct Hprior as (_ & p & g0 & -> & Hg0 & Hp).
  exists g0. simpl. split; [done|]. rewrite Hrun. simpl. exact Hp.
Qed.

End chain.

Lemma sel_inv_start f mem arg table k0 :
  sel_inv f mem arg table
    {| i := 0; code := []; priorValue := None; indexMap := ∅; k := k0 |}.
Proof.
  exists ∅. simpl. split_and!; try done.
  intros b [? Hb]. by rewrite lookup_empty in Hb.
Qed.

Lemma index_inv_start table k0 :
  index_inv table {| i := 0; code := []; priorValue := None; indexMap := ∅; k := k0 |}.
Proof. intros v c Hv. simpl in Hv. by rewrite lookup_empty in Hv. Qed.

Lemma write_link_keeps st fn v :
  LoadMap (k (write_link fn st v)) = LoadMap (k st) ∧
  ∀ w g, GlobalMap (k st) !! w = Some g → GlobalMap (k (write_link fn st v)) !! w = Some g.
Proof.
  unfold write_link. destruct (promote_tables v (k st)) as [HLp _].
  pose proof (promote_GlobalMap v (k st)) as HG.
  destruct (GlobalMap (promote v (k st)) !! v); [|done].
  destruct (select_link _ _ _ _ _). simpl. split; [done|]. intros w g. apply HG.
Qed.

Lemma write_chain_keeps vs st fn :
  LoadMap (k (fold_left (write_link fn) vs st)) = LoadMap (k st) ∧
  ∀ w g, GlobalMap (k st) !! w = Some g →
         GlobalMap (k (fold_left (write_link fn) vs st)) !! w = Some g.
Proof.
  revert st. induction vs as [|v vs IH]; intros st; simpl; [done|].
  destruct (IH (write_link fn st v)) as [H1 H2].
  destruct (write_link_keeps st fn v) as [H3 H4].
  split; [congruence|]. intros w g Hw. by apply H2, H4.
Qed.

Lemma close_keeps warning st :
  GlobalMap (k (close warning st)) = GlobalMap (k st) ∧ indexMap (close warning st) = indexMap st.
Proof. unfold close. by destruct (priorValue st). Qed.

(** The selectors do what they were built for: for the pointer operand [v]
    of a load of the kernel function, [MemoryRead] called with the index
    constant that [loadMap] has for [v] returns the pointer held by the
    global that [GlobalMap] has for [v], as an [i64]; and [LoadMap] has that
    global under that index. The same holds of stores, [MemoryWrite],
    [storeMap] and [StoreMap]. *)
Theorem selector_returns_the_global addr kf st mem v :
  (v ∈ loadValues kf → Z.of_nat (size (loadValues kf)) ≤ 2 ^ 64 →
     ∃ j g, loadMap (GetMemoryFunctions addr kf st) !! v = Some (ConstantInt 64 j) ∧
            GlobalMap (after (GetMemoryFunctions addr kf st)) !! v = Some g ∧
            LoadMap (after (GetMemoryFunctions addr kf st)) !! j = Some g ∧
            call (MemoryRead (GetMemoryFunctions addr kf st)) mem j = Some (i64 (mem g))) ∧
  (v ∈ storeValues kf → Z.of_nat (size (storeValues kf)) ≤ 2 ^ 64 →
     ∃ j g, storeMap (GetMemoryFunctions addr kf st) !! v = Some (ConstantInt 64 j) ∧
            GlobalMap (after (GetMemoryFunctions addr kf st)) !! v = Some g ∧
            StoreMap (after (GetMemoryFunctions addr kf st)) !! j = Some g ∧
            call (MemoryWrite (GetMemoryFunctions addr kf st)) mem j = Some (i64 (mem g))).
Proof.
  unfold GetMemoryFunctions, call. simpl.
  set (k0 := {| next := next st + 2; GlobalMap := _ |}).
  set (r := fold_left (read_link (next st)) _ _).
  set (w := fold_left (write_link (next st + 1)) _ _).
  destruct (close_tables "Empty kernel write encountered" w) as [HLw HSw].
  destruct (close_keeps "Empty kernel write encountered" w) as [HGw HIw].
  destruct (close_tables "Empty kernel read encountered" r) as [HLr _].
  destruct (close_keeps "Empty kernel read encountered" r) as [HGr HIr].
  destruct (write_chain_keeps (value_iter addr (storeValues kf))
              {| i := 0; code := []; priorValue := None; indexMap := ∅;
                 k := k (close "Empty kernel read encountered" r) |} (next st + 1))
    as [HLk HGk]. fold w in HLk, HGk. simpl in HLk, HGk.
  split.
  - intros Hv Hsize.
    assert (Hidx : index_inv LoadMap r ∧ i r = Z.of_nat (size (loadValues kf)) ∧
                   is_Some (indexMap r !! v)).
    { destruct (read_chain_sel (next st) mem 0 (value_iter addr (loadValues kf)) _
                  (sel_inv_start _ _ _ LoadMap k0) (index_inv_start LoadMap k0))
        as (_ & Hidx & Hi & Hin & _).
      - simpl. by rewrite length_value_iter.
      - fold r in Hidx, Hi, Hin. simpl in Hi. rewrite length_value_iter in Hi.
        split_and!; [done|lia|]. by apply Hin, elem_of_value_iter. }
    destruct Hidx as (Hidx & Hi & [c Hc]).
    destruct (Hidx v c Hc) as (j & g & -> & Hj & Ht & Hg).
    destruct (read_chain_sel (next st) mem j (value_iter addr (loadValues kf)) _
                (sel_inv_start _ _ _ LoadMap k0) (index_inv_start LoadMap k0))
      as (Hsel & _).
    { simpl. by rewrite length_value_iter. }
    fold r in Hsel.
    destruct (close_sel _ _ _ LoadMap "Empty kernel read encountered" r Hsel)
      as (g' & Hg' & Hrun); [lia|].
    assert (pick j (i r) = j) as Hpick by (unfold pick; case_decide; lia).
    rewrite Hpick in Hg'. assert (g' = g) as -> by congruence.
    exists j, g. rewrite HIr, HGw, HLw, HLk, HLr. split_and!; [done| |done|done].
    apply HGk. by rewrite HGr.
  - intros Hv Hsize.
    assert (Hidx : index_inv StoreMap w ∧ i w = Z.of_nat (size (storeValues kf)) ∧
                   is_Some (indexMap w !! v)).
    { destruct (write_chain_sel (next st + 1) mem 0 (value_iter addr (storeValues kf)) _
                  (sel_inv_start _ _ _ StoreMap (k (close "Empty kernel read encountered" r)))
                  (index_inv_start StoreMap (k (close "Empty kernel read encountered" r))))
        as (_ & Hidx & Hi & Hin & _).
      - simpl. by rewrite length_value_iter.
      - fold w in Hidx, Hi, Hin. simpl in Hi. rewrite length_value_iter in Hi.
        split_and!; [done|lia|]. by apply Hin, elem_of_value_iter. }
    destruct Hidx as (Hidx & Hi & [c Hc]).
    destruct (Hidx v c Hc) as (j & g & -> & Hj & Ht & Hg).
    destruct (write_chain_sel (next st + 1) mem j (value_iter addr (storeValues kf)) _
                (sel_inv_start _ _ _ StoreMap (k (close "Empty kernel read encountered" r)))
                  (index_inv_start StoreMap (k (close "Empty kernel read encountered" r))))
      as (Hsel & _).
    { simpl. by rewrite length_value_iter. }
    fold w in Hsel.
    destruct (close_sel _ _ _ StoreMap "Empty kernel write encountered" w Hsel)
      as (g' & Hg' & Hrun); [lia|].
    assert (pick j (i w) = j) as Hpick by (unfold pick; case_decide; lia).
    rewrite Hpick in Hg'. assert (g' = g) as -> by congruence.
    exists j, g. rewrite HIw, HGw, HSw. done.
Qed.

Lemma selector_returns_the_global_witness :
  Inst 62 ∈ loadValues memory_kernel ∧
  Z.of_nat (size (loadValues memory_kernel)) ≤ 2 ^ 64 ∧
  ∃ j g, loadMap (GetMemoryFunctions address memory_kernel fresh_kernel) !! Inst 62
         = Some (ConstantInt 64 j) ∧
         GlobalMap (after (GetMemoryFunctions address memory_kernel fresh_kernel)) !! Inst 62
         = Some g ∧
         LoadMap (after (GetMemoryFunctions address memory_kernel fresh_kernel)) !! j = Some g ∧
         call (MemoryRead (GetMemoryFunctions address memory_kernel fresh_kernel))
           (fun g => g * 1000) j = Some (i64 (g * 1000)).
Proof.
  assert (H1 : Inst 62 ∈ loadValues memory_kernel).
  { unfold loadValues. rewrite elem_of_list_to_set. simpl. by left. }
  assert (H2 : Z.of_nat (size (loadValues memory_kernel)) ≤ 2 ^ 64).
  { change (Z.of_nat (size (loadValues memory_kernel))) with 2. vm_compute. discriminate. }
  split; [exact H1|]. split; [exact H2|].
  exact (proj1 (selector_returns_the_global address memory_kernel fresh_kernel
                  (fun g => g * 1000) (Inst 62)) H1 H2).
Defined.

End SelFacts.

(** ** Names across calls of the constructor *)

Module NamesFacts.
Import Ctor Names.

Lemma choose_name_given name :
  name ≠ "" → ∃ Name, ∀ uid, choose_name name uid = (Name, uid).
Proof.
  intros Hne. destruct name as [|front rest]; [done|]. simpl.
  destruct (is_digit front); eexists; done.
Qed.

Lemma Cleanup_names m r : reservedNames (Cleanup m r) = reservedNames r.
Proof. done. Qed.

(** A given name is spent by the first call of the constructor that uses
    it, however that call ends: whether the kernel was built, the build
    failed and was cleaned up, or the name was taken already, a further call
    with the same name throws the uniqueness error out of the constructor
    and changes nothing. *)
Theorem name_is_never_released phases name r :
  keep_names phases → name ≠ "" →
  let r' := run_after (construct phases name r) in
  construct phases name r'
  = Escaped (TikError "Kernel Error: Kernel names must be unique!") r'.
Proof.
  intros Hkeep Hne. destruct (choose_name_given name Hne) as [Name HName].
  assert (Hin : Name ∈ reservedNames (run_after (construct phases name r))).
  { unfold construct. rewrite HName. simpl. case_decide as Hd; [done|].
    pose proof (Hkeep Name fresh_members
                  {| KernelUID := KernelUID r; reservedNames := {[Name]} ∪ reservedNames r;
                     TikModule := TikModule r; log := log r |}) as Hsub.
    destruct (phases Name fresh_members _) as [[m r2] [[what]|]]; simpl in *.
    - apply Hsub. set_solver.
    - apply Hsub. set_solver. }
  intros r'. fold r' in Hin. unfold construct. rewrite HName. simpl.
  rewrite decide_True by done. by destruct r'.
Qed.

Lemma name_is_never_released_witness :
  construct failing_phases "k1" (run_after (construct failing_phases "k1" run_k0))
  = Escaped (TikError "Kernel Error: Kernel names must be unique!")
      (run_after (construct failing_phases "k1" run_k0)).
Proof.
  apply (name_is_never_released failing_phases "k1" run_k0).
  - intros Name m r. simpl. done.
  - discriminate.
Defined.

(** The constructor of an unnamed kernel can throw the uniqueness error too:
    when the name [Kernel_<KernelUID>] is taken the exception leaves the
    constructor, and the counter has been advanced all the same. *)
Theorem default_name_can_collide phases r :
  "Kernel_" +:+ pretty (KernelUID r) ∈ reservedNames r →
  ∃ r', construct phases "" r
        = Escaped (TikError "Kernel Error: Kernel names must be unique!") r' ∧
        KernelUID r' = KernelUID r + 1 ∧ reservedNames r' = reservedNames r ∧
        TikModule r' = TikModule r ∧ log r' = log r.
Proof.
  intros Hin. unfold construct. simpl. rewrite decide_True by done. by eexists.
Qed.

Lemma default_name_can_collide_witness :
  ∃ r', construct failing_phases "" run_Kernel_0
        = Escaped (TikError "Kernel Error: Kernel names must be unique!") r' ∧
        KernelUID r' = KernelUID run_Kernel_0 + 1 ∧
        reservedNames r' = reservedNames run_Kernel_0 ∧
        TikModule r' = TikModule run_Kernel_0 ∧ log r' = log run_Kernel_0.
Proof.
  apply (default_name_can_collide failing_phases run_Kernel_0).
  vm_compute. reflexivity.
Defined.

End NamesFacts.

(** ** What [GetExternalValues] collects *)

Module ExtFacts.
Import Sig Ext.

Lemma elem_of_push_new l v x : x ∈ push_new l v ↔ x ∈ l ∨ x = v.
Proof.
  unfold push_new. case_decide as Hin.
  - split; [by left|]. intros [?|Hx]; [done|by subst].
  - by rewrite elem_of_app, list_elem_of_singleton.
Qed.

(** A loop over [l] that adds to the list what each turn adds. *)
Lemma fold_collects {B} (f : list Value → B → list Value) (P : B → Value → Prop) :
  (∀ ev b x, x ∈ f ev b ↔ x ∈ ev ∨ P b x) →
  ∀ l ev x, x ∈ fold_left f l ev ↔ x ∈ ev ∨ ∃ b, b ∈ l ∧ P b x.
Proof.
  intros Hf l. induction l as [|b l IH]; intros ev x; simpl.
  - split; [by left|]. intros [?|(b & Hb & _)]; [done|]. by apply elem_of_nil in Hb.
  - rewrite IH, Hf. split.
    + intros [[?|?]|(b' & ? & ?)]; [by left|right..].
      * exists b. split; [by left|done].
      * exists b'. split; [by right|done].
    + intros [?|(b' & Hb' & ?)]; [by left; left|].
      apply elem_of_cons in Hb' as [Hb'|Hb']; [subst b'; by left; right|right].
      by exists b'.
Qed.

Lemma external_operand_spec ir blocks vmap inst ev op x :
  x ∈ external_operand ir blocks vmap inst ev op ↔
  x ∈ ev ∨ contributes ir blocks vmap inst op x.
Proof.
  assert (Hpush : ∀ v, x ∈ push_new ev v ↔ x ∈ ev ∨ x = v)
    by (intros v; apply elem_of_push_new).
  assert (Hsub : ∀ callee, x ∈ match KfMap ir !! callee with
                              | Some subExternalValues =>
                                fold_left (fun ev sExtVal =>
                                             match vmap !! sExtVal with
                                             | Some _ => ev
                                             | None => push_new ev sExtVal
                                             end) subExternalValues ev
                              | None => ev
                              end
                    ↔ x ∈ ev ∨ ∃ sub, KfMap ir !! callee = Some sub ∧ x ∈ sub ∧
                                      vmap !! x = None).
  { intros callee. destruct (KfMap ir !! callee) as [sub|].
    - rewrite (fold_collects _ (fun s x => x = s ∧ vmap !! s = None)).
      + split; (intros [?|H]; [by left|right]).
        * destruct H as (s & Hs & -> & Hv). by exists sub.
        * destruct H as (sub' & [= <-] & Hs & Hv). by exists x.
      + intros ev' s y. destruct (vmap !! s) eqn:E.
        * split; [by left|]. intros [?|[_ ?]]; done.
        * rewrite elem_of_push_new. split; (intros [?|?]; [by left|right]); tauto.
    - split; [by left|]. intros [?|(? & ? & _)]; done. }
  destruct op; simpl; try (split; [by left|intros [?|[]]; done]).
  - case_decide.
    + split; [by left|]. intros [?|[? _]]; done.
    + rewrite Hpush. tauto.
  - destruct inst; try apply Hpush. apply Hsub.
Qed.

(** [GetExternalValues] on a kernel without external values yet collects,
    each once, exactly the values used in the region from outside it: the
    instructions of blocks outside the region that an instruction of the
    region has as an operand, the formal arguments that an instruction other
    than a call has as an operand, and, for a call of a kernel's function
    with a formal argument among its operands, the external values of that
    kernel that [VMap] has nothing for. Constants, globals, functions and
    blocks are never collected as operands. *)
Theorem GetExternalValues_collects ir blocks vmap :
  NoDup (GetExternalValues ir blocks vmap []) ∧
  ∀ v, v ∈ GetExternalValues ir blocks vmap [] ↔ external ir blocks vmap v.
Proof.
  split; [apply SigFacts.GetExternalValues_NoDup; constructor|].
  intros v. unfold GetExternalValues, external.
  rewrite (fold_collects _ (fun bb x => ∃ inst op, inst ∈ blockInsts ir bb ∧
                                         op ∈ operands inst ∧
                                         contributes ir blocks vmap inst op x)).
  - rewrite elem_of_nil. split.
    + intros [[]|(bb & Hbb%elem_of_set_iter & inst & op & ?)]. by exists bb, inst, op.
    + intros (bb & inst & op & Hbb & ?). right. exists bb.
      split; [by apply elem_of_set_iter|]. by exists inst, op.
  - intros ev bb x.
    rewrite (fold_collects _ (fun inst x => ∃ op, op ∈ operands inst ∧
                                            contributes ir blocks vmap inst op x)).
    + split; (intros [?|H]; [by left|right]).
      * destruct H as (inst & ? & op & ? & ?). by exists inst, op.
      * destruct H as (inst & op & ? & ? & ?). exists inst. split; [done|]. by exists op.
    + intros ev' inst y.
      apply (fold_collects _ (fun op x => contributes ir blocks vmap inst op x)).
      intros ev'' op z. apply external_operand_spec.
Qed.

End ExtFacts.

(** ** More on the kernel hasher *)

Module HashFacts.
Import Hasher HasherFacts.

Lemma sorted_ids ids ids' : ids ≡ₚ ids' → merge_sort Z.le ids = merge_sort Z.le ids'.
Proof.
  intros Hp. apply (Sorted_unique Z.le).
  - apply StronglySorted_Sorted, (StronglySorted_merge_sort Z.le).
  - apply StronglySorted_Sorted, (StronglySorted_merge_sort Z.le).
  - by rewrite !merge_sort_Permutation.
Qed.

(** The hash of a kernel does not depend on the order in which the kernel
    file lists its block ids. *)
Theorem hash_ignores_order blockStr hasher blockMap ids ids' :
  ids ≡ₚ ids' →
  hash_kernel blockStr hasher blockMap ids = hash_kernel blockStr hasher blockMap ids'.
Proof. intros Hp. unfold hash_kernel, resolve. by rewrite (sorted_ids _ _ Hp). Qed.

Lemma hash_ignores_order_witness :
  hash_kernel (fun b => pretty b) (fun s => Z.of_nat (String.length s))
    (index_blocks small_module 0).1 [2; 0]
  = hash_kernel (fun b => pretty b) (fun s => Z.of_nat (String.length s))
      (index_blocks small_module 0).1 [0; 2].
Proof. apply hash_ignores_order. apply perm_swap. Defined.

(** [main] comes to an end exactly when every id of every kernel names a
    block of the module, counting from 0: an id outside that range makes
    [blockMap[block]] null, which is dereferenced. *)
Theorem main_needs_ids_in_range blockStr hasher M (j : list (string * list Z)) :
  is_Some (main blockStr hasher M j) ↔
  ∀ kv id, kv ∈ j → id ∈ kv.2 → 0 ≤ id < Z.of_nat (length (blocks_of M)).
Proof.
  unfold main. rewrite mapM_is_Some, Forall_forall. split.
  - intros Hall kv id Hkv Hid. specialize (Hall kv Hkv). simpl in Hall.
    unfold hash_kernel in Hall.
    destruct (resolve (index_blocks M 0).1 kv.2) as [bs|] eqn:Hres; [|by destruct Hall].
    unfold resolve in Hres. apply mapM_Some in Hres.
    assert (Hin : id ∈ merge_sort Z.le kv.2) by (by rewrite merge_sort_Permutation).
    apply list_elem_of_lookup in Hin as [n Hn].
    destruct (Forall2_lookup_l _ _ _ _ _ Hres Hn) as (b & _ & Hb).
    rewrite blockMap_lookup in Hb. case_decide; [|done].
    apply lookup_lt_Some in Hb. lia.
  - intros Hall kv Hkv. simpl. unfold hash_kernel.
    destruct (resolve_in_range M kv.2) as [bs ->]; [|by eexists].
    apply Forall_forall. intros id Hid. by apply (Hall kv).
Qed.

End HashFacts.

(** ** The way back from an inlined callee *)

Module RetFacts.
Import Inline Ret Finish FinishFacts.

Lemma return_cases_spec term l acc idx r :
  foldM (return_case term) l (acc, idx) = Ok r →
  ∃ sucs, Forall2 (fun pre suc => branch_successor (term pre) = Some suc) l sucs ∧
          r.1 = acc ++ imap (fun n suc => (i8 (idx + Z.of_nat n), suc)) sucs.
Proof.
  revert acc idx. induction l as [|pre l IH]; intros acc idx.
  - simpl. intros [= <-]. exists []. split; [constructor|]. simpl. by rewrite app_nil_r.
  - change (foldM (return_case term) (pre :: l) (acc, idx))
      with (return_case term (acc, idx) pre ≫= foldM (return_case term) l).
    destruct (return_case term (acc, idx) pre) as [a'|] eqn:E; [|discriminate].
    unfold return_case in E. simpl in E.
    destruct (branch_successor (term pre)) as [suc|] eqn:Hsuc; [|discriminate].
    injection E as <-. simpl.
    intros (sucs & Hall & ->)%IH. exists (suc :: sucs). split; [by constructor|].
    simpl. rewrite <- app_assoc. simpl. rewrite Z.add_0_r. do 2 f_equal.
    apply imap_ext. intros n x _. simpl. do 2 f_equal. lia.
Qed.

Lemma entrance_block_uses ir fresh ci calledFunc vmap body e :
  entrance_block ir fresh ci calledFunc vmap body = Ok e →
  branchPhi (info e) = fresh + 1 ∧
  code e !! 0%nat
  = Some (fresh + 1,
          PHI (IntTy 8) (imap (fun (n : nat) pre => (ConstantInt 8 (0 + Z.of_nat n), pre))
                           (funcUses e))).
Proof.
  unfold entrance_block.
  destruct (foldM (collect_use ir) (users ir calledFunc) ([], [])) as [[fUses cUses]|];
    [|done]. simpl. by intros [= <-].
Qed.

(** An inlined call returns to where it came from: when the entrance block
    is entered from the block of the [n]-th call site, the branch phi holds
    the number that the switch of the return block takes to the successor of
    that block. This needs the calling blocks to be distinct and no more
    than 256, the numbers being eight bits wide. *)
Theorem inlined_call_returns ir fresh ci calledFunc vmap body term exception e sw :
  entrance_block ir fresh ci calledFunc vmap body = Ok e →
  return_switch term exception e = Ok sw →
  NoDup (funcUses e) → (length (funcUses e) ≤ 256)%nat →
  ∃ incoming cases,
    code e !! 0%nat = Some (branchPhi (info e), PHI (IntTy 8) incoming) ∧
    sw = Switch (Inst (branchPhi (info e))) exception cases ∧
    ∀ n pre, funcUses e !! n = Some pre →
      ∃ x suc, phi_value incoming pre = Some (ConstantInt 8 x) ∧
               branch_successor (term pre) = Some suc ∧
               switch_dest x exception cases = suc.
Proof.
  intros [Hphi Hcode]%entrance_block_uses Hsw Hnd Hlen. unfold return_switch in Hsw.
  destruct (foldM (return_case term) (funcUses e) ([], 0)) as [r|] eqn:Hr; [|done].
  simpl in Hsw. injection Hsw as <-.
  apply return_cases_spec in Hr as (sucs & Hall & Hcases). simpl in Hcases.
  do 2 eexists. split; [by rewrite Hphi|]. split; [done|].
  intros n pre Hn. destruct (Forall2_lookup_l _ _ _ _ _ Hall Hn) as (suc & Hsuc & Hbr).
  assert (Hn' : (n < 256)%nat) by (apply lookup_lt_Some in Hn; lia).
  exists (Z.of_nat n), suc. split_and!; [|done|].
  - unfold phi_value.
    assert (Hfind : list_find (fun vp : Value * ptr => vp.2 = pre)
                      (imap (fun (n : nat) pre => (ConstantInt 8 (0 + Z.of_nat n), pre))
                         (funcUses e))
                    = Some (n, (ConstantInt 8 (0 + Z.of_nat n), pre))).
    { apply list_find_Some. split_and!.
      - by rewrite list_lookup_imap, Hn.
      - done.
      - intros j y Hj Hlt Hy. rewrite list_lookup_imap in Hj.
        destruct (funcUses e !! j) as [pre'|] eqn:Hj'; simplify_eq/=.
        assert (j = n) by (by eapply NoDup_lookup). lia. }
    by rewrite Hfind.
  - rewrite Hcases. change (imap _ sucs) with (init_cases sucs).
    rewrite switch_dest_init by lia. by rewrite Nat2Z.id, Hsuc.
Qed.

Lemma inlined_call_returns_witness :
  ∃ incoming cases,
    code two_calls_entrance !! 0%nat
    = Some (branchPhi (info two_calls_entrance), PHI (IntTy 8) incoming) ∧
    two_calls_switch = Switch (Inst (branchPhi (info two_calls_entrance))) 103 cases ∧
    ∀ n pre, funcUses two_calls_entrance !! n = Some pre →
      ∃ x suc, phi_value incoming pre = Some (ConstantInt 8 x) ∧
               branch_successor (two_calls_terminators pre) = Some suc ∧
               switch_dest x 103 cases = suc.
Proof.
  apply (inlined_call_returns two_calls 300 31 7 ∅ ∅ two_calls_terminators 103
           two_calls_entrance two_calls_switch).
  - vm_compute. reflexivity.
  - vm_compute. reflexivity.
  - apply (bool_decide_unpack _). vm_compute. reflexivity.
  - vm_compute. lia.
Defined.

End RetFacts.
